(** * OpenGov delegation tools: a shallow embedding and its verification

  The repository holds three Node.js scripts that drive the
  [convictionVoting] pallet through a proxy account:

  - [governance-cleanup.js]: undelegate, remove votes, unlock expired locks;
  - [delegate.js]: delegate a balance on a list of tracks;
  - [check-delegation.js]: report the delegation status of an account.

  Each script is embedded below in a module of its own.  The chain client
  (polkadot-js) is the boundary of the model: what it hands to the scripts
  (storage entries, status notifications, dispatch errors) is data of the
  types of module [Chain]; what the scripts hand to it (calls) are values
  of [Chain.Call]. *)

From Stdlib Require Import ZArith Lia Bool Sorted.
From Stdlib.Floats Require Import SpecFloat.
From stdpp Require Import base option list strings gmap pretty.

Local Open Scope Z_scope.

(* ===================================================================== *)
(** * The chain client boundary                                           *)
(* ===================================================================== *)

Module Chain.

(** Calls the scripts construct through [api.tx.*].  The constructors are
    total; the client refuses, outside the model, a value the chain types do
    not admit (a balance below zero, a conviction the chain does not know). *)
Inductive Call : Type :=
| Delegate (track : Z) (target : string) (conviction : string) (balance : Z)
| Undelegate (track : Z)
| RemoveVote (track : Z) (refIndex : Z)
| Unlock (track : Z) (account : string).

(** What the scripts sign and send: always
    [api.tx.proxy.proxy(real, null, api.tx.utility.batchAll(calls))]. *)
Inductive Extrinsic : Type :=
| ProxyBatchAll (real : string) (calls : list Call).

Definition isUndelegate (c : Call) : bool :=
  match c with Undelegate _ => true | _ => false end.
Definition isRemoveVote (c : Call) : bool :=
  match c with RemoveVote _ _ => true | _ => false end.
Definition isUnlock (c : Call) : bool :=
  match c with Unlock _ _ => true | _ => false end.

(** [convictionVoting.votingFor] values.  [castVotes] lists the referendum
    indices of [casting.votes] in the order the chain returns them (the
    vote itself is never inspected); [prior] is the [PriorLock] tuple as the
    scripts probe it: possibly missing, with [prior[0]] the unlock block and
    [prior[1]] the locked amount. *)
Inductive Voting : Type :=
| Delegating (target : string) (conviction : string) (balance : Z)
| Casting (castVotes : list Z) (prior : option (list Z)).

(** A dispatch error is either a module error, which the registry decodes,
    or something else, of which the scripts only take [toString()]. *)
Record ModuleError := { me_index : Z; me_error : Z }.

Inductive DispatchError : Type :=
| IsModule (asModule : ModuleError)
| NotModule (repr : string).

Record MetaError := { me_section : string; me_name : string; me_docs : list string }.

(** The part of [api] the monitors use: [api.registry.findMetaError]. *)
Record Api := { findMetaError : ModuleError -> MetaError }.

(** [ExtrinsicStatus]; the hashes are kept as their hex strings. *)
Inductive Status : Type :=
| Future | Ready | Broadcast
| InBlock (hash : string)
| Retracted (hash : string)
| FinalityTimeout (hash : string)
| Finalized (hash : string)
| Usurped (hash : string)
| Dropped | Invalid.

(** Events attached to a notification, decoded as far as [delegate.js]
    probes them: [system.ExtrinsicFailed] with its [data[0]], or any other
    [section.method]. *)
Inductive Event : Type :=
| ExtrinsicFailed (error : DispatchError)
| OtherEvent (section method : string).

(** The argument of the [signAndSend] callback. *)
Record Notification := {
  status : Status;
  events : list Event;
  dispatchError : option DispatchError
}.

(** What can reach one submission, stamped with the milliseconds elapsed
    since [signAndSend] was called: a status notification, the fulfilment
    of the promise [signAndSend] returns (its value is the unsubscribe
    function), or its rejection. *)
Inductive Incoming : Type :=
| Notify (n : Notification)
| SendOk
| SendErr (msg : string).

Definition Trace := list (Z * Incoming).

(** The errors the monitors reject with, by creation site; [message] is the
    [message] of the JavaScript [Error]. *)
Inductive TxError : Type :=
| DispatchModule (decoded : MetaError)
| DispatchOther (repr : string)
| TxDropped | TxInvalid | TxUsurped | TxTimeout
| SendFailure (msg : string).

(** [docs.join(' ')] *)
Fixpoint join (sep : string) (l : list string) : string :=
  match l with
  | [] => EmptyString
  | [s] => s
  | s :: rest => s +:+ sep +:+ join sep rest
  end.

Definition message (e : TxError) : string :=
  match e with
  | DispatchModule d => me_section d +:+ "." +:+ me_name d +:+ ": " +:+ join " " (me_docs d)
  | DispatchOther s => s
  | TxDropped => "Transaction was dropped"
  | TxInvalid => "Transaction is invalid"
  | TxUsurped => "Transaction was usurped"
  | TxTimeout => "Transaction timeout - no response after 2 minutes"
  | SendFailure m => m
  end.

(** The rejection built from a dispatch error, the same in both scripts:
    [isModule ? findMetaError(asModule) : toString()]. *)
Definition decodeDispatch (api : Api) (e : DispatchError) : TxError :=
  match e with
  | IsModule m => DispatchModule (findMetaError api m)
  | NotModule s => DispatchOther s
  end.

(** A promise settles once: later [resolve]/[reject] calls do nothing. *)
Inductive Promise : Type :=
| Pending
| Fulfilled
| Rejected (e : TxError).

Definition resolve (p : Promise) : Promise :=
  match p with Pending => Fulfilled | _ => p end.

Definition reject (e : TxError) (p : Promise) : Promise :=
  match p with Pending => Rejected e | _ => p end.

End Chain.

(* ===================================================================== *)
(** * Tables and helpers shared by the scripts                            *)
(* ===================================================================== *)

Module Common.

(** [TRACK_NAMES], the same object literal in the three scripts. *)
Definition TRACK_NAMES : gmap Z string :=
  list_to_map
    [ (0, "Root"); (1, "Whitelisted Caller"); (2, "Staking Admin");
      (10, "Treasurer"); (11, "Lease Admin"); (12, "Fellowship Admin");
      (13, "General Admin"); (14, "Auction Admin");
      (15, "Referendum Canceller"); (20, "Referendum Killer");
      (21, "Small Tipper"); (30, "Big Tipper"); (31, "Small Spender");
      (32, "Medium Spender"); (33, "Big Spender"); (34, "Wish For Change") ].

(** [TRACK_NAMES[trackId] || dflt] *)
Definition trackNameOr (dflt : string) (trackId : Z) : string :=
  default dflt (TRACK_NAMES !! trackId).

(** [array.slice(i, j)] for [0 <= i <= j]. *)
Definition slice {A} (array : list A) (i j : nat) : list A :=
  take (j - i) (drop i array).

(** The chunking loop, with [fuel] bounding the number of iterations:

    [for (let i = 0; i < array.length; i += size)
       chunks.push(array.slice(i, i + size));]

    With [size = 0] and a non-empty array the JavaScript loop never ends;
    the model then runs out of fuel and yields [None]. *)
Fixpoint chunkLoop {A} (fuel : nat) (array : list A) (size i : nat)
    (chunks : list (list A)) : option (list (list A)) :=
  if (i <? length array)%nat then
    match fuel with
    | O => None
    | S fuel' =>
        chunkLoop fuel' array size (i + size) (chunks ++ [slice array i (i + size)])
    end
  else Some chunks.

Definition chunkArray {A} (array : list A) (size : nat) : option (list (list A)) :=
  chunkLoop (length array) array size 0 [].

(** A JavaScript [Set] of track ids, in insertion order. *)
Definition Set_add (s : list Z) (x : Z) : list Z :=
  if bool_decide (x ∈ s) then s else s ++ [x].

(** A JavaScript [Map] keyed by track id, in insertion order: [has],
    [set] (in place when the key is present, appended otherwise) and the
    in-place update of the object [get] returns. *)
Definition Map_has {V} (m : list (Z * V)) (k : Z) : bool :=
  bool_decide (k ∈ map fst m).

Definition Map_alter {V} (f : V -> V) (k : Z) (m : list (Z * V)) : list (Z * V) :=
  map (fun kv => if bool_decide (kv.1 = k) then (kv.1, f kv.2) else kv) m.

Definition Map_set {V} (m : list (Z * V)) (k : Z) (v : V) : list (Z * V) :=
  if Map_has m k then Map_alter (fun _ => v) k m else m ++ [(k, v)].

(** [s.toLowerCase()] on ASCII letters. *)
Definition lowerAscii (c : Ascii.ascii) : Ascii.ascii :=
  let n := Ascii.nat_of_ascii c in
  if ((65 <=? n) && (n <=? 90))%nat then Ascii.ascii_of_nat (n + 32) else c.

Fixpoint toLowerCase (s : string) : string :=
  match s with
  | EmptyString => EmptyString
  | String c rest => String (lowerAscii c) (toLowerCase rest)
  end.

(** How a run of a script ends: the process exits with a code, or the
    script waits forever on a promise nobody settles. *)
Inductive ProcessEnd : Type :=
| ExitCode (code : Z)
| NeverEnds.

(** Reading [obj[key]] on an object literal used as a table: an own entry,
    a property inherited from [Object.prototype] (a function or an object,
    hence truthy), or [undefined]. *)
Definition objectPrototypeNames : list string :=
  [ "constructor"; "__defineGetter__"; "__defineSetter__"; "hasOwnProperty";
    "__lookupGetter__"; "__lookupSetter__"; "isPrototypeOf";
    "propertyIsEnumerable"; "toString"; "valueOf"; "__proto__";
    "toLocaleString" ].

Inductive Property (V : Type) : Type :=
| Own (v : V)
| Inherited
| Undefined.
Arguments Own {V} v.
Arguments Inherited {V}.
Arguments Undefined {V}.

Definition getProp {V} (obj : gmap string V) (key : string) : Property V :=
  match obj !! key with
  | Some v => Own v
  | None => if bool_decide (key ∈ objectPrototypeNames) then Inherited else Undefined
  end.

(** ** Command-line words *)

(** JavaScript truthiness of [args[i]]: [undefined] and [''] are falsy. *)
Definition truthy (o : option string) : bool :=
  match o with
  | Some s => negb (bool_decide (s = EmptyString))
  | None => false
  end.

(** [args.includes(x)] *)
Definition includes (args : list string) (x : string) : bool :=
  bool_decide (x ∈ args).

(** [args.indexOf(x)]; [None] stands for [-1]. *)
Fixpoint indexOf (args : list string) (x : string) : option nat :=
  match args with
  | [] => None
  | a :: rest => if bool_decide (a = x) then Some 0%nat else S <$> indexOf rest x
  end.

(** [s.startsWith(p)] *)
Definition startsWith (s p : string) : bool := String.prefix p s.

(** ** Text by code unit

    Where a script trims or cuts a text character by character, the text
    is kept as JavaScript has it: the list of its UTF-16 code units. *)

(** The code units [trim] removes: the white space and line terminators of
    ECMAScript (TAB, LF, VT, FF, CR, SP, NBSP, the space separators of
    Unicode, LS, PS and the byte order mark). *)
Definition isWhiteSpace (u : N) : bool :=
  ((9 <=? u) && (u <=? 13) || (u =? 32) || (u =? 160) || (u =? 5760)
   || (8192 <=? u) && (u <=? 8202) || (u =? 8232) || (u =? 8233)
   || (u =? 8239) || (u =? 8287) || (u =? 12288) || (u =? 65279))%N.

Fixpoint trimStart (s : list N) : list N :=
  match s with
  | u :: rest => if isWhiteSpace u then trimStart rest else s
  | [] => []
  end.

Definition trimEnd (s : list N) : list N := rev (trimStart (rev s)).

(** [s.trim()] *)
Definition trim (s : list N) : list N := trimEnd (trimStart s).

End Common.

(* ===================================================================== *)
(** * JavaScript numbers: IEEE 754 binary64                               *)
(* ===================================================================== *)

Module Float64.

Definition prec : Z := 53.
Definition emax : Z := 1024.

(** The double nearest to an integer (exact below [2^53]). *)
Definition ofZ (z : Z) : spec_float := binary_normalize prec emax z 0 false.

Definition mul : spec_float -> spec_float -> spec_float := SFmul prec emax.
Definition div : spec_float -> spec_float -> spec_float := SFdiv prec emax.

(** [10 ** k]: exact for the exponents the network tables hold. *)
Definition pow10 (k : Z) : spec_float := ofZ (10 ^ k).

(** The double a decimal literal denotes, as [parseFloat] returns it:
    [digits] followed by a point before the last [fractionDigits] digits,
    rounded once to nearest-even (both operands of the division are exact
    as long as [digits < 2^53] and [fractionDigits <= 22]). *)
Definition ofDecimal (digits : Z) (fractionDigits : Z) : spec_float :=
  div (ofZ digits) (pow10 fractionDigits).

(** [BigInt(Math.floor(x))]: [None] stands for the [RangeError] that
    [BigInt] throws on [NaN] and the infinities. *)
Definition floorToBigInt (x : spec_float) : option Z :=
  match x with
  | S754_zero _ => Some 0
  | S754_finite s m e =>
      let v := if s then Z.neg m else Z.pos m in
      Some (if bool_decide (0 <= e) then v * 2 ^ e else v `div` 2 ^ (- e))
  | S754_infinity _ | S754_nan => None
  end.

(** The integer a number is, when it is one ([-0] is [0]); [None] for a
    fraction, for [NaN] and for the infinities. *)
Definition asInteger (x : spec_float) : option Z :=
  match x with
  | S754_zero _ => Some 0
  | S754_finite s m e =>
      let v := if s then Z.neg m else Z.pos m in
      if bool_decide (0 <= e) then Some (v * 2 ^ e)
      else if bool_decide (Z.pos m `mod` 2 ^ (- e) = 0) then Some (v `div` 2 ^ (- e))
      else None
  | S754_infinity _ | S754_nan => None
  end.

End Float64.

(* ===================================================================== *)
(** * governance-cleanup.js                                               *)
(* ===================================================================== *)

Module Cleanup.
Import Chain Common.

Record NetworkConfig := {
  name : string;
  endpoint : string;
  ss58Format : Z;
  maxTracksPerBatch : nat;
  decimals : Z;
  symbol : string
}.

Definition NETWORKS : gmap string NetworkConfig :=
  list_to_map
    [ ("polkadot",
       {| name := "Polkadot Asset Hub";
          endpoint := "wss://sys.ibp.network:443/asset-hub-polkadot";
          ss58Format := 0; maxTracksPerBatch := 4; decimals := 10;
          symbol := "DOT" |});
      ("kusama",
       {| name := "Kusama Asset Hub";
          endpoint := "wss://sys.ibp.network:443/asset-hub-kusama";
          ss58Format := 2; maxTracksPerBatch := 4; decimals := 12;
          symbol := "KSM" |}) ].

(** ** [getVotingInfo]

    Balances and amounts are the decimal strings of the chain's unsigned
    integers in the script; the model keeps the integers they denote, so
    that [amount !== '0'] reads [amount ≠ 0]. *)

Record DelegationInfo := {
  d_trackId : Z; d_trackName : string; d_target : string;
  d_conviction : string; d_balance : Z
}.

Record VoteInfo := { v_trackId : Z; v_trackName : string; v_refIndex : Z }.

Record PriorLock := {
  l_trackId : Z; l_trackName : string;
  unlockBlock : Z; amount : Z;
  isExpired : bool; blocksRemaining : Z
}.

Record LockedTrack := { lt_trackId : Z; lt_amount : Z }.

Record VotingInfo := {
  delegations : list DelegationInfo;
  votes : list VoteInfo;
  priorLocks : list PriorLock;
  lockedTracks : list LockedTrack;
  currentBlock : Z
}.

(** The three arrays the loop over [votingEntries] fills. *)
Definition Scan : Type :=
  list DelegationInfo * list VoteInfo * list PriorLock.

(** The [if (prior && prior.length >= 2)] block. *)
Definition scanPrior (currentBlock trackId : Z) (trackName : string)
    (prior : option (list Z)) : list PriorLock :=
  match prior with
  | Some (unlockBlock :: amount :: _) =>
      if bool_decide (unlockBlock > 0) && negb (bool_decide (amount = 0)) then
        [ {| l_trackId := trackId; l_trackName := trackName;
             unlockBlock := unlockBlock; amount := amount;
             isExpired := bool_decide (currentBlock >= unlockBlock);
             blocksRemaining := Z.max 0 (unlockBlock - currentBlock) |} ]
      else []
  | _ => []
  end.

(** One iteration of [for (const [key, voting] of votingEntries)]. *)
Definition scanEntry (currentBlock : Z) (acc : Scan) (entry : Z * Voting) : Scan :=
  let '(delegations, votes, priorLocks) := acc in
  let trackId := entry.1 in
  let trackName := trackNameOr ("Track " +:+ pretty trackId) trackId in
  match entry.2 with
  | Delegating target conviction balance =>
      (delegations ++
         [ {| d_trackId := trackId; d_trackName := trackName; d_target := target;
              d_conviction := conviction; d_balance := balance |} ],
       votes, priorLocks)
  | Casting castVotes prior =>
      (delegations,
       votes ++ map (fun refIndex =>
                       {| v_trackId := trackId; v_trackName := trackName;
                          v_refIndex := refIndex |}) castVotes,
       priorLocks ++ scanPrior currentBlock trackId trackName prior)
  end.

(** [votingEntries], the block number of [getHeader()] and [classLocksFor]
    are what the chain answers. *)
Definition getVotingInfo (votingEntries : list (Z * Voting)) (currentBlock : Z)
    (classLocks : list (Z * Z)) : VotingInfo :=
  let '(delegations, votes, priorLocks) :=
    fold_left (scanEntry currentBlock) votingEntries ([], [], []) in
  {| delegations := delegations; votes := votes; priorLocks := priorLocks;
     lockedTracks := map (fun l => {| lt_trackId := l.1; lt_amount := l.2 |}) classLocks;
     currentBlock := currentBlock |}.

(** ** [buildCleanupCalls] *)

Record CallItem := { call : Call; description : string }.

Record TrackData := { delegated : bool; td_votes : list Z }.

Definition ensureTrack (trackData : list (Z * TrackData)) (trackId : Z) :=
  if Map_has trackData trackId then trackData
  else Map_set trackData trackId {| delegated := false; td_votes := [] |}.

(** [for (const del of delegations) ...] *)
Definition addDelegation (trackData : list (Z * TrackData)) (del : DelegationInfo) :=
  Map_alter (fun data => {| delegated := true; td_votes := td_votes data |})
    (d_trackId del) (ensureTrack trackData (d_trackId del)).

(** [for (const vote of votes) ...] *)
Definition addVote (trackData : list (Z * TrackData)) (vote : VoteInfo) :=
  Map_alter (fun data => {| delegated := delegated data;
                            td_votes := td_votes data ++ [v_refIndex vote] |})
    (v_trackId vote) (ensureTrack trackData (v_trackId vote)).

Definition groupByTrack (delegations : list DelegationInfo) (votes : list VoteInfo)
    : list (Z * TrackData) :=
  fold_left addVote votes (fold_left addDelegation delegations []).

Definition undelegateItem (trackId : Z) : CallItem :=
  {| call := Undelegate trackId;
     description := "Undelegate from track " +:+ pretty trackId +:+ " ("
                      +:+ trackNameOr "Unknown" trackId +:+ ")" |}.

Definition removeVoteItem (trackId refIndex : Z) : CallItem :=
  {| call := RemoveVote trackId refIndex;
     description := "Remove vote on referendum #" +:+ pretty refIndex
                      +:+ " (track " +:+ pretty trackId +:+ ")" |}.

Definition unlockItem (account : string) (trackId : Z) : CallItem :=
  {| call := Unlock trackId account;
     description := "Unlock expired lock on track " +:+ pretty trackId +:+ " ("
                      +:+ trackNameOr "Unknown" trackId +:+ ")" |}.

(** [for (const lock of priorLocks) if (lock.isExpired) tracksToUnlock.add(...)] *)
Definition tracksToUnlock (priorLocks : list PriorLock) : list Z :=
  fold_left (fun s lock => if isExpired lock then Set_add s (l_trackId lock) else s)
    priorLocks [].

(** The [api] argument of the script only provides the call constructors,
    which are the constructors of [Chain.Call] here. *)
Definition buildCleanupCalls (delegations : list DelegationInfo)
    (votes : list VoteInfo) (priorLocks : list PriorLock) (account : string)
    (unlockOnly : bool) : list CallItem :=
  let calls :=
    if unlockOnly then []
    else
      let trackData := groupByTrack delegations votes in
      (* First: all undelegates *)
      flat_map (fun kv => if delegated kv.2 then [undelegateItem kv.1] else []) trackData
      (* Second: all vote removals *)
      ++ flat_map (fun kv => map (removeVoteItem kv.1) (td_votes kv.2)) trackData in
  (* Third: unlock expired locks *)
  calls ++ map (unlockItem account) (tracksToUnlock priorLocks).

(** ** [submitBatchViaProxy]

    The promise the script awaits is settled by the [signAndSend] callback
    alone: there is no timer, the statuses other than [InBlock] and
    [Finalized] are not looked at, and [dispatchError] is read on a
    [Finalized] notification only.  The promise [signAndSend] itself
    returns is dropped, so [SendOk] and [SendErr] leave the awaited promise
    as it is.  Line breaks that only space the output are left out of the
    recorded console lines. *)

Record Mon := { promise : Promise; log : list string }.

Definition onStatus (api : Api) (m : Mon) (n : Notification) : Mon :=
  let m :=
    match status n with
    | InBlock hash =>
        {| promise := promise m;
           log := log m ++ ["  ✓ Included in block: " +:+ hash] |}
    | _ => m
    end in
  match status n with
  | Finalized hash =>
      match dispatchError n with
      | Some e =>
          {| promise := reject (decodeDispatch api e) (promise m); log := log m |}
      | None =>
          {| promise := resolve (promise m);
             log := log m ++ ["  ✓ Finalized in block: " +:+ hash] |}
      end
  | _ => m
  end.

Definition deliver (api : Api) (m : Mon) (ev : Z * Incoming) : Mon :=
  match ev.2 with
  | Notify n => onStatus api m n
  | SendOk | SendErr _ => m
  end.

Definition monitor (api : Api) (trace : Trace) : Mon :=
  fold_left (deliver api) trace {| promise := Pending; log := [] |}.

(** How the call of [submitBatchViaProxy] ends. *)
Inductive Completion : Type :=
| Returned
| Threw (e : TxError)
| Hangs.

Record SubmitRun := {
  completion : Completion;
  submitted : list Extrinsic;
  console : list string
}.

Definition say (r : SubmitRun) (lines : list string) : SubmitRun :=
  {| completion := completion r; submitted := submitted r;
     console := console r ++ lines |}.

(** The [for (let i = 0; i < batches.length; i++)] loop; [responses i] is
    what reaches the submission of batch [i]; [total] is [batches.length]. *)
Fixpoint submitLoop (api : Api) (targetAccount : string) (dryRun : bool)
    (responses : nat -> Trace) (total i : nat) (batches : list (list CallItem))
    (r : SubmitRun) : SubmitRun :=
  match batches with
  | [] => r
  | batch :: rest =>
      let r := say r
        (("--- Batch " +:+ pretty (i + 1)%nat +:+ "/" +:+ pretty total +:+ " ("
            +:+ pretty (length batch) +:+ " calls) ---")
         :: map (fun item => "  • " +:+ description item) batch) in
      if dryRun then
        submitLoop api targetAccount dryRun responses total (S i) rest
          (say r ["  [DRY RUN] Would submit this batch"])
      else
        let proxyCall := ProxyBatchAll targetAccount (map call batch) in
        let r := say r ["  Submitting transaction..."] in
        let m := monitor api (responses i) in
        let r := {| completion := completion r;
                    submitted := submitted r ++ [proxyCall];
                    console := console r ++ log m |} in
        match promise m with
        | Fulfilled =>
            let r := if bool_decide (i < total - 1)%nat
                     then say r ["  Waiting 6 seconds before next batch..."]
                     else r in
            submitLoop api targetAccount dryRun responses total (S i) rest r
        | Rejected error =>
            (* catch (error) { console.error(...); throw error; } *)
            {| completion := Threw error; submitted := submitted r;
               console := console r ++ ["  ✗ Transaction failed: " +:+ message error] |}
        | Pending =>
            {| completion := Hangs; submitted := submitted r; console := console r |}
        end
  end.

Definition submitBatchViaProxy (api : Api) (targetAccount : string)
    (calls : list CallItem) (networkConfig : NetworkConfig) (dryRun : bool)
    (responses : nat -> Trace) : SubmitRun :=
  let maxCallsPerBatch := maxTracksPerBatch networkConfig in
  match chunkArray calls maxCallsPerBatch with
  | None => {| completion := Hangs; submitted := []; console := [] |}
  | Some batches =>
      submitLoop api targetAccount dryRun responses (length batches) 0 batches
        {| completion := Returned; submitted := [];
           console := ["Will submit " +:+ pretty (length batches)
                         +:+ " batch transaction(s)..."] |}
  end.

(** ** [main]

    [config] is what [parseArgs] returns.  The model of [main] records the
    plan, the extrinsics sent and how the process ends; of the console
    output it keeps the lines of [submitBatchViaProxy] and the closing
    ones (the display of the current state is not modelled). *)

Record Config := {
  network : option string;
  account : option string;
  keyfile : option string;
  useMnemonic : bool;
  dryRun : bool;
  unlockOnly : bool
}.

(** What the outside answers during one run. *)
Record World := {
  keyfileExists : bool;             (* fs.existsSync(config.keyfile) *)
  votingEntries : list (Z * Voting); (* convictionVoting.votingFor.entries *)
  headBlock : Z;                    (* getHeader().number *)
  classLocks : list (Z * Z);        (* convictionVoting.classLocksFor *)
  answer : string;                  (* reply to 'Proceed? (yes/no): ' *)
  responses : nat -> Trace          (* what reaches each submission *)
}.

Record MainRun := {
  ending : ProcessEnd;
  connected : bool;
  plan : list CallItem;
  sent : list Extrinsic;
  output : list string
}.

(** JavaScript truthiness of an optional command-line string. *)
Definition given (o : option string) : bool :=
  match o with
  | Some s => negb (bool_decide (s = EmptyString))
  | None => false
  end.

(** The three checks at the head of [main]: each failure prints an error
    and calls [process.exit(1)]. *)
Definition argumentsAccepted (config : Config) : bool :=
  given (network config)
  && match getProp NETWORKS (default EmptyString (network config)) with
     | Undefined => false
     | _ => true
     end
  && given (account config)
  && (given (keyfile config) || useMnemonic config).

(** [main] from [const networkConfig = NETWORKS[config.network]] on, for a
    network of the table.  An exception that escapes [main] reaches
    [main().catch], which prints it and calls [process.exit(1)]. *)
Definition mainWith (api : Api) (networkConfig : NetworkConfig) (config : Config)
    (w : World) : MainRun :=
  let targetAccount := default EmptyString (account config) in
  (* getMnemonic throws before the connection is opened *)
  if given (keyfile config) && negb (keyfileExists w) then
    {| ending := ExitCode 1; connected := false; plan := []; sent := [];
       output := ["Fatal error: Keyfile not found: " +:+ default EmptyString (keyfile config)] |}
  else if negb (given (keyfile config)) && negb (useMnemonic config) then
    {| ending := ExitCode 1; connected := false; plan := []; sent := [];
       output := ["Fatal error: Must specify --keyfile or --mnemonic"] |}
  else
    let info := getVotingInfo (votingEntries w) (headBlock w) (classLocks w) in
    let calls := buildCleanupCalls (delegations info) (votes info) (priorLocks info)
                   targetAccount (unlockOnly config) in
    if bool_decide (length calls = 0%nat) then
      {| ending := ExitCode 0; connected := true; plan := calls; sent := [];
         output := ["  Nothing to do!"] |}
    else if negb (dryRun config)
            && negb (bool_decide (toLowerCase (answer w) = "yes"))
            && negb (bool_decide (toLowerCase (answer w) = "y")) then
      {| ending := ExitCode 0; connected := true; plan := calls; sent := [];
         output := ["Aborted."] |}
    else
      let r := submitBatchViaProxy api targetAccount calls networkConfig
                 (dryRun config) (responses w) in
      match completion r with
      | Returned =>
          {| ending := ExitCode 0; connected := true; plan := calls;
             sent := submitted r; output := console r ++ ["  Complete!"] |}
      | Threw error =>
          {| ending := ExitCode 1; connected := true; plan := calls;
             sent := submitted r;
             output := console r ++ ["Fatal error: " +:+ message error] |}
      | Hangs =>
          {| ending := NeverEnds; connected := true; plan := calls;
             sent := submitted r; output := console r |}
      end.

(** ** [parseArgs] *)

(** [parseArgs] returns the configuration, unless it meets [--help] or
    [-h]: it then prints the help and calls [process.exit(0)]. *)
Inductive CommandLine : Type :=
| HelpShown
| Parsed (config : Config).

Definition emptyConfig : Config :=
  {| network := None; account := None; keyfile := None;
     useMnemonic := false; dryRun := false; unlockOnly := false |}.

Definition setNetwork (v : option string) (c : Config) : Config :=
  {| network := v; account := account c; keyfile := keyfile c;
     useMnemonic := useMnemonic c; dryRun := dryRun c; unlockOnly := unlockOnly c |}.

Definition setAccount (v : option string) (c : Config) : Config :=
  {| network := network c; account := v; keyfile := keyfile c;
     useMnemonic := useMnemonic c; dryRun := dryRun c; unlockOnly := unlockOnly c |}.

Definition setKeyfile (v : option string) (c : Config) : Config :=
  {| network := network c; account := account c; keyfile := v;
     useMnemonic := useMnemonic c; dryRun := dryRun c; unlockOnly := unlockOnly c |}.

Definition setUseMnemonic (c : Config) : Config :=
  {| network := network c; account := account c; keyfile := keyfile c;
     useMnemonic := true; dryRun := dryRun c; unlockOnly := unlockOnly c |}.

Definition setDryRun (c : Config) : Config :=
  {| network := network c; account := account c; keyfile := keyfile c;
     useMnemonic := useMnemonic c; dryRun := true; unlockOnly := unlockOnly c |}.

Definition setUnlockOnly (c : Config) : Config :=
  {| network := network c; account := account c; keyfile := keyfile c;
     useMnemonic := useMnemonic c; dryRun := dryRun c; unlockOnly := true |}.

(** [case a: case b:] of the [switch] on [args[i]]. *)
Definition isOption (arg long short : string) : bool :=
  bool_decide (arg = long) || bool_decide (arg = short).

(** The loop [for (let i = 0; i < args.length; i++) switch (args[i])].
    [args[++i]] takes the next word whatever it is, and is [undefined]
    past the last word; a word that is no [case] of the [switch] is
    skipped. *)
Fixpoint parseLoop (args : list string) (config : Config) : CommandLine :=
  match args with
  | [] => Parsed config
  | arg :: rest =>
      if isOption arg "--network" "-n" then
        match rest with
        | value :: rest => parseLoop rest (setNetwork (Some (toLowerCase value)) config)
        | [] => Parsed (setNetwork None config)
        end
      else if isOption arg "--account" "-a" then
        match rest with
        | value :: rest => parseLoop rest (setAccount (Some value) config)
        | [] => Parsed (setAccount None config)
        end
      else if isOption arg "--keyfile" "-k" then
        match rest with
        | value :: rest => parseLoop rest (setKeyfile (Some value) config)
        | [] => Parsed (setKeyfile None config)
        end
      else if isOption arg "--mnemonic" "-m" then parseLoop rest (setUseMnemonic config)
      else if isOption arg "--dry-run" "-d" then parseLoop rest (setDryRun config)
      else if isOption arg "--unlock-only" "-u" then parseLoop rest (setUnlockOnly config)
      else if isOption arg "--help" "-h" then HelpShown
      else parseLoop rest config
  end.

(** [args] is [process.argv.slice(2)]. *)
Definition parseArgs (args : list string) : CommandLine :=
  parseLoop args emptyConfig.

(** ** [promptMnemonic] and [getMnemonic]

    The mnemonic is text the script cuts and trims: it is kept by code
    unit.  [\n] is 10, [\r] 13, [\u0003] 3 and [\u007F] 127. *)

(** The prompt is reading, or has resolved its promise with the trimmed
    mnemonic (the listener is then removed), or has called
    [process.exit()]. *)
Inductive Prompt : Type :=
| Reading (mnemonic : list N)
| Resolved (mnemonic : list N)
| Exited.

(** The listener [onData]; [char] is the chunk of one [data] event, which
    the listener compares as a whole. *)
Definition onData (p : Prompt) (char : list N) : Prompt :=
  match p with
  | Reading mnemonic =>
      if bool_decide (char = [10%N]) || bool_decide (char = [13%N]) then
        Resolved (trim mnemonic)
      else if bool_decide (char = [3%N]) then Exited
      else if bool_decide (char = [127%N]) then
        (* mnemonic.slice(0, -1) *)
        Reading (take (length mnemonic - 1) mnemonic)
      else Reading (mnemonic ++ char)
  | _ => p
  end.

(** [typed] lists the chunks the terminal delivers, in order. *)
Definition promptMnemonic (typed : list (list N)) : Prompt :=
  fold_left onData typed (Reading []).

(** [content.split('\n')[0]] *)
Fixpoint firstLine (content : list N) : list N :=
  match content with
  | [] => []
  | u :: rest => if bool_decide (u = 10%N) then [] else u :: firstLine rest
  end.

Inductive Mnemonic : Type :=
| Got (mnemonic : list N)
| Throws (msg : string)
| PromptExited
| PromptWaits.

(** [keyfileContent] is what [fs.readFileSync(config.keyfile, 'utf8')]
    returns, [None] when [fs.existsSync] says the file is not there. *)
Definition getMnemonic (config : Config) (keyfileContent : option (list N))
    (typed : list (list N)) : Mnemonic :=
  if given (keyfile config) then
    match keyfileContent with
    | None => Throws ("Keyfile not found: " +:+ default EmptyString (keyfile config))
    | Some content => Got (trim (firstLine content))
    end
  else if useMnemonic config then
    match promptMnemonic typed with
    | Resolved mnemonic => Got mnemonic
    | Exited => PromptExited
    | Reading _ => PromptWaits
    end
  else Throws "Must specify --keyfile or --mnemonic".

(** ** [formatBlocks]

    [blocks] is a difference of block numbers: an integer, on which the
    arithmetic of the function is exact.  [%] is the remainder of the
    truncated division, [Math.floor(x / y)] the floored quotient. *)
Definition formatBlocks (blocks : Z) : string :=
  let seconds := blocks * 6 in
  let days := seconds `div` 86400 in
  let hours := (seconds `rem` 86400) `div` 3600 in
  if bool_decide (days > 0) then
    "~" +:+ pretty days +:+ "d " +:+ pretty hours +:+ "h"
  else if bool_decide (hours > 0) then
    "~" +:+ pretty hours +:+ "h"
  else
    "~" +:+ pretty (seconds `div` 60) +:+ "m".

(** ** [main], from the command line

    The three checks at the head of [main] print an error and call
    [process.exit(1)] before anything else is done.  A network name that
    [NETWORKS] only inherits from [Object.prototype] passes them; the
    script then goes on with an object that is no network configuration,
    which is not modelled. *)
Inductive Run : Type :=
| Help
| Refused (line : string)
| Ran (networkConfig : NetworkConfig) (r : MainRun)
| PrototypeNetwork.

Definition main (api : Api) (args : list string) (w : World) : Run :=
  match parseArgs args with
  | HelpShown => Help
  | Parsed config =>
      let entry := getProp NETWORKS (default EmptyString (network config)) in
      if negb (given (network config))
         || match entry with Undefined => true | _ => false end then
        Refused "Error: Must specify --network (polkadot or kusama)"
      else if negb (given (account config)) then
        Refused "Error: Must specify --account (the account to clean up)"
      else if negb (given (keyfile config)) && negb (useMnemonic config) then
        Refused "Error: Must specify --keyfile or --mnemonic for proxy signing"
      else
        match entry with
        | Own networkConfig => Ran networkConfig (mainWith api networkConfig config w)
        | _ => PrototypeNetwork
        end
  end.

End Cleanup.

(* ===================================================================== *)
(** * delegate.js                                                         *)
(* ===================================================================== *)

Module Delegate.
Import Chain Common.

Record NetworkConfig := {
  name : string;
  endpoint : string;
  decimals : Z;
  symbol : string;
  ss58Format : Z;
  baseLockDays : Z;
  maxTracksPerBatch : nat
}.

Definition NETWORKS : gmap string NetworkConfig :=
  list_to_map
    [ ("kusama",
       {| name := "Kusama Asset Hub";
          endpoint := "wss://sys.ibp.network:443/asset-hub-kusama";
          decimals := 12; symbol := "KSM"; ss58Format := 2;
          baseLockDays := 7; maxTracksPerBatch := 4 |});
      ("polkadot",
       {| name := "Polkadot Asset Hub";
          endpoint := "wss://sys.ibp.network:443/asset-hub-polkadot";
          decimals := 10; symbol := "DOT"; ss58Format := 0;
          baseLockDays := 28; maxTracksPerBatch := 4 |}) ].

Definition ALL_TRACKS : list Z :=
  [0; 1; 2; 10; 11; 12; 13; 14; 15; 20; 21; 30; 31; 32; 33; 34].

Record ConvictionInfo := { multiplier : spec_float; lockMultiplier : Z }.

Definition CONVICTION_MULTIPLIERS : gmap string ConvictionInfo :=
  list_to_map
    [ ("None", {| multiplier := Float64.ofDecimal 1 1; lockMultiplier := 0 |});
      ("Locked1x", {| multiplier := Float64.ofZ 1; lockMultiplier := 1 |});
      ("Locked2x", {| multiplier := Float64.ofZ 2; lockMultiplier := 2 |});
      ("Locked3x", {| multiplier := Float64.ofZ 3; lockMultiplier := 4 |});
      ("Locked4x", {| multiplier := Float64.ofZ 4; lockMultiplier := 8 |});
      ("Locked5x", {| multiplier := Float64.ofZ 5; lockMultiplier := 16 |});
      ("Locked6x", {| multiplier := Float64.ofZ 6; lockMultiplier := 32 |}) ].

(** The command line after the parsing at the head of [main]:
    [balanceAmount] is [parseFloat(args[3])], [networkName] the lower-cased
    value of [--network] (['kusama'] without it), [trackIndices] the
    [parseInt] of every [--track] value.  Command lines with fewer than five
    arguments or with [--help] print the usage and exit with code 0; they
    are not values of this record. *)
Record Args := {
  account : string;
  keyfile : string;
  delegateTo : string;
  balanceAmount : spec_float;
  conviction : string;
  dryRun : bool;
  networkName : string;
  trackIndices : list Z
}.

(** [let tracks = ALL_TRACKS; if (trackIndices.length > 0) tracks = trackIndices;] *)
Definition tracksOf (a : Args) : list Z :=
  if bool_decide (0 < length (trackIndices a))%nat then trackIndices a else ALL_TRACKS.

(** [convictionInfo.lockMultiplier * network.baseLockDays] *)
Definition lockDays (c : ConvictionInfo) (network : NetworkConfig) : Z :=
  lockMultiplier c * baseLockDays network.

(** [BigInt(Math.floor(balanceAmount * (10 ** network.decimals)))] *)
Definition balancePlanck (balanceAmount : spec_float) (network : NetworkConfig)
    : option Z :=
  Float64.floorToBigInt
    (Float64.mul balanceAmount (Float64.pow10 (decimals network))).

(** The entries of [calls]; their [description], a display string that
    prints the floating-point amount, is not modelled. *)
Record CallItem := { call : Call; trackId : Z }.

(** [tracks.map(trackId => ({ call: api.tx.convictionVoting.delegate(...), ... }))] *)
Definition buildDelegateCalls (tracks : list Z) (delegateTo conviction : string)
    (balancePlanck : Z) : list CallItem :=
  map (fun trackId =>
         {| call := Delegate trackId delegateTo conviction balancePlanck;
            trackId := trackId |}) tracks.

(** ** The submission promise of one batch *)

Definition TIMEOUT_MS : Z := 120000.

(** [timerArmed]: the [setTimeout] has neither fired nor been cleared;
    [unsub]: the [.then] has stored the unsubscribe function;
    [subscribed]: the callback is still being called. *)
Record Mon := {
  promise : Promise;
  timerArmed : bool;
  unsub : bool;
  subscribed : bool;
  log : list string
}.

Definition initial : Mon :=
  {| promise := Pending; timerArmed := true; unsub := false;
     subscribed := true; log := [] |}.

Definition clearTimeout (m : Mon) : Mon :=
  {| promise := promise m; timerArmed := false; unsub := unsub m;
     subscribed := subscribed m; log := log m |}.

Definition settle (f : Promise -> Promise) (m : Mon) : Mon :=
  {| promise := f (promise m); timerArmed := timerArmed m; unsub := unsub m;
     subscribed := subscribed m; log := log m |}.

Definition say (lines : list string) (m : Mon) : Mon :=
  {| promise := promise m; timerArmed := timerArmed m; unsub := unsub m;
     subscribed := subscribed m; log := log m ++ lines |}.

(** The body of the [setTimeout] callback. *)
Definition onTimeout (m : Mon) : Mon :=
  settle (reject TxTimeout)
    {| promise := promise m; timerArmed := false; unsub := unsub m;
       subscribed := if unsub m then false else subscribed m; log := log m |}.

(** The lines printed for the events of an [InBlock] notification. *)
Definition eventLines (api : Api) (ev : Event) : list string :=
  match ev with
  | ExtrinsicFailed error =>
      [ "  ERROR: " +:+ message (decodeDispatch api error) ]
  | OtherEvent section method =>
      if bool_decide (section = "convictionVoting") && bool_decide (method = "Delegated")
      then [ "  SUCCESS: " +:+ section +:+ "." +:+ method ]
      else []
  end.

(** The [signAndSend] callback. *)
Definition onStatus (api : Api) (m : Mon) (n : Notification) : Mon :=
  match dispatchError n with
  | Some e => settle (reject (decodeDispatch api e)) (clearTimeout m)
  | None =>
      match status n with
      | Dropped => settle (reject TxDropped) (clearTimeout m)
      | Invalid => settle (reject TxInvalid) (clearTimeout m)
      | Usurped _ => settle (reject TxUsurped) (clearTimeout m)
      | InBlock hash =>
          say (("  In block: " +:+ hash) :: flat_map (eventLines api) (events n)) m
      | Finalized hash =>
          settle resolve (say ["  Finalized: " +:+ hash] (clearTimeout m))
      | _ => m
      end
  end.

(** Time reaches [t]: the timer callback runs if the timer is still armed
    and the deadline has been reached. *)
Definition tick (m : Mon) (t : Z) : Mon :=
  if timerArmed m && bool_decide (TIMEOUT_MS <= t) then onTimeout m else m.

(** One arrival: the callback, the [.then] or the [.catch] of [signAndSend]. *)
Definition arrive (api : Api) (m : Mon) (inc : Incoming) : Mon :=
  match inc with
  | Notify n => if subscribed m then onStatus api m n else m
  | SendOk =>
      {| promise := promise m; timerArmed := timerArmed m; unsub := true;
         subscribed := subscribed m; log := log m |}
  | SendErr msg => settle (reject (SendFailure msg)) (clearTimeout m)
  end.

(** The arrival [ev.2] at time [ev.1]; a timer due by then has run first. *)
Definition deliver (api : Api) (m : Mon) (ev : Z * Incoming) : Mon :=
  arrive api (tick m ev.1) ev.2.

Definition deliverAll (api : Api) (m : Mon) (trace : Trace) : Mon :=
  fold_left (deliver api) trace m.

(** Time goes on after the last arrival: a timer that is still armed fires. *)
Definition expire (m : Mon) : Mon :=
  if timerArmed m then onTimeout m else m.

Definition monitor (api : Api) (trace : Trace) : Mon :=
  expire (deliverAll api initial trace).

(** ** The batch loop of [main] *)

Record SubmitRun := {
  awaited : list Promise;
  submitted : list Extrinsic;
  console : list string
}.

(** [for (let i = 0; i < batches.length; i++)]: the [catch] prints the
    error and the loop goes on. *)
Fixpoint submitLoop (api : Api) (account : string) (responses : nat -> Trace)
    (total i : nat) (batches : list (list CallItem)) (r : SubmitRun) : SubmitRun :=
  match batches with
  | [] => r
  | batch :: rest =>
      let header := "--- Batch " +:+ pretty (i + 1)%nat +:+ "/" +:+ pretty total
                      +:+ " (" +:+ pretty (length batch) +:+ " tracks) ---" in
      let proxyCall := ProxyBatchAll account (map call batch) in
      let m := monitor api (responses i) in
      let caught :=
        match promise m with
        | Rejected error => ["  Transaction error: " +:+ message error]
        | _ => []
        end in
      let waiting :=
        if bool_decide (i < total - 1)%nat
        then ["  Waiting 6 seconds before next batch..."] else [] in
      submitLoop api account responses total (S i) rest
        {| awaited := awaited r ++ [promise m];
           submitted := submitted r ++ [proxyCall];
           console := console r ++ [header] ++ log m ++ caught ++ waiting |}
  end.

(** ** [main] *)

Record World := {
  keyfileExists : bool;    (* fs.existsSync(keyfile) *)
  answer : string;         (* reply to 'Type "yes" to proceed: ' *)
  responses : nat -> Trace (* what reaches each submission *)
}.

Record MainRun := {
  ending : ProcessEnd;
  connected : bool;
  calls : list CallItem;
  outcomes : list Promise;
  sent : list Extrinsic;
  output : list string
}.

Definition stop (code : Z) (conn : bool) (lines : list string) : MainRun :=
  {| ending := ExitCode code; connected := conn; calls := []; outcomes := [];
     sent := []; output := lines |}.

(** [main] prints a banner and the account state, which the model leaves
    out; it records the validation messages, the batch loop and how the
    process ends.  [main().catch(console.error)] prints an escaping
    exception and lets the process end with code 0. *)
Definition main (api : Api) (a : Args) (w : World) : MainRun :=
  match getProp NETWORKS (networkName a) with
  | Undefined =>
      stop 1 false ["Invalid network: " +:+ networkName a +:+ ". Use 'kusama' or 'polkadot'"]
  | network =>
      match getProp CONVICTION_MULTIPLIERS (conviction a) with
      | Undefined =>
          stop 1 false
            [ "Invalid conviction: " +:+ conviction a;
              "Valid options: None, Locked1x, Locked2x, Locked3x, Locked4x, Locked5x, Locked6x" ]
      | _ =>
          match network with
          | Own network =>
              match balancePlanck (balanceAmount a) network with
              | None => stop 0 false ["RangeError"]
              | Some planck =>
                  (* the connection is opened here *)
                  if negb (keyfileExists w) then
                    stop 1 true ["Keyfile not found: " +:+ keyfile a]
                  else
                    let calls := buildDelegateCalls (tracksOf a) (delegateTo a)
                                   (conviction a) planck in
                    if dryRun a then
                      {| ending := ExitCode 0; connected := true; calls := calls;
                         outcomes := []; sent := [];
                         output := ["[DRY RUN] Would submit batch of delegate calls"] |}
                    else if negb (bool_decide (toLowerCase (answer w) = "yes")) then
                      {| ending := ExitCode 0; connected := true; calls := calls;
                         outcomes := []; sent := []; output := ["Aborted."] |}
                    else
                      match chunkArray calls (maxTracksPerBatch network) with
                      | None =>
                          {| ending := NeverEnds; connected := true; calls := calls;
                             outcomes := []; sent := []; output := [] |}
                      | Some batches =>
                          let r := submitLoop api (account a) (responses w)
                                     (length batches) 0 batches
                                     {| awaited := []; submitted := [];
                                        console := ["Submitting " +:+ pretty (length batches)
                                                      +:+ " batch(es)..."] |} in
                          {| ending := ExitCode 0; connected := true; calls := calls;
                             outcomes := awaited r; sent := submitted r;
                             output := console r ++ ["Done!"] |}
                      end
              end
          | _ =>
              (* [10 ** undefined] is [NaN], on which [BigInt] throws *)
              stop 0 false ["RangeError"]
          end
      end
  end.

(** ** The command line

    The head of [main], from [process.argv.slice(2)] to the values of
    [Args].  [parseFloat] and [parseInt] are the functions of the
    JavaScript engine. *)

Inductive CommandLine : Type :=
| Usage                (* printUsage(); process.exit(0) *)
| Parsed (a : Args)
| TrackNotInteger.     (* a --track value that parseInt does not read as
                          an integer: the track list then holds a number
                          that is no track id, which is not modelled *)

Section CommandLine.
Variable parseFloat : string -> spec_float.
Variable parseInt : string -> spec_float.

(** [networkIdx !== -1 && args[networkIdx + 1]
       ? args[networkIdx + 1].toLowerCase() : 'kusama'] *)
Definition networkOption (args : list string) : string :=
  match indexOf args "--network" with
  | Some networkIdx =>
      if truthy (args !! S networkIdx)
      then toLowerCase (default EmptyString (args !! S networkIdx))
      else "kusama"
  | None => "kusama"
  end.

(** [args.reduce((acc, arg, i) => { if (arg === '--track' && args[i + 1])
       acc.push(parseInt(args[i + 1])); return acc; }, [])]:
    every word is looked at, the values of the options included. *)
Fixpoint trackOptions (args : list string) : list spec_float :=
  match args with
  | [] => []
  | arg :: rest =>
      (if bool_decide (arg = "--track") && truthy (head rest)
       then [parseInt (default EmptyString (head rest))] else [])
      ++ trackOptions rest
  end.

Definition parseArgs (args : list string) : CommandLine :=
  if bool_decide (length args < 5)%nat || includes args "--help" || includes args "-h"
  then Usage
  else
    match args with
    | account :: keyfile :: delegateTo :: amount :: conviction :: _ =>
        match mapM Float64.asInteger (trackOptions args) with
        | Some trackIndices =>
            Parsed {| account := account; keyfile := keyfile;
                      delegateTo := delegateTo;
                      balanceAmount := parseFloat amount;
                      conviction := conviction;
                      dryRun := includes args "--dry-run";
                      networkName := networkOption args;
                      trackIndices := trackIndices |}
        | None => TrackNotInteger
        end
    | _ => Usage
    end.

End CommandLine.

End Delegate.

(* ===================================================================== *)
(** * check-delegation.js                                                 *)
(* ===================================================================== *)

Module Check.
Import Chain Common.

Record DelegationInfo := {
  trackId : Z; trackName : string; target : string;
  balance : Z; conviction : string
}.

Record VoteInfo := { v_trackId : Z; v_trackName : string; v_refIndex : Z }.

(** The variables the loop over [entries] updates. *)
Record Tally := {
  delegationCount : Z;
  voteCount : Z;
  totalDelegated : Z;
  delegations : list DelegationInfo;
  votes : list VoteInfo
}.

Definition start : Tally :=
  {| delegationCount := 0; voteCount := 0; totalDelegated := 0;
     delegations := []; votes := [] |}.

(** One iteration of [for (const [key, voting] of entries)]. *)
Definition tallyEntry (t : Tally) (entry : Z * Voting) : Tally :=
  let trackId := entry.1 in
  let trackName := trackNameOr ("Track " +:+ pretty trackId) trackId in
  match entry.2 with
  | Delegating target conviction balance =>
      {| delegationCount := delegationCount t + 1;
         voteCount := voteCount t;
         totalDelegated :=
           if bool_decide (balance > totalDelegated t) then balance else totalDelegated t;
         delegations := delegations t ++
           [ {| trackId := trackId; trackName := trackName; target := target;
                balance := balance; conviction := conviction |} ];
         votes := votes t |}
  | Casting castVotes _ =>
      {| delegationCount := delegationCount t;
         voteCount := voteCount t + Z.of_nat (length castVotes);
         totalDelegated := totalDelegated t;
         delegations := delegations t;
         votes := votes t ++
           map (fun refIndex => {| v_trackId := trackId; v_trackName := trackName;
                                   v_refIndex := refIndex |}) castVotes |}
  end.

Definition tally (entries : list (Z * Voting)) : Tally :=
  fold_left tallyEntry entries start.

(** The amount of the summary line [Delegation amount: ...], printed only
    [if (totalDelegated > 0)]; the line shows it divided by
    [10 ** decimals] with four decimals, the model keeps the integer. *)
Definition summaryAmount (entries : list (Z * Voting)) : option Z :=
  let t := tally entries in
  if bool_decide (totalDelegated t > 0) then Some (totalDelegated t) else None.

(** ** The command line and the report *)

Record NetworkConfig := {
  name : string;
  endpoint : string;
  decimals : Z;
  symbol : string
}.

Definition NETWORKS : gmap string NetworkConfig :=
  list_to_map
    [ ("kusama",
       {| name := "Kusama Asset Hub";
          endpoint := "wss://sys.ibp.network:443/asset-hub-kusama";
          decimals := 12; symbol := "KSM" |});
      ("polkadot",
       {| name := "Polkadot Asset Hub";
          endpoint := "wss://sys.ibp.network:443/asset-hub-polkadot";
          decimals := 10; symbol := "DOT" |}) ].

(** [args.find(a => !a.startsWith('--'))] *)
Definition accountArg (args : list string) : option string :=
  List.find (fun a => negb (startsWith a "--")) args.

(** [args.find(a => a.startsWith('--network'))] *)
Definition networkArg (args : list string) : option string :=
  List.find (fun a => startsWith a "--network") args.

(** [networkArg ? args[args.indexOf(networkArg) + 1] : 'kusama'];
    [None] is [undefined]. *)
Definition networkOf (args : list string) : option string :=
  match networkArg args with
  | Some found =>
      match indexOf args found with
      | Some i => args !! S i
      | None => None
      end
  | None => Some "kusama"
  end.

(** [delegations.sort((a, b) => a.trackId - b.trackId)].  The sort of
    JavaScript is stable and the comparator orders by track id: the result
    is the stable sort by track id, computed here by insertion. *)
Fixpoint insertByTrack (d : DelegationInfo) (sorted : list DelegationInfo)
    : list DelegationInfo :=
  match sorted with
  | [] => [d]
  | e :: rest =>
      if bool_decide (trackId d <= trackId e) then d :: sorted
      else e :: insertByTrack d rest
  end.

Definition sortByTrack (delegations : list DelegationInfo) : list DelegationInfo :=
  foldr insertByTrack [] delegations.

(** The [Map] of the display of the votes:
    [if (!byTrack.has(vote.trackId)) byTrack.set(vote.trackId, []);
     byTrack.get(vote.trackId).push(vote.refIndex);] *)
Definition addRef (byTrack : list (Z * list Z)) (vote : VoteInfo) : list (Z * list Z) :=
  Map_alter (fun refs => refs ++ [v_refIndex vote]) (v_trackId vote)
    (if Map_has byTrack (v_trackId vote) then byTrack
     else Map_set byTrack (v_trackId vote) []).

Definition groupVotes (votes : list VoteInfo) : list (Z * list Z) :=
  fold_left addRef votes [].

(** What the script displays, before formatting: one block per element of
    [delegationBlocks] (or [No active delegations.] when there is none),
    one line per element of [voteLines] (or [No direct votes.]), the two
    counters of the summary and the amount of its last line. *)
Record Report := {
  delegationsHeader : Z;               (* Delegations (N tracks): *)
  delegationBlocks : list DelegationInfo;
  votesHeader : Z;                     (* Direct Votes (N): *)
  voteLines : list (Z * list Z);
  tracksDelegated : Z;                 (* Tracks delegated: N *)
  directVotes : Z;                     (* Direct votes: N *)
  delegationAmount : option Z
}.

Definition report (entries : list (Z * Voting)) : Report :=
  let t := tally entries in
  {| delegationsHeader := delegationCount t;
     delegationBlocks := sortByTrack (delegations t);
     votesHeader := voteCount t;
     voteLines := groupVotes (votes t);
     tracksDelegated := delegationCount t;
     directVotes := voteCount t;
     delegationAmount := summaryAmount entries |}.

(** [main]: [votingFor account] is what
    [convictionVoting.votingFor.entries(account)] answers, [None] when the
    call throws (the chain client refuses a text that is no address); the
    exception then reaches [main().catch(console.error)].  A network name
    that [NETWORKS] only inherits from [Object.prototype] passes the
    check; the script then goes on with an object that is no network
    configuration, which is not modelled. *)
Inductive Run : Type :=
| UsageExit                                (* usage line, process.exit(1) *)
| UnknownNetwork (network : option string) (* error line, process.exit(1) *)
| QueryThrows (config : NetworkConfig) (account : string)
| Reported (config : NetworkConfig) (account : string) (shown : Report)
| PrototypeNetwork.

Definition main (args : list string)
    (votingFor : string -> option (list (Z * Voting))) : Run :=
  if truthy (accountArg args) then
    let account := default EmptyString (accountArg args) in
    match networkOf args with
    | None => UnknownNetwork None
    | Some network =>
        match getProp NETWORKS network with
        | Own config =>
            match votingFor account with
            | Some entries => Reported config account (report entries)
            | None => QueryThrows config account
            end
        | Inherited => PrototypeNetwork
        | Undefined => UnknownNetwork (Some network)
        end
    end
  else UsageExit.

End Check.

(** Propositional goals about membership, after rewriting with the
    membership lemmas. *)
Ltac logic := solve [intuition (subst; auto; try congruence)].

(* ===================================================================== *)
(** * Splitting a plan into batches                                       *)
(* ===================================================================== *)

Section Chunks.
Import Common.
Context {A : Type}.
Implicit Types (array : list A) (size i : nat).

Lemma ceil_step (d size : nat) :
  (0 < size)%nat → (0 < d)%nat →
  ((d + size - 1) / size = S ((d - size + size - 1) / size))%nat.
Proof.
  intros Hs Hd. destruct (decide (d ≤ size)%nat) as [Hle|Hgt].
  - replace (d - size)%nat with 0%nat by lia. simpl.
    rewrite (Nat.div_small (size - 1) size) by lia.
    replace (d + size - 1)%nat with ((d - 1) + 1 * size)%nat by lia.
    rewrite Nat.div_add by lia. rewrite Nat.div_small by lia. done.
  - replace (d + size - 1)%nat with ((d - size + size - 1) + 1 * size)%nat by lia.
    rewrite Nat.div_add by lia. lia.
Qed.

Lemma slice_length array size i :
  (i < length array)%nat →
  length (slice array i (i + size)) = (size `min` (length array - i))%nat.
Proof.
  intros Hi. unfold slice. rewrite length_take, length_drop. lia.
Qed.

Lemma slice_drop array size i :
  slice array i (i + size) ++ drop (i + size) array = drop i array.
Proof.
  unfold slice. replace (i + size - i)%nat with size by lia.
  rewrite <- (drop_drop array size i). apply take_drop.
Qed.

(** Past the end of the array the loop stops, whatever fuel is left. *)
Lemma chunkLoop_done fuel array size i chunks :
  (length array ≤ i)%nat → chunkLoop fuel array size i chunks = Some chunks.
Proof.
  intros Hge. destruct fuel; simpl;
    (destruct (Nat.ltb_spec i (length array)); [lia|done]).
Qed.

(** The loop invariant: from index [i] on, the loop appends the chunks of
    [drop i array]. *)
Lemma chunkLoop_spec array size :
  (0 < size)%nat →
  ∀ n fuel i chunks,
    (length array - i ≤ n)%nat → (n ≤ fuel)%nat →
    ∃ rest,
      chunkLoop fuel array size i chunks = Some (chunks ++ rest)
      ∧ length rest = ((length array - i + size - 1) / size)%nat
      ∧ Forall (λ c, (0 < length c ≤ size)%nat) rest
      ∧ concat rest = drop i array
      ∧ (((length array - i) `mod` size = 0)%nat →
         Forall (λ c, length c = size) rest).
Proof.
  intros Hs. induction n as [|n IH]; intros fuel i chunks Hn Hf.
  - exists []. rewrite chunkLoop_done, app_nil_r, drop_ge by lia.
    replace (length array - i)%nat with 0%nat by lia.
    split_and!; [done| |constructor|done|constructor].
    simpl. symmetry. apply Nat.div_small. lia.
  - destruct (Nat.ltb_spec i (length array)) as [Hlt|Hge].
    + destruct fuel as [|fuel]; [lia|]. simpl.
      destruct (Nat.ltb_spec i (length array)); [|lia].
      destruct (IH fuel (i + size)%nat (chunks ++ [slice array i (i + size)]))
        as (rest & Hrun & Hlen & Hall & Hcat & Hexact); [lia|lia|].
      exists (slice array i (i + size) :: rest).
      split_and!.
      * rewrite Hrun, <- app_assoc. done.
      * simpl. rewrite Hlen.
        rewrite (ceil_step (length array - i) size) by lia.
        do 3 f_equal. lia.
      * constructor; [|done]. rewrite slice_length by done. lia.
      * simpl. rewrite Hcat. apply slice_drop.
      * intros Hmod.
        assert (Hsz : (size ≤ length array - i)%nat).
        { destruct (decide (size ≤ length array - i)%nat); [done|].
          rewrite Nat.mod_small in Hmod by lia. lia. }
        constructor.
        -- rewrite slice_length by done. lia.
        -- apply Hexact.
           replace (length array - i)%nat
             with ((length array - (i + size)) + 1 * size)%nat in Hmod by lia.
           rewrite Nat.Div0.mod_add in Hmod. done.
    + exists []. rewrite chunkLoop_done, app_nil_r, drop_ge by lia.
      replace (length array - i)%nat with 0%nat by lia.
      split_and!; [done| |constructor|done|constructor].
      simpl. symmetry. apply Nat.div_small. lia.
Qed.

(** C7. For every plan of N operations and every positive batch size, the
    chunking loop ends and yields ceil(N/size) contiguous chunks (written
    [(N + size - 1) / size]), each non-empty and of at most [size]
    operations, whose concatenation is the plan itself; when [size]
    divides N every chunk holds exactly [size] operations, so that 16
    operations in batches of 4 give 4 chunks of 4. *)
Theorem chunkArray_partition array size :
  (0 < size)%nat →
  ∃ chunks,
    chunkArray array size = Some chunks
    ∧ length chunks = ((length array + size - 1) / size)%nat
    ∧ Forall (λ c, (0 < length c ≤ size)%nat) chunks
    ∧ concat chunks = array
    ∧ ((length array `mod` size = 0)%nat → Forall (λ c, length c = size) chunks).
Proof.
  intros Hs. unfold chunkArray.
  destruct (chunkLoop_spec array size Hs (length array) (length array) 0 [])
    as (rest & Hrun & Hlen & Hall & Hcat & Hexact); [lia|lia|].
  exists rest. rewrite Nat.sub_0_r in *. simpl in *. done.
Qed.
End Chunks.

(** Sixteen [Delegate] operations, one per governance track. *)
Definition sixteenDelegates : list Chain.Call :=
map (λ t, Chain.Delegate t "delegate" "Locked1x" 650000000000000) Delegate.ALL_TRACKS.

Lemma chunkArray_partition_witness :
(0 < 4)%nat
∧ ∃ chunks,
    Common.chunkArray sixteenDelegates 4 = Some chunks
    ∧ length chunks = 4%nat
    ∧ Forall (λ c, length c = 4%nat) chunks
    ∧ concat chunks = sixteenDelegates.
Proof.
split; [lia|].
destruct (chunkArray_partition sixteenDelegates 4 ltac:(lia))
  as (chunks & Hrun & Hlen & _ & Hcat & Hexact).
exists chunks. split_and!; [done|done| |done].
apply Hexact. reflexivity.
Defined.

(* ===================================================================== *)
(** * The cleanup plan                                                    *)
(* ===================================================================== *)

Section CleanupPlan.
Import Chain Common Cleanup.

(** The track ids of a list in the order of their first occurrence,
    skipping those already [seen]. *)
Fixpoint firstOccurrencesFrom (seen l : list Z) : list Z :=
  match l with
  | [] => []
  | x :: rest =>
      if bool_decide (x ∈ seen) then firstOccurrencesFrom seen rest
      else x :: firstOccurrencesFrom (x :: seen) rest
  end.

Definition firstOccurrences (l : list Z) : list Z := firstOccurrencesFrom [] l.

(** The referendum indices voted on track [t], in the order of [votes]. *)
Definition refsOf (t : Z) (votes : list VoteInfo) : list Z :=
  map v_refIndex (List.filter (λ v, bool_decide (v_trackId v = t)) votes).

Definition expiredTracks (priorLocks : list PriorLock) : list Z :=
  map l_trackId (List.filter isExpired priorLocks).

Lemma firstOccurrencesFrom_ext seen seen' l :
  (∀ x, x ∈ seen ↔ x ∈ seen') →
  firstOccurrencesFrom seen l = firstOccurrencesFrom seen' l.
Proof.
  revert seen seen'. induction l as [|x l IH]; intros seen seen' Heq; [done|].
  simpl. rewrite (bool_decide_ext _ _ (Heq x)).
  case_bool_decide; [by apply IH|]. f_equal. apply IH.
  intros y. rewrite !elem_of_cons, Heq. done.
Qed.

Lemma firstOccurrencesFrom_snoc seen l x :
  firstOccurrencesFrom seen (l ++ [x]) =
  firstOccurrencesFrom seen l
    ++ (if bool_decide (x ∈ seen ++ l) then [] else [x]).
Proof.
  revert seen. induction l as [|y l IH]; intros seen; simpl.
  - rewrite app_nil_r. by case_bool_decide.
  - case_bool_decide as Hy.
    + rewrite IH. f_equal.
      rewrite (bool_decide_ext (x ∈ seen ++ l) (x ∈ seen ++ y :: l)); [done|].
      rewrite !elem_of_app, elem_of_cons. logic.
    + rewrite IH. simpl. do 2 f_equal.
      rewrite (bool_decide_ext (x ∈ (y :: seen) ++ l) (x ∈ seen ++ y :: l)); [done|].
      rewrite !elem_of_app, !elem_of_cons. logic.
Qed.

Lemma firstOccurrencesFrom_elem seen l x :
  x ∈ firstOccurrencesFrom seen l ↔ x ∈ l ∧ x ∉ seen.
Proof.
  revert seen. induction l as [|y l IH]; intros seen; simpl.
  - rewrite elem_of_nil. logic.
  - case_bool_decide as Hy.
    + rewrite IH, elem_of_cons. logic.
    + rewrite elem_of_cons, IH, !elem_of_cons.
      destruct (decide (x = y)); logic.
Qed.

Lemma firstOccurrencesFrom_NoDup seen l : NoDup (firstOccurrencesFrom seen l).
Proof.
  revert seen. induction l as [|y l IH]; intros seen; simpl; [constructor|].
  case_bool_decide; [done|]. constructor; [|done].
  rewrite firstOccurrencesFrom_elem, elem_of_cons. logic.
Qed.

(** The insertion-ordered set built by [tracksToUnlock]. *)
Lemma tracksToUnlock_spec priorLocks :
  tracksToUnlock priorLocks = firstOccurrences (expiredTracks priorLocks).
Proof.
  unfold tracksToUnlock, firstOccurrences, expiredTracks.
  assert (Hgen : ∀ acc, NoDup acc →
    fold_left (λ s lock, if isExpired lock then Set_add s (l_trackId lock) else s)
      priorLocks acc
    = acc ++ firstOccurrencesFrom acc (map l_trackId (List.filter isExpired priorLocks))).
  { induction priorLocks as [|lock locks IH]; intros acc Hnd; simpl.
    - by rewrite app_nil_r.
    - destruct (isExpired lock) eqn:Hexp; simpl; [|by apply IH].
      unfold Set_add. case_bool_decide as Hx; [by apply IH|].
      rewrite IH.
      + rewrite <- app_assoc. simpl. do 2 f_equal.
        apply firstOccurrencesFrom_ext. intros y.
        rewrite elem_of_app, !elem_of_cons, elem_of_nil. logic.
      + apply NoDup_app. split_and!; [done| |apply NoDup_singleton].
        intros y Hy. rewrite elem_of_cons, elem_of_nil. logic. }
  apply (Hgen [] (NoDup_nil_2)).
Qed.

(** The calls of a plan. *)
Definition planCalls (plan : list CallItem) : list Call := map call plan.

Lemma planCalls_unlocks account tracks :
  planCalls (map (unlockItem account) tracks) = map (λ t, Unlock t account) tracks.
Proof. unfold planCalls. rewrite map_map. done. Qed.

(** C8. With [unlockOnly] set, whatever the observed delegations, votes
    and prior locks, the plan holds no [Undelegate] and no [RemoveVote]:
    every operation is an [Unlock] of the account. *)
Theorem buildCleanupCalls_unlockOnly delegations votes priorLocks account :
  let plan := planCalls (buildCleanupCalls delegations votes priorLocks account true) in
  List.filter isUndelegate plan = []
  ∧ List.filter isRemoveVote plan = []
  ∧ Forall (λ c, ∃ t, c = Unlock t account) plan.
Proof.
  simpl. unfold buildCleanupCalls. simpl. rewrite planCalls_unlocks.
  induction (tracksToUnlock priorLocks) as [|t ts (IH1 & IH2 & IH3)]; simpl.
  - split_and!; [done|done|constructor].
  - split_and!; [done|done|]. constructor; [by exists t|done].
Qed.

Definition trackOfCall (c : Call) : Z :=
  match c with
  | Delegate t _ _ _ | Undelegate t | RemoveVote t _ | Unlock t _ => t
  end.

(** The first two groups of a plan, over any grouping of the tracks. *)
Definition undelegations (trackData : list (Z * TrackData)) : list CallItem :=
  flat_map (λ kv, if delegated kv.2 then [undelegateItem kv.1] else []) trackData.

Definition removals (trackData : list (Z * TrackData)) : list CallItem :=
  flat_map (λ kv, map (removeVoteItem kv.1) (td_votes kv.2)) trackData.

Lemma buildCleanupCalls_groups delegations votes priorLocks account unlockOnly :
  planCalls (buildCleanupCalls delegations votes priorLocks account unlockOnly) =
  (if unlockOnly then []
   else planCalls (undelegations (groupByTrack delegations votes))
        ++ planCalls (removals (groupByTrack delegations votes)))
  ++ map (λ t, Unlock t account) (tracksToUnlock priorLocks).
Proof.
  unfold buildCleanupCalls, planCalls. rewrite map_app, <- planCalls_unlocks.
  destruct unlockOnly; [done|]. by rewrite map_app.
Qed.




Lemma filter_none {X} (f : X → bool) (l : list X) :
  Forall (λ x, f x = false) l → List.filter f l = [].
Proof. induction 1 as [|x l Hx _ IH]; simpl; [done|]. by rewrite Hx. Qed.

Lemma filter_all {X} (f : X → bool) (l : list X) :
  Forall (λ x, f x = true) l → List.filter f l = l.
Proof. induction 1 as [|x l Hx _ IH]; simpl; [done|]. by rewrite Hx, IH. Qed.






(** ** The order of the operations *)

Lemma firstOccurrencesFrom_app seen l1 l2 :
  firstOccurrencesFrom seen (l1 ++ l2) =
  firstOccurrencesFrom seen l1 ++ firstOccurrencesFrom (seen ++ l1) l2.
Proof.
  revert seen. induction l1 as [|x l1 IH]; intros seen; simpl.
  - by rewrite app_nil_r.
  - assert (Hext : ∀ s1 s2, (∀ y, y ∈ s1 ↔ y ∈ s2) →
      firstOccurrencesFrom s1 l2 = firstOccurrencesFrom s2 l2)
      by (intros; by apply firstOccurrencesFrom_ext).
    case_bool_decide as Hx; rewrite IH; simpl.
    + f_equal. apply Hext. intros z. rewrite !elem_of_app, elem_of_cons. logic.
    + do 2 f_equal. apply Hext. intros z.
      rewrite ?elem_of_app, ?elem_of_cons, ?elem_of_app. logic.
Qed.

Lemma firstOccurrences_elem l x : x ∈ firstOccurrences l ↔ x ∈ l.
Proof.
  unfold firstOccurrences. rewrite firstOccurrencesFrom_elem, elem_of_nil. tauto.
Qed.

Lemma firstOccurrences_snoc l x :
  firstOccurrences (l ++ [x]) =
  firstOccurrences l ++ (if bool_decide (x ∈ l) then [] else [x]).
Proof. apply firstOccurrencesFrom_snoc. Qed.

(** Among the tracks of [l1 ++ l2], those of [l1] come first. *)
Lemma firstOccurrences_filter_left l1 l2 :
  List.filter (λ k, bool_decide (k ∈ l1)) (firstOccurrences (l1 ++ l2))
  = firstOccurrences l1.
Proof.
  unfold firstOccurrences. rewrite firstOccurrencesFrom_app, List.filter_app.
  rewrite filter_all, filter_none; [by rewrite app_nil_r| |].
  - apply Forall_forall. intros k Hk%firstOccurrencesFrom_elem.
    apply bool_decide_eq_false. simpl in Hk. tauto.
  - apply Forall_forall. intros k Hk%firstOccurrencesFrom_elem.
    apply bool_decide_eq_true. tauto.
Qed.

Lemma refsOf_snoc t votes vote :
  refsOf t (votes ++ [vote]) =
  refsOf t votes ++ (if bool_decide (v_trackId vote = t) then [v_refIndex vote] else []).
Proof.
  unfold refsOf. rewrite List.filter_app, map_app. simpl.
  by case_bool_decide.
Qed.

Lemma refsOf_absent t votes : t ∉ map v_trackId votes → refsOf t votes = [].
Proof.
  unfold refsOf. induction votes as [|vote votes IH]; simpl; [done|].
  rewrite not_elem_of_cons. intros [Hne Hnot].
  rewrite bool_decide_eq_false_2 by done. by apply IH.
Qed.

(** A [Map] whose keys are [keys] and whose values are given by [g]. *)
Definition tabulate {V} (g : Z → V) (keys : list Z) : list (Z * V) :=
  map (λ k, (k, g k)) keys.

Lemma tabulate_keys {V} (g : Z → V) keys : map fst (tabulate g keys) = keys.
Proof. unfold tabulate. rewrite map_map. simpl. apply map_id. Qed.

Lemma tabulate_ext {V} (g g' : Z → V) keys :
  (∀ k, k ∈ keys → g k = g' k) → tabulate g keys = tabulate g' keys.
Proof.
  intros Hext. apply map_ext_in. intros k Hk%list_elem_of_In. by rewrite Hext.
Qed.

Lemma Map_has_tabulate {V} (g : Z → V) keys t :
  Map_has (tabulate g keys) t = bool_decide (t ∈ keys).
Proof. unfold Map_has. by rewrite tabulate_keys. Qed.

Lemma Map_alter_tabulate {V} (f : V → V) t (g : Z → V) keys :
  Map_alter f t (tabulate g keys)
  = tabulate (λ k, if bool_decide (k = t) then f (g k) else g k) keys.
Proof.
  unfold Map_alter, tabulate. rewrite map_map. apply map_ext.
  intros k. simpl. by case_bool_decide.
Qed.

Lemma tabulate_snoc {V} (g : Z → V) keys t :
  tabulate g keys ++ [(t, g t)] = tabulate g (keys ++ [t]).
Proof. unfold tabulate. by rewrite map_app. Qed.

(** What [groupByTrack] holds for a track. *)
Definition trackDataOf (delegations : list DelegationInfo) (votes : list VoteInfo)
    (t : Z) : TrackData :=
  {| delegated := bool_decide (t ∈ map d_trackId delegations);
     td_votes := refsOf t votes |}.

(** One step of either grouping loop: make sure the track has an entry,
    then update the entry in place. *)
Lemma alter_ensureTrack_tabulate (f : TrackData → TrackData) g g' keys t :
  (∀ k, k ∈ keys → g' k = if bool_decide (k = t) then f (g k) else g k) →
  (t ∉ keys → g' t = f {| delegated := false; td_votes := [] |}) →
  Map_alter f t (ensureTrack (tabulate g keys) t)
  = tabulate g' (keys ++ (if bool_decide (t ∈ keys) then [] else [t])).
Proof.
  intros Hold Hnew. unfold ensureTrack, Map_set. rewrite Map_has_tabulate.
  case_bool_decide as Ht.
  - rewrite app_nil_r, Map_alter_tabulate. apply tabulate_ext.
    intros k Hk. by rewrite Hold.
  - rewrite <- tabulate_snoc, Hnew by done.
    unfold Map_alter at 1. rewrite map_app. simpl.
    rewrite bool_decide_eq_true_2 by done. f_equal.
    fold (Map_alter f t (tabulate g keys)). rewrite Map_alter_tabulate.
    apply tabulate_ext. intros k Hk. by rewrite Hold.
Qed.

Lemma groupByTrack_delegations delegations :
  fold_left addDelegation delegations []
  = tabulate (trackDataOf delegations []) (firstOccurrences (map d_trackId delegations)).
Proof.
  induction delegations as [|del dels IH] using rev_ind; [done|].
  rewrite fold_left_app. simpl. rewrite IH. unfold addDelegation.
  rewrite map_app. change (map d_trackId [del]) with [d_trackId del].
  rewrite firstOccurrences_snoc.
  set (t := d_trackId del). set (D := map d_trackId dels).
  rewrite <- (bool_decide_ext (t ∈ firstOccurrences D) (t ∈ D))
    by apply firstOccurrences_elem.
  apply alter_ensureTrack_tabulate.
  - intros k Hk. rewrite firstOccurrences_elem in Hk.
    unfold trackDataOf. simpl. rewrite map_app. fold D. simpl.
    rewrite (bool_decide_eq_true_2 (k ∈ D)) by done.
    rewrite (bool_decide_eq_true_2 (k ∈ D ++ [d_trackId del]))
      by (apply elem_of_app; by left).
    by case_bool_decide.
  - intros Ht. unfold trackDataOf. simpl. rewrite map_app. simpl.
    rewrite bool_decide_eq_true_2; [done|].
    apply elem_of_app. right. by left.
Qed.

Lemma groupByTrack_spec delegations votes :
  groupByTrack delegations votes
  = tabulate (trackDataOf delegations votes)
      (firstOccurrences (map d_trackId delegations ++ map v_trackId votes)).
Proof.
  unfold groupByTrack.
  induction votes as [|vote votes IH] using rev_ind.
  - simpl. rewrite app_nil_r. apply groupByTrack_delegations.
  - rewrite fold_left_app. simpl. rewrite IH. unfold addVote.
    rewrite map_app. change (map v_trackId [vote]) with [v_trackId vote].
    rewrite app_assoc, firstOccurrences_snoc.
    set (t := v_trackId vote).
    set (L := map d_trackId delegations ++ map v_trackId votes).
    rewrite <- (bool_decide_ext (t ∈ firstOccurrences L) (t ∈ L))
      by apply firstOccurrences_elem.
    apply alter_ensureTrack_tabulate.
    + intros k Hk. unfold trackDataOf. simpl. rewrite refsOf_snoc. fold t.
      rewrite (bool_decide_ext (t = k) (k = t)) by done.
      destruct (bool_decide (k = t)); [done|by rewrite app_nil_r].
    + intros Ht. rewrite firstOccurrences_elem in Ht.
      unfold trackDataOf. simpl. rewrite refsOf_snoc. fold t.
      rewrite (bool_decide_eq_true_2 (t = t)) by done.
      rewrite refsOf_absent by (intros Hin; apply Ht, elem_of_app; by right).
      rewrite bool_decide_eq_false_2; [done|].
      intros Hin. apply Ht, elem_of_app. by left.
Qed.

Lemma undelegations_tabulate g keys :
  planCalls (undelegations (tabulate g keys))
  = map Undelegate (List.filter (λ k, delegated (g k)) keys).
Proof.
  induction keys as [|k keys IH]; simpl; [done|].
  unfold planCalls in *. rewrite map_app, IH.
  by destruct (delegated (g k)).
Qed.

Lemma removals_tabulate g keys :
  planCalls (removals (tabulate g keys))
  = flat_map (λ k, map (RemoveVote k) (td_votes (g k))) keys.
Proof.
  induction keys as [|k keys IH]; simpl; [done|].
  unfold planCalls in *. rewrite map_app, IH, map_map. done.
Qed.

(** The plan built without [unlockOnly], group by group. *)
Lemma plan_order_spec delegations votes priorLocks account :
  planCalls (buildCleanupCalls delegations votes priorLocks account false)
  = map Undelegate (firstOccurrences (map d_trackId delegations))
    ++ flat_map (λ t, map (RemoveVote t) (refsOf t votes))
         (firstOccurrences (map d_trackId delegations ++ map v_trackId votes))
    ++ map (λ t, Unlock t account) (firstOccurrences (expiredTracks priorLocks)).
Proof.
  rewrite buildCleanupCalls_groups, groupByTrack_spec, tracksToUnlock_spec.
  rewrite undelegations_tabulate, removals_tabulate. simpl.
  rewrite firstOccurrences_filter_left, <- app_assoc. done.
Qed.

(** Two delegations that the chain returns with track 2 before track 0. *)
Definition unsortedEntries : list (Z * Voting) :=
  [ (2, Delegating "delegate" "Locked1x" 10);
    (0, Delegating "delegate" "Locked1x" 10) ].

Definition unsortedPlan : list Call :=
  let info := getVotingInfo unsortedEntries 100 [] in
  planCalls (buildCleanupCalls (delegations info) (votes info) (priorLocks info)
               "account" false).

(** The plan undelegates track 2 before track 0: its [Undelegate] group is
    not ascending by track id. *)
Lemma buildCleanupCalls_not_sorted :
  ¬ Sorted Z.le (map trackOfCall (List.filter isUndelegate unsortedPlan)).
Proof.
  change (map trackOfCall (List.filter isUndelegate unsortedPlan)) with [2; 0].
  intros Hsorted. inversion Hsorted as [|? ? _ Hhd]. inversion Hhd. lia.
Qed.
End CleanupPlan.

(** ** When the chain returns the entries in ascending order *)

Section AscendingEntries.
Import Chain Common Cleanup.

(** [getVotingInfo], entry by entry. *)
Definition scanDelegation (entry : Z * Voting) : list DelegationInfo :=
  match entry.2 with
  | Delegating target conviction balance =>
      [ {| d_trackId := entry.1;
           d_trackName := trackNameOr ("Track " +:+ pretty entry.1) entry.1;
           d_target := target; d_conviction := conviction; d_balance := balance |} ]
  | Casting _ _ => []
  end.

Definition scanVotes (entry : Z * Voting) : list VoteInfo :=
  match entry.2 with
  | Delegating _ _ _ => []
  | Casting castVotes _ =>
      map (λ refIndex,
             {| v_trackId := entry.1;
                v_trackName := trackNameOr ("Track " +:+ pretty entry.1) entry.1;
                v_refIndex := refIndex |}) castVotes
  end.

Definition scanLocks (currentBlock : Z) (entry : Z * Voting) : list PriorLock :=
  match entry.2 with
  | Delegating _ _ _ => []
  | Casting _ prior =>
      scanPrior currentBlock entry.1
        (trackNameOr ("Track " +:+ pretty entry.1) entry.1) prior
  end.

Lemma scan_lists currentBlock entries :
  ∀ acc,
    fold_left (scanEntry currentBlock) entries acc
    = (acc.1.1 ++ flat_map scanDelegation entries,
       acc.1.2 ++ flat_map scanVotes entries,
       acc.2 ++ flat_map (scanLocks currentBlock) entries).
Proof.
  induction entries as [|[trackId voting] entries IH]; intros [[ds vs] ls]; simpl.
  - by rewrite !app_nil_r.
  - rewrite IH. unfold scanDelegation, scanVotes, scanLocks.
    destruct voting; simpl; by rewrite <- ?app_assoc, ?app_nil_r.
Qed.

Lemma getVotingInfo_lists entries currentBlock classLocks :
  let info := getVotingInfo entries currentBlock classLocks in
  delegations info = flat_map scanDelegation entries
  ∧ votes info = flat_map scanVotes entries
  ∧ priorLocks info = flat_map (scanLocks currentBlock) entries.
Proof.
  unfold getVotingInfo. rewrite scan_lists. done.
Qed.

(** The lexicographic order on (track, referendum index). *)
Definition lexLe (a b : Z * Z) : Prop := a.1 < b.1 ∨ (a.1 = b.1 ∧ a.2 ≤ b.2).

Definition removalKey (c : Call) : Z * Z :=
  match c with
  | RemoveVote t refIndex => (t, refIndex)
  | _ => (trackOfCall c, 0)
  end.

Lemma firstOccurrencesFrom_id seen l :
  NoDup l → (∀ x, x ∈ l → x ∉ seen) → firstOccurrencesFrom seen l = l.
Proof.
  revert seen. induction l as [|x l IH]; intros seen Hnd Hfresh; [done|].
  apply NoDup_cons in Hnd as [Hx Hnd]. simpl.
  rewrite bool_decide_eq_false_2 by (apply Hfresh; by left).
  f_equal. apply IH; [done|]. intros y Hy. rewrite not_elem_of_cons. split.
  - intros ->. done.
  - apply Hfresh. by right.
Qed.

Lemma strictly_ascending_NoDup (l : list Z) : StronglySorted Z.lt l → NoDup l.
Proof.
  induction 1 as [|x l _ IH Hx]; constructor; [|done].
  intros Hin. rewrite Forall_forall in Hx. specialize (Hx x Hin). lia.
Qed.

(** Entries with ascending tracks, each contributing at most its own track. *)
Lemma blocks_ascending {X} (g : Z * Voting → list X) (key : X → Z) entries :
  (∀ e x, x ∈ g e → key x = e.1) →
  (∀ e, (length (g e) ≤ 1)%nat) →
  StronglySorted Z.lt (map fst entries) →
  StronglySorted Z.lt (map key (flat_map g entries)).
Proof.
  intros Hkey Hone. induction entries as [|e entries IH]; simpl; intros Hsorted.
  - constructor.
  - apply StronglySorted_inv in Hsorted as [Hrest Hlt].
    rewrite map_app. specialize (Hone e). pose proof (Hkey e) as Hke.
    destruct (g e) as [|x [|? ?]]; simpl in *; [by apply IH| |lia].
    constructor; [by apply IH|].
    rewrite (Hke x) by (by left).
    apply Forall_forall. intros k Hk.
    apply list_elem_of_In, in_map_iff in Hk as (y & <- & Hy).
    apply in_flat_map in Hy as (e' & He' & Hy).
    rewrite (Hkey e' y) by (by apply list_elem_of_In).
    rewrite Forall_forall in Hlt. apply Hlt.
    apply list_elem_of_In, in_map_iff. by exists e'.
Qed.

(** Items with ascending tracks, each contributing an ascending block of
    referendum indices. *)
Lemma blocks_lex {X} (key : X → Z) (g : X → list Z) (l : list X) :
  (∀ e, e ∈ l → StronglySorted Z.le (g e)) →
  StronglySorted Z.lt (map key l) →
  StronglySorted lexLe (flat_map (λ e, map (pair (key e)) (g e)) l).
Proof.
  induction l as [|e l IH]; simpl; intros Hblocks Hsorted.
  - constructor.
  - apply StronglySorted_inv in Hsorted as [Hrest Hlt].
    assert (Htail : StronglySorted lexLe (flat_map (λ e, map (pair (key e)) (g e)) l)).
    { apply IH; [|done]. intros e' He'. apply Hblocks. by right. }
    assert (Hlater : ∀ p, p ∈ flat_map (λ e, map (pair (key e)) (g e)) l → key e < p.1).
    { intros p Hp. apply list_elem_of_In, in_flat_map in Hp as (e' & He' & Hp).
      apply in_map_iff in Hp as (r & <- & _). simpl.
      rewrite Forall_forall in Hlt. apply Hlt.
      apply list_elem_of_In, in_map_iff. by exists e'. }
    specialize (Hblocks e (list_elem_of_here _ _)).
    induction Hblocks as [|r rs _ IHrs Hr]; simpl; [done|].
    constructor; [done|].
    apply Forall_app. split.
    + apply Forall_forall. intros p Hp.
      apply list_elem_of_In, in_map_iff in Hp as (r' & <- & Hr').
      right. simpl. split; [done|].
      rewrite Forall_forall in Hr. by apply Hr, list_elem_of_In.
    + apply Forall_forall. intros p Hp. left. by apply Hlater.
Qed.

(** In a lexicographically ascending list, the referenda of one track are
    ascending. *)
Lemma lex_track_block (t : Z) (pairs : list (Z * Z)) :
  StronglySorted lexLe pairs →
  StronglySorted Z.le (map snd (List.filter (λ p, bool_decide (p.1 = t)) pairs)).
Proof.
  induction 1 as [|p pairs _ IH Hp]; simpl; [constructor|].
  case_bool_decide as Hpt; [|done]. simpl. constructor; [done|].
  apply Forall_forall. intros r Hr.
  apply list_elem_of_In, in_map_iff in Hr as (q & <- & Hq).
  apply filter_In in Hq as [Hq Hqt]. apply bool_decide_eq_true in Hqt.
  rewrite Forall_forall in Hp. destruct (Hp q) as [Hlt|[_ Hle]];
    [by apply list_elem_of_In|lia|done].
Qed.

Lemma lex_tracks_ascending (pairs : list (Z * Z)) :
  StronglySorted lexLe pairs → StronglySorted Z.le (map fst pairs).
Proof.
  induction 1 as [|p pairs _ IH Hp]; simpl; constructor; [done|].
  apply Forall_forall. intros t Ht.
  apply list_elem_of_In, in_map_iff in Ht as (q & <- & Hq).
  rewrite Forall_forall in Hp. destruct (Hp q) as [Hlt|[Heq _]];
    [by apply list_elem_of_In|lia|lia].
Qed.

(** The first occurrences of an ascending list are strictly ascending. *)
Lemma firstOccurrencesFrom_ascending seen l :
  StronglySorted Z.le l → StronglySorted Z.lt (firstOccurrencesFrom seen l).
Proof.
  intros Hsorted. revert seen.
  induction Hsorted as [|x l _ IH Hx]; intros seen; simpl; [constructor|].
  case_bool_decide; [done|]. constructor; [done|].
  apply Forall_forall. intros y Hy.
  apply firstOccurrencesFrom_elem in Hy as [Hy Hfresh].
  rewrite Forall_forall in Hx. specialize (Hx y Hy).
  rewrite not_elem_of_cons in Hfresh. lia.
Qed.

Lemma firstOccurrencesFrom_fresh seen l :
  (∀ x, x ∈ l → x ∉ seen) →
  firstOccurrencesFrom seen l = firstOccurrences l.
Proof.
  unfold firstOccurrences. intros Hfresh.
  assert (Hgen : ∀ others, firstOccurrencesFrom (others ++ seen) l
                           = firstOccurrencesFrom others l).
  { induction l as [|x l IH]; intros others; [done|]. simpl.
    assert (Htail : ∀ y, y ∈ l → y ∉ seen) by (intros y Hy; apply Hfresh; by right).
    rewrite (bool_decide_ext (x ∈ others ++ seen) (x ∈ others)).
    - case_bool_decide; [by apply IH|]. f_equal. by apply (IH Htail (x :: others)).
    - rewrite elem_of_app. specialize (Hfresh x (list_elem_of_here _ _)). tauto. }
  apply (Hgen []).
Qed.

Lemma flat_map_nil {X Y} (f : X → list Y) (l : list X) :
  (∀ x, x ∈ l → f x = []) → flat_map f l = [].
Proof.
  induction l as [|x l IH]; intros Hnil; simpl; [done|].
  rewrite Hnil by (by left). apply IH. intros y Hy. apply Hnil. by right.
Qed.

Lemma filter_flat_map {X Y} (f : Y → bool) (g : X → list Y) (l : list X) :
  List.filter f (flat_map g l) = flat_map (λ x, List.filter f (g x)) l.
Proof.
  induction l as [|x l IH]; simpl; [done|]. by rewrite List.filter_app, IH.
Qed.

Lemma Z_lt_le_sorted (l : list Z) : StronglySorted Z.lt l → Sorted Z.le l.
Proof.
  intros Hs. apply StronglySorted_Sorted.
  induction Hs as [|x l _ IH Hx]; constructor; [done|].
  eapply Forall_impl; [exact Hx|]. simpl. lia.
Qed.

(** The (track, referendum) pairs of the votes. *)
Definition votePairs (votes : list VoteInfo) : list (Z * Z) :=
  map (λ v, (v_trackId v, v_refIndex v)) votes.

Lemma refsOf_pairs t votes :
  refsOf t votes = map snd (List.filter (λ p, bool_decide (p.1 = t)) (votePairs votes)).
Proof.
  unfold refsOf, votePairs. induction votes as [|v votes IH]; simpl; [done|].
  case_bool_decide; simpl; by rewrite IH.
Qed.

(** The referenda of an entry. *)
Definition castRefs (entry : Z * Voting) : list Z :=
  match entry.2 with
  | Casting castVotes _ => castVotes
  | Delegating _ _ _ => []
  end.

Lemma votePairs_scan entries :
  votePairs (flat_map scanVotes entries)
  = flat_map (λ e, map (pair e.1) (castRefs e)) entries.
Proof.
  unfold votePairs. induction entries as [|[t voting] entries IH]; simpl; [done|].
  rewrite map_app, IH. f_equal. unfold scanVotes, castRefs.
  destruct voting; simpl; [done|]. by rewrite map_map.
Qed.

(** The groups of a plan built without [unlockOnly]. *)
Lemma plan_groups delegations votes priorLocks account :
  let plan := planCalls (buildCleanupCalls delegations votes priorLocks account false) in
  map trackOfCall (List.filter isUndelegate plan)
  = firstOccurrences (map d_trackId delegations)
  ∧ map removalKey (List.filter isRemoveVote plan)
    = flat_map (λ t, map (pair t) (refsOf t votes))
        (firstOccurrences (map d_trackId delegations ++ map v_trackId votes))
  ∧ map trackOfCall (List.filter isUnlock plan)
    = firstOccurrences (expiredTracks priorLocks).
Proof.
  intros plan. unfold plan. rewrite plan_order_spec.
  set (U := firstOccurrences (map d_trackId delegations)).
  set (K := firstOccurrences (map d_trackId delegations ++ map v_trackId votes)).
  set (L := firstOccurrences (expiredTracks priorLocks)).
  assert (HU : ∀ f b, (∀ t, f (Undelegate t) = b) →
                      List.filter f (map Undelegate U)
                      = if b then map Undelegate U else []).
  { intros f b Hf. induction U as [|t U IH]; simpl; [by destruct b|].
    rewrite Hf, IH. by destruct b. }
  assert (HL : ∀ f b, (∀ t, f (Unlock t account) = b) →
                      List.filter f (map (λ t, Unlock t account) L)
                      = if b then map (λ t, Unlock t account) L else []).
  { intros f b Hf. induction L as [|t L IH]; simpl; [by destruct b|].
    rewrite Hf, IH. by destruct b. }
  assert (HK : ∀ f b, (∀ t r, f (RemoveVote t r) = b) →
                      List.filter f (flat_map (λ t, map (RemoveVote t) (refsOf t votes)) K)
                      = if b then flat_map (λ t, map (RemoveVote t) (refsOf t votes)) K
                        else []).
  { intros f b Hf. rewrite filter_flat_map.
    assert (Hblock : ∀ t rs, List.filter f (map (RemoveVote t) rs)
                             = if b then map (RemoveVote t) rs else []).
    { intros t rs. induction rs as [|r rs IH]; simpl; [by destruct b|].
      rewrite Hf, IH. by destruct b. }
    destruct b.
    - apply flat_map_ext. intros t. apply Hblock.
    - apply flat_map_nil. intros t _. apply Hblock. }
  rewrite !List.filter_app.
  rewrite (HU isUndelegate true), (HK isUndelegate false), (HL isUndelegate false) by done.
  rewrite (HU isRemoveVote false), (HK isRemoveVote true), (HL isRemoveVote false) by done.
  rewrite (HU isUnlock false), (HK isUnlock false), (HL isUnlock true) by done.
  simpl. rewrite !app_nil_r. split_and!.
  - rewrite map_map. apply map_id.
  - rewrite flat_map_concat_map, concat_map, map_map, <- flat_map_concat_map.
    apply flat_map_ext. intros t. by rewrite map_map.
  - rewrite map_map. apply map_id.
Qed.

Lemma track_entry_unique {V} (l : list (Z * V)) k v1 v2 :
  NoDup (map fst l) → (k, v1) ∈ l → (k, v2) ∈ l → v1 = v2.
Proof.
  induction l as [|[k' v'] l IH]; simpl; intros Hnd H1 H2.
  - by apply elem_of_nil in H1.
  - apply NoDup_cons in Hnd as [Hk Hnd].
    assert (Hin : ∀ v, (k', v) ∈ l → False).
    { intros v Hv. apply Hk, list_elem_of_In, in_map_iff.
      exists (k', v). by split; [|apply list_elem_of_In]. }
    apply elem_of_cons in H1 as [H1|H1]; apply elem_of_cons in H2 as [H2|H2].
    + congruence.
    + injection H1 as -> ->. by destruct (Hin v2).
    + injection H2 as -> ->. by destruct (Hin v1).
    + by apply IH.
Qed.

Lemma scanLocks_own currentBlock entry :
  (∀ lock, lock ∈ scanLocks currentBlock entry → l_trackId lock = entry.1)
  ∧ (length (scanLocks currentBlock entry) ≤ 1)%nat.
Proof.
  unfold scanLocks. destruct entry.2 as [|refs prior]; simpl.
  { split; [by intros lock ?%elem_of_nil|lia]. }
  unfold scanPrior. destruct prior as [[|unlockBlock [|amount rest]]|];
    try (split; [by intros lock ?%elem_of_nil|simpl; lia]).
  destruct (_ && _); [|split; [by intros lock ?%elem_of_nil|simpl; lia]].
  split; [|simpl; lia]. by intros lock ->%list_elem_of_singleton.
Qed.

(** With ascending track ids in the entries and ascending referendum
    indices in each entry, every group of the plan is ascending. *)
Lemma cleanup_plan_ascending entries currentBlock classLocks account :
  Sorted Z.lt (map fst entries) →
  (∀ e, e ∈ entries → Sorted Z.le (castRefs e)) →
  let info := getVotingInfo entries currentBlock classLocks in
  let plan := planCalls (buildCleanupCalls (delegations info) (votes info)
                           (priorLocks info) account false) in
  Sorted Z.le (map trackOfCall (List.filter isUndelegate plan))
  ∧ Sorted lexLe (map removalKey (List.filter isRemoveVote plan))
  ∧ Sorted Z.le (map trackOfCall (List.filter isUnlock plan)).
Proof.
  intros Hsorted Hrefs info plan.
  assert (Hs : StronglySorted Z.lt (map fst entries)).
  { apply Sorted_StronglySorted; [|done]. intros a b c. lia. }
  destruct (getVotingInfo_lists entries currentBlock classLocks) as (Hd & Hv & Hl).
  fold info in Hd, Hv, Hl.
  destruct (plan_groups (delegations info) (votes info) (priorLocks info) account)
    as (HU & HK & HL).
  fold plan in HU, HK, HL. rewrite HU, HK, HL, Hd, Hv, Hl. clear HU HK HL Hd Hv Hl.
  set (D := map d_trackId (flat_map scanDelegation entries)).
  set (votes := flat_map scanVotes entries).
  assert (HD : StronglySorted Z.lt D).
  { apply blocks_ascending; [| |done].
    - intros e x Hx. unfold scanDelegation in Hx.
      destruct e.2; [|by apply elem_of_nil in Hx].
      by apply list_elem_of_singleton in Hx as ->.
    - intros e. unfold scanDelegation. destruct e.2; simpl; lia. }
  assert (HDid : firstOccurrences D = D).
  { apply firstOccurrencesFrom_id; [by apply strictly_ascending_NoDup|].
    intros x _. apply not_elem_of_nil. }
  assert (HP : StronglySorted lexLe (votePairs votes)).
  { unfold votes. rewrite votePairs_scan. apply blocks_lex; [|done].
    intros e He. apply Sorted_StronglySorted; [intros a b c; lia|by apply Hrefs]. }
  assert (HV : map v_trackId votes = map fst (votePairs votes)).
  { unfold votePairs. by rewrite map_map. }
  assert (Hdisjoint : ∀ t, t ∈ map v_trackId votes → t ∉ D).
  { intros t Ht HtD.
    apply list_elem_of_In, in_map_iff in Ht as (v & <- & Hv).
    apply in_flat_map in Hv as ([t1 voting1] & He1 & Hv). unfold scanVotes in Hv.
    simpl in Hv. destruct voting1 as [|refs1 prior1]; [done|].
    apply in_map_iff in Hv as (r & <- & _). simpl in HtD.
    apply list_elem_of_In, in_map_iff in HtD as (d & Hdt & Hd).
    apply in_flat_map in Hd as ([t2 voting2] & He2 & Hd). unfold scanDelegation in Hd.
    simpl in Hd. destruct voting2 as [target conviction balance|]; [|done].
    destruct Hd as [<-|[]]. simpl in Hdt. subst t2.
    assert (Hnd : NoDup (map fst entries)) by (by apply strictly_ascending_NoDup).
    apply list_elem_of_In in He1, He2.
    pose proof (track_entry_unique entries _ _ _ Hnd He1 He2). done. }
  split_and!.
  - rewrite HDid. by apply Z_lt_le_sorted.
  - apply StronglySorted_Sorted. unfold firstOccurrences.
    rewrite firstOccurrencesFrom_app. simpl.
    fold (firstOccurrences D). rewrite HDid.
    rewrite (firstOccurrencesFrom_fresh D) by exact Hdisjoint.
    rewrite flat_map_app, (flat_map_nil _ D), app_nil_l.
    + rewrite <- (map_id (firstOccurrences (map v_trackId votes))) at 1.
      rewrite flat_map_concat_map, map_map, <- flat_map_concat_map.
      apply (blocks_lex (λ t, t) (λ t, refsOf t votes)).
      * intros t _. rewrite refsOf_pairs. by apply lex_track_block.
      * rewrite map_id. apply firstOccurrencesFrom_ascending.
        rewrite HV. by apply lex_tracks_ascending.
    + intros t Ht. rewrite refsOf_absent; [done|].
      intros Hin. by apply (Hdisjoint t).
  - unfold expiredTracks. rewrite filter_flat_map.
    assert (HE : StronglySorted Z.lt
                   (map l_trackId
                      (flat_map (λ e, List.filter isExpired (scanLocks currentBlock e))
                         entries))).
    { apply blocks_ascending; [| |done].
      - intros e lock Hlock%list_elem_of_In%filter_In.
        apply (proj1 (scanLocks_own currentBlock e)), list_elem_of_In, Hlock.
      - intros e. pose proof (proj2 (scanLocks_own currentBlock e)) as Hlen.
        destruct (scanLocks currentBlock e) as [|lock [|? ?]]; simpl in *; [lia| |lia].
        destruct (isExpired lock); simpl; lia. }
    unfold firstOccurrences. rewrite firstOccurrencesFrom_id;
      [by apply Z_lt_le_sorted|by apply strictly_ascending_NoDup|].
    intros x _. apply not_elem_of_nil.
Qed.

(** C4, as the script has it.  Without [unlockOnly] the plan lists the
    [Undelegate] operations, then the [RemoveVote] operations, then the
    [Unlock] operations, and inside each group it follows the order in which
    the chain returned the entries, without sorting: one [Undelegate] per
    delegating track in the order of first occurrence among the delegations;
    the [RemoveVote]s track by track, the tracks in the order of first
    occurrence among the delegations followed by the votes, the referenda of
    one track in the order of its votes; one [Unlock] per track with an
    expired prior lock, in the order of first occurrence.  Hence, when the
    chain returns the entries by ascending track id and the votes of each
    entry by ascending referendum index, the [Undelegate] and [Unlock] groups
    are ascending by track id and the [RemoveVote] group is ascending by
    track id, then by referendum index. *)
Theorem buildCleanupCalls_order :
  (∀ delegations votes priorLocks account,
     planCalls (buildCleanupCalls delegations votes priorLocks account false)
     = map Undelegate (firstOccurrences (map d_trackId delegations))
       ++ flat_map (λ t, map (RemoveVote t) (refsOf t votes))
            (firstOccurrences (map d_trackId delegations ++ map v_trackId votes))
       ++ map (λ t, Unlock t account) (firstOccurrences (expiredTracks priorLocks)))
  ∧ (∀ entries currentBlock classLocks account,
       Sorted Z.lt (map fst entries) →
       (∀ e, e ∈ entries → Sorted Z.le (castRefs e)) →
       let info := getVotingInfo entries currentBlock classLocks in
       let plan := planCalls (buildCleanupCalls (delegations info) (votes info)
                                (priorLocks info) account false) in
       Sorted Z.le (map trackOfCall (List.filter isUndelegate plan))
       ∧ Sorted lexLe (map removalKey (List.filter isRemoveVote plan))
       ∧ Sorted Z.le (map trackOfCall (List.filter isUnlock plan))).
Proof.
  split.
  - apply plan_order_spec.
  - intros entries currentBlock classLocks account Hsorted Hrefs.
    by apply cleanup_plan_ascending.
Qed.

(** An account casting on tracks 0 and 33 and delegating on track 2; the
    prior lock of track 0 expired at block 1000. *)
Definition ascendingEntries : list (Z * Voting) :=
  [ (0, Casting [3; 9] (Some [1000; 5000000000000]));
    (2, Delegating "delegate" "Locked1x" 650000000000000);
    (33, Casting [1] None) ].

Definition ascendingPlan : list Call :=
  let info := getVotingInfo ascendingEntries 1200 [] in
  planCalls (buildCleanupCalls (delegations info) (votes info) (priorLocks info)
               "account" false).

Lemma buildCleanupCalls_order_witness :
  ascendingPlan
  = [Undelegate 2; RemoveVote 0 3; RemoveVote 0 9; RemoveVote 33 1; Unlock 0 "account"]
  ∧ Sorted Z.le (map trackOfCall (List.filter isUndelegate ascendingPlan))
  ∧ Sorted lexLe (map removalKey (List.filter isRemoveVote ascendingPlan))
  ∧ Sorted Z.le (map trackOfCall (List.filter isUnlock ascendingPlan)).
Proof.
  split; [reflexivity|].
  apply (proj2 buildCleanupCalls_order ascendingEntries 1200 [] "account").
  - repeat (constructor; try done).
  - intros e He. unfold ascendingEntries in He.
    repeat (apply elem_of_cons in He as [->|He]; [repeat (constructor; try done)|]).
    by apply elem_of_nil in He.
Defined.
End AscendingEntries.


(* ===================================================================== *)
(** * The delegation status report                                        *)
(* ===================================================================== *)

Section StatusReport.
Import Chain Common Check.

(** The balances of the delegating tracks, in the order of the entries. *)
Definition delegatedBalances (entries : list (Z * Voting)) : list Z :=
  flat_map (λ entry, match entry.2 with
                     | Delegating _ _ balance => [balance]
                     | Casting _ _ => []
                     end) entries.

Lemma tally_total_from (entries : list (Z * Voting)) (t : Tally) :
  totalDelegated (fold_left tallyEntry entries t)
  = foldr Z.max (totalDelegated t) (delegatedBalances entries).
Proof.
  revert t. induction entries as [|[trackId voting] entries IH]; intros t; [done|].
  simpl. rewrite IH. destruct voting as [target conviction balance|]; simpl; [|done].
  generalize (delegatedBalances entries). intros bs.
  induction bs as [|b bs IHbs]; simpl.
  - case_bool_decide; lia.
  - rewrite IHbs. lia.
Qed.

(** An account that delegates 5 on track 0 and 7 on track 1. *)
Definition twoDelegations : list (Z * Voting) :=
  [ (0, Delegating "delegate" "Locked1x" 5);
    (1, Delegating "delegate" "Locked1x" 7) ].

(** C10. The total the status checker keeps while scanning is the largest
    balance delegated on a single track (0 when nothing is delegated): it
    bounds every delegated balance and is one of them unless it is 0; the
    summary line reports it when it is positive.  It is not the sum: for
    an account delegating 5 on one track and 7 on another, the summary
    reports 7. *)
Theorem summary_reports_largest_delegation :
  (∀ entries,
     let total := totalDelegated (tally entries) in
     total = foldr Z.max 0 (delegatedBalances entries)
     ∧ Forall (λ b, b ≤ total) (delegatedBalances entries)
     ∧ (total = 0 ∨ total ∈ delegatedBalances entries)
     ∧ summaryAmount entries = (if bool_decide (total > 0) then Some total else None))
  ∧ summaryAmount twoDelegations = Some 7
  ∧ summaryAmount twoDelegations ≠ Some (5 + 7).
Proof.
  split; [|by split].
  intros entries total.
  assert (Htotal : total = foldr Z.max 0 (delegatedBalances entries))
    by apply (tally_total_from entries start).
  split_and!; [done| | |done].
  - rewrite Htotal. clear. induction (delegatedBalances entries) as [|b bs IH]; simpl.
    + constructor.
    + constructor; [lia|]. eapply Forall_impl; [exact IH|]. simpl. lia.
  - rewrite Htotal. clear. induction (delegatedBalances entries) as [|b bs IH]; simpl.
    + by left.
    + destruct (Z.max_spec b (foldr Z.max 0 bs)) as [[_ ->]|[_ ->]].
      * destruct IH as [->|Hin]; [by left|right; by right].
      * right. by left.
Qed.
End StatusReport.

(* ===================================================================== *)
(** * The submission monitors                                             *)
(* ===================================================================== *)

Section Monitors.
Import Chain Common.
Variable api : Api.

(** ** [delegate.js] *)

(** The arrivals on which the callback of [delegate.js] settles the
    promise: a notification with a dispatch error or with one of the
    statuses [Dropped], [Invalid], [Usurped], [Finalized], and the failure
    of [signAndSend] itself. *)
Definition terminalStatus (s : Status) : bool :=
  match s with
  | Dropped | Invalid | Usurped _ | Finalized _ => true
  | _ => false
  end.

Definition terminal (inc : Incoming) : bool :=
  match inc with
  | Notify n => bool_decide (is_Some (dispatchError n)) || terminalStatus (status n)
  | SendErr _ => true
  | SendOk => false
  end.

(** States in which the timer and the promise agree: the timer is armed
    exactly while the promise is pending, and the subscription of a
    pending promise is alive. *)
Definition coherent (m : Delegate.Mon) : Prop :=
  (Delegate.timerArmed m = true ↔ Delegate.promise m = Pending)
  ∧ (Delegate.promise m = Pending → Delegate.subscribed m = true).

Lemma initial_coherent : coherent Delegate.initial.
Proof. by split. Qed.

Lemma reject_settled e p : reject e p ≠ Pending.
Proof. by destruct p. Qed.

Lemma resolve_settled p : resolve p ≠ Pending.
Proof. by destruct p. Qed.

Lemma reject_idem e p : p ≠ Pending → reject e p = p.
Proof. by destruct p. Qed.

Lemma resolve_idem p : p ≠ Pending → resolve p = p.
Proof. by destruct p. Qed.

Lemma settled_coherent m :
  Delegate.timerArmed m = false → Delegate.promise m ≠ Pending → coherent m.
Proof. intros Ht Hp. split; [split; congruence|done]. Qed.

(** The callback never re-arms the timer and never unsettles the promise. *)
Lemma onStatus_coherent m n :
  coherent m → coherent (Delegate.onStatus api m n).
Proof.
  intros Hm. unfold Delegate.onStatus.
  destruct (dispatchError n) as [e|].
  { apply settled_coherent; [done|apply reject_settled]. }
  destruct (status n); try done;
    (apply settled_coherent; [done|apply reject_settled || apply resolve_settled]).
Qed.

Lemma tick_coherent m t : coherent m → coherent (Delegate.tick m t).
Proof.
  intros Hm. unfold Delegate.tick. destruct (_ && _); [|done].
  apply settled_coherent; [done|apply reject_settled].
Qed.

Lemma arrive_coherent m inc : coherent m → coherent (Delegate.arrive api m inc).
Proof.
  intros Hm. destruct inc as [n| |msg]; simpl.
  - destruct (Delegate.subscribed m); [by apply onStatus_coherent|done].
  - destruct Hm. by split.
  - apply settled_coherent; [done|apply reject_settled].
Qed.

Lemma deliver_coherent m ev :
  coherent m → coherent (Delegate.deliver api m ev).
Proof. intros Hm. by apply arrive_coherent, tick_coherent. Qed.

Lemma deliverAll_coherent trace m :
  coherent m → coherent (Delegate.deliverAll api m trace).
Proof.
  revert m. induction trace as [|ev trace IH]; intros m Hm; [done|].
  apply IH, deliver_coherent, Hm.
Qed.

(** A settled promise keeps its value. *)
Lemma onStatus_settled m n :
  Delegate.promise m ≠ Pending →
  Delegate.promise (Delegate.onStatus api m n) = Delegate.promise m.
Proof.
  intros Hset. unfold Delegate.onStatus.
  destruct (dispatchError n); simpl; [by apply reject_idem|].
  destruct (status n); simpl; try done;
    by (apply reject_idem || apply resolve_idem).
Qed.

Lemma tick_settled m t :
  Delegate.promise m ≠ Pending →
  Delegate.promise (Delegate.tick m t) = Delegate.promise m.
Proof.
  intros Hset. unfold Delegate.tick. destruct (_ && _); [|done].
  simpl. by apply reject_idem.
Qed.

Lemma arrive_settled m inc :
  Delegate.promise m ≠ Pending →
  Delegate.promise (Delegate.arrive api m inc) = Delegate.promise m.
Proof.
  intros Hset. destruct inc as [n| |msg]; simpl.
  - destruct (Delegate.subscribed m); [by apply onStatus_settled|done].
  - done.
  - by apply reject_idem.
Qed.

Lemma deliver_settled m ev :
  Delegate.promise m ≠ Pending →
  Delegate.promise (Delegate.deliver api m ev) = Delegate.promise m.
Proof.
  intros Hset. unfold Delegate.deliver.
  rewrite arrive_settled; rewrite tick_settled; done.
Qed.

Lemma deliverAll_settled trace m :
  Delegate.promise m ≠ Pending →
  Delegate.promise (Delegate.deliverAll api m trace) = Delegate.promise m.
Proof.
  revert m. induction trace as [|ev trace IH]; intros m Hset; [done|].
  simpl. rewrite IH; rewrite deliver_settled; done.
Qed.

Lemma expire_settled m :
  Delegate.promise m ≠ Pending →
  Delegate.promise (Delegate.expire m) = Delegate.promise m.
Proof.
  intros Hset. unfold Delegate.expire.
  destruct (Delegate.timerArmed m); [|done]. simpl. by apply reject_idem.
Qed.

Lemma deliverAll_app m pre post :
  Delegate.deliverAll api m (pre ++ post)
  = Delegate.deliverAll api (Delegate.deliverAll api m pre) post.
Proof. apply fold_left_app. Qed.

(** Once settled during the deliveries, the outcome of the monitor is fixed. *)
Lemma monitor_after pre post :
  Delegate.promise (Delegate.deliverAll api Delegate.initial pre) ≠ Pending →
  Delegate.promise (Delegate.monitor api (pre ++ post))
  = Delegate.promise (Delegate.deliverAll api Delegate.initial pre).
Proof.
  intros Hset. unfold Delegate.monitor. rewrite deliverAll_app.
  rewrite expire_settled; rewrite deliverAll_settled; done.
Qed.

(** The monitor of [delegate.js] always settles. *)
Lemma monitor_settles trace :
  Delegate.promise (Delegate.monitor api trace) ≠ Pending.
Proof.
  unfold Delegate.monitor, Delegate.expire.
  pose proof (deliverAll_coherent trace _ initial_coherent) as [Harm _].
  destruct (Delegate.timerArmed _) eqn:Ht.
  - simpl. apply reject_settled.
  - intros Hp. apply Harm in Hp. congruence.
Qed.

(** What a terminal arrival makes of a pending promise. *)
Definition verdict (inc : Incoming) : Promise :=
  match inc with
  | Notify n =>
      match dispatchError n with
      | Some e => Rejected (decodeDispatch api e)
      | None =>
          match status n with
          | Dropped => Rejected TxDropped
          | Invalid => Rejected TxInvalid
          | Usurped _ => Rejected TxUsurped
          | Finalized _ => Fulfilled
          | _ => Pending
          end
      end
  | SendErr msg => Rejected (SendFailure msg)
  | SendOk => Pending
  end.

Lemma verdict_terminal inc :
  terminal inc = true → verdict inc ≠ Pending ∧ verdict inc ≠ Rejected TxTimeout.
Proof.
  destruct inc as [n| |msg]; simpl; [|done|done].
  destruct (dispatchError n) as [[m|s]|]; simpl; [done|done|].
  by destruct (status n).
Qed.

Lemma tick_early m t :
  t < Delegate.TIMEOUT_MS → Delegate.tick m t = m.
Proof.
  intros Ht. unfold Delegate.tick.
  rewrite (bool_decide_eq_false_2 (Delegate.TIMEOUT_MS ≤ t)) by lia.
  by rewrite andb_false_r.
Qed.

Lemma tick_late m t :
  coherent m → Delegate.promise m = Pending → Delegate.TIMEOUT_MS ≤ t →
  Delegate.promise (Delegate.tick m t) = Rejected TxTimeout.
Proof.
  intros [Harm _] Hp Ht. unfold Delegate.tick.
  rewrite (proj2 Harm Hp), bool_decide_eq_true_2 by done. simpl. by rewrite Hp.
Qed.

(** A pending promise takes the verdict of the arrival. *)
Lemma arrive_pending m inc :
  coherent m → Delegate.promise m = Pending →
  Delegate.promise (Delegate.arrive api m inc) = verdict inc.
Proof.
  intros [_ Hsub] Hp. destruct inc as [n| |msg]; simpl; [|done|by rewrite Hp].
  rewrite (Hsub Hp). unfold Delegate.onStatus.
  destruct (dispatchError n); simpl; [by rewrite Hp|].
  destruct (status n); simpl; by rewrite ?Hp.
Qed.

Lemma verdict_not_terminal inc : terminal inc = false → verdict inc = Pending.
Proof.
  destruct inc as [n| |msg]; simpl; [|done|done].
  destruct (dispatchError n); simpl; [done|].
  by destruct (status n).
Qed.

Lemma deliver_in_time m ev :
  coherent m → Delegate.promise m = Pending → ev.1 < Delegate.TIMEOUT_MS →
  Delegate.promise (Delegate.deliver api m ev) = verdict ev.2.
Proof.
  intros Hm Hp Ht. unfold Delegate.deliver.
  rewrite tick_early by done. by apply arrive_pending.
Qed.

Lemma deliver_late m ev :
  coherent m → Delegate.promise m = Pending → Delegate.TIMEOUT_MS ≤ ev.1 →
  Delegate.promise (Delegate.deliver api m ev) = Rejected TxTimeout.
Proof.
  intros Hm Hp Ht. unfold Delegate.deliver.
  rewrite arrive_settled; rewrite tick_late; done.
Qed.

(** While nothing terminal arrives in time, the promise stays pending. *)
Lemma deliverAll_quiet pre m :
  coherent m → Delegate.promise m = Pending →
  (∀ ev, ev ∈ pre → ev.1 < Delegate.TIMEOUT_MS ∧ terminal ev.2 = false) →
  Delegate.promise (Delegate.deliverAll api m pre) = Pending.
Proof.
  revert m. induction pre as [|ev pre IH]; intros m Hm Hp Hquiet; [done|].
  simpl. destruct (Hquiet ev) as [Ht Hnt]; [by left|].
  apply IH; [by apply deliver_coherent| |intros ev' Hev'; apply Hquiet; by right].
  rewrite deliver_in_time by done. by apply verdict_not_terminal.
Qed.

(** The first terminal arrival in time decides the outcome. *)
Lemma monitor_first_terminal pre ev post :
  Delegate.promise (Delegate.deliverAll api Delegate.initial pre) = Pending →
  ev.1 < Delegate.TIMEOUT_MS → terminal ev.2 = true →
  Delegate.promise (Delegate.monitor api (pre ++ ev :: post)) = verdict ev.2.
Proof.
  intros Hp Ht Hterm.
  assert (Hdel : Delegate.promise
                   (Delegate.deliverAll api Delegate.initial (pre ++ [ev]))
                 = verdict ev.2).
  { rewrite deliverAll_app. simpl.
    apply deliver_in_time; [|done|done].
    apply deliverAll_coherent, initial_coherent. }
  replace (pre ++ ev :: post) with ((pre ++ [ev]) ++ post)
    by (by rewrite <- app_assoc).
  rewrite monitor_after; rewrite Hdel; [done|].
  by apply verdict_terminal.
Qed.

(** The outcome of a time-ordered trace, from any pending state. *)
Lemma expire_timeout_iff trace m :
  StronglySorted (λ a b : Z * Incoming, a.1 ≤ b.1) trace →
  coherent m → Delegate.promise m = Pending →
  Delegate.promise (Delegate.expire (Delegate.deliverAll api m trace))
    = Rejected TxTimeout
  ↔ ∀ ev, ev ∈ trace → ev.1 < Delegate.TIMEOUT_MS → terminal ev.2 = false.
Proof.
  intros Hsorted. revert m.
  induction Hsorted as [|ev trace Hrest IH Hle]; intros m Hm Hp.
  - simpl. unfold Delegate.expire. rewrite (proj2 (proj1 Hm) Hp). simpl.
    rewrite Hp. split; [|done]. intros _ ev Hev. by apply elem_of_nil in Hev.
  - simpl.
    destruct (decide (ev.1 < Delegate.TIMEOUT_MS)) as [Ht|Ht].
    + destruct (terminal ev.2) eqn:Hterm.
      * (* settled in time, for good *)
        pose proof (verdict_terminal _ Hterm) as [Hv1 Hv2].
        rewrite expire_settled; rewrite deliverAll_settled;
          rewrite deliver_in_time; try done.
        split; [done|]. intros Hquiet.
        specialize (Hquiet ev (list_elem_of_here _ _) Ht). congruence.
      * rewrite IH.
        -- split; intros Hquiet ev' Hev'.
           ++ apply elem_of_cons in Hev' as [->|Hev']; [done|by apply Hquiet].
           ++ apply Hquiet. by right.
        -- by apply deliver_coherent.
        -- rewrite deliver_in_time by done. by apply verdict_not_terminal.
    + (* the timer fires before this arrival *)
      rewrite expire_settled; rewrite deliverAll_settled;
        rewrite deliver_late; try done; try lia.
      split; [|done]. intros _ ev' Hev' Ht'.
      apply elem_of_cons in Hev' as [->|Hev']; [lia|].
      rewrite Forall_forall in Hle. specialize (Hle ev' Hev'). simpl in Hle. lia.
Qed.

(** ** [governance-cleanup.js] *)

Definition isFinalized (inc : Incoming) : bool :=
  match inc with
  | Notify n => match status n with Finalized _ => true | _ => false end
  | _ => false
  end.

Lemma cleanup_onStatus_settled m n :
  Cleanup.promise m ≠ Pending →
  Cleanup.promise (Cleanup.onStatus api m n) = Cleanup.promise m.
Proof.
  intros Hset. unfold Cleanup.onStatus.
  destruct (status n); simpl; try done.
  destruct (dispatchError n); simpl; by (apply reject_idem || apply resolve_idem).
Qed.

Lemma cleanup_fold_settled trace m :
  Cleanup.promise m ≠ Pending →
  Cleanup.promise (fold_left (Cleanup.deliver api) trace m) = Cleanup.promise m.
Proof.
  revert m. induction trace as [|ev trace IH]; intros m Hset; [done|].
  simpl. assert (Hstep : Cleanup.promise (Cleanup.deliver api m ev) = Cleanup.promise m).
  { unfold Cleanup.deliver. destruct ev.2; [by apply cleanup_onStatus_settled|done..]. }
  rewrite IH; rewrite Hstep; done.
Qed.

Lemma cleanup_fold_waiting trace m :
  Cleanup.promise m = Pending →
  (∀ ev, ev ∈ trace → isFinalized ev.2 = false) →
  Cleanup.promise (fold_left (Cleanup.deliver api) trace m) = Pending.
Proof.
  revert m. induction trace as [|ev trace IH]; intros m Hp Hnone; [done|].
  simpl. apply IH; [|intros ev' Hev'; apply Hnone; by right].
  specialize (Hnone ev (list_elem_of_here _ _)).
  unfold Cleanup.deliver. destruct ev.2 as [n| |msg]; [|done..].
  unfold Cleanup.onStatus. simpl in Hnone. by destruct (status n).
Qed.

(** The cleanup monitor settles on the first [Finalized] notification, by
    its [dispatchError] alone. *)
Lemma cleanup_first_finalized pre t n hash post :
  (∀ ev, ev ∈ pre → isFinalized ev.2 = false) →
  status n = Finalized hash →
  Cleanup.promise (Cleanup.monitor api (pre ++ (t, Notify n) :: post))
  = match dispatchError n with
    | Some e => Rejected (decodeDispatch api e)
    | None => Fulfilled
    end.
Proof.
  intros Hpre Hfin. unfold Cleanup.monitor.
  rewrite fold_left_app. simpl.
  pose proof (cleanup_fold_waiting pre {| Cleanup.promise := Pending; Cleanup.log := [] |}
                eq_refl Hpre) as Hp.
  set (m := fold_left _ pre _) in *.
  assert (Hstep : Cleanup.promise (Cleanup.deliver api m (t, Notify n))
                  = match dispatchError n with
                    | Some e => Rejected (decodeDispatch api e)
                    | None => Fulfilled
                    end).
  { unfold Cleanup.deliver, Cleanup.onStatus. simpl. rewrite Hfin.
    destruct (dispatchError n); simpl; by rewrite Hp. }
  rewrite cleanup_fold_settled; rewrite Hstep; [done|].
  by destruct (dispatchError n).
Qed.

Lemma cleanup_never_times_out trace :
  Cleanup.promise (Cleanup.monitor api trace) ≠ Rejected TxTimeout.
Proof.
  unfold Cleanup.monitor.
  assert (Hgen : ∀ m, Cleanup.promise m ≠ Rejected TxTimeout →
    Cleanup.promise (fold_left (Cleanup.deliver api) trace m) ≠ Rejected TxTimeout).
  { induction trace as [|ev trace IH]; intros m Hm; [done|].
    simpl. apply IH. unfold Cleanup.deliver.
    destruct ev.2 as [n| |msg]; [|done..].
    unfold Cleanup.onStatus. destruct (status n); simpl; try done.
    destruct (dispatchError n) as [[module|s]|]; simpl;
      by destruct (Cleanup.promise m). }
  by apply Hgen.
Qed.

(** C1, as the scripts have it.  In [delegate.js] a notification that
    carries a dispatch error and is handled while the submission is
    pending settles it as a dispatch failure, which no later notification
    changes, [Finalized] included; the failure carries the decoded
    (section, name, docs) of a module error and the string form of any
    other error; the events of an [InBlock] notification without dispatch
    error are printed and settle nothing.  In [governance-cleanup.js] the
    dispatch error is read on a [Finalized] notification only: the first
    one settles the submission, as a dispatch failure if it carries a
    dispatch error and as a success otherwise. *)
Theorem dispatch_error_outcome :
  (∀ pre t n e post,
     Delegate.promise (Delegate.deliverAll api Delegate.initial pre) = Pending →
     t < Delegate.TIMEOUT_MS →
     dispatchError n = Some e →
     Delegate.promise (Delegate.monitor api (pre ++ (t, Notify n) :: post))
     = Rejected (decodeDispatch api e))
  ∧ (∀ m, decodeDispatch api (IsModule m) = DispatchModule (findMetaError api m)
          ∧ message (decodeDispatch api (IsModule m))
            = me_section (findMetaError api m) +:+ "."
                +:+ me_name (findMetaError api m) +:+ ": "
                +:+ join " " (me_docs (findMetaError api m)))
  ∧ (∀ s, decodeDispatch api (NotModule s) = DispatchOther s)
  ∧ (∀ m n hash,
       dispatchError n = None → status n = InBlock hash →
       Delegate.promise (Delegate.arrive api m (Notify n)) = Delegate.promise m)
  ∧ (∀ pre t n hash post,
       (∀ ev, ev ∈ pre → isFinalized ev.2 = false) →
       status n = Finalized hash →
       Cleanup.promise (Cleanup.monitor api (pre ++ (t, Notify n) :: post))
       = match dispatchError n with
         | Some e => Rejected (decodeDispatch api e)
         | None => Fulfilled
         end).
Proof.
  split_and!.
  - intros pre t n e post Hp Ht He.
    rewrite (monitor_first_terminal pre (t, Notify n) post Hp Ht).
    + simpl. by rewrite He.
    + simpl. rewrite He. by rewrite bool_decide_eq_true_2.
  - done.
  - done.
  - intros m n hash He Hst. simpl. unfold Delegate.onStatus.
    rewrite He, Hst. by destruct (Delegate.subscribed m).
  - apply cleanup_first_finalized.
Qed.

(** C2, as the scripts have it.  In [delegate.js] a timer of 120000 ms is
    armed at submission and is no longer armed once a terminal arrival has
    been handled; on a time-ordered trace the submission ends as timed out
    exactly when no terminal arrival comes before the deadline, and a
    [Finalized] notification without dispatch error that comes before the
    deadline, nothing terminal before it, settles the submission as
    finalized; whatever arrives, the submission ends settled.  The promise
    of [governance-cleanup.js] has no timer: it is never settled as timed
    out and stays pending until a [Finalized] notification arrives. *)
Theorem deadline_timer :
  (Delegate.TIMEOUT_MS = 120000 ∧ Delegate.timerArmed Delegate.initial = true)
  ∧ (∀ trace, Delegate.promise (Delegate.monitor api trace) ≠ Pending)
  ∧ (∀ pre ev,
       terminal ev.2 = true →
       Delegate.timerArmed (Delegate.deliverAll api Delegate.initial (pre ++ [ev]))
       = false)
  ∧ (∀ trace,
       Sorted (λ a b : Z * Incoming, a.1 ≤ b.1) trace →
       Delegate.promise (Delegate.monitor api trace) = Rejected TxTimeout
       ↔ ∀ ev, ev ∈ trace → ev.1 < Delegate.TIMEOUT_MS → terminal ev.2 = false)
  ∧ (∀ pre t n hash post,
       (∀ ev, ev ∈ pre → ev.1 < Delegate.TIMEOUT_MS ∧ terminal ev.2 = false) →
       t < Delegate.TIMEOUT_MS →
       status n = Finalized hash → dispatchError n = None →
       Delegate.promise (Delegate.monitor api (pre ++ (t, Notify n) :: post))
       = Fulfilled)
  ∧ (∀ trace, Cleanup.promise (Cleanup.monitor api trace) ≠ Rejected TxTimeout)
  ∧ (∀ trace,
       (∀ ev, ev ∈ trace → isFinalized ev.2 = false) →
       Cleanup.promise (Cleanup.monitor api trace) = Pending).
Proof.
  split_and!.
  - done.
  - done.
  - apply monitor_settles.
  - intros pre ev Hterm. rewrite deliverAll_app. simpl.
    pose proof (deliverAll_coherent pre _ initial_coherent) as Hm.
    set (m := Delegate.deliverAll api Delegate.initial pre) in *.
    pose proof (deliver_coherent m ev Hm) as [Harm _].
    destruct (Delegate.timerArmed (Delegate.deliver api m ev)) eqn:Ht; [|done].
    exfalso. apply proj1 in Harm. specialize (Harm eq_refl). revert Harm.
    assert (Hcases : Delegate.promise m = Pending ∨ Delegate.promise m ≠ Pending)
      by (destruct (Delegate.promise m); by eauto).
    destruct Hcases as [Hp|Hp].
    + destruct (decide (ev.1 < Delegate.TIMEOUT_MS)).
      * rewrite deliver_in_time by done. by apply verdict_terminal.
      * rewrite deliver_late by (done || lia). done.
    + rewrite deliver_settled by done. done.
  - intros trace Hsorted. apply expire_timeout_iff; [|apply initial_coherent|done].
    apply Sorted_StronglySorted; [|done]. intros a b c. lia.
  - intros pre t n hash post Hquiet Ht Hst He.
    rewrite (monitor_first_terminal pre (t, Notify n) post).
    + simpl. by rewrite He, Hst.
    + by apply deliverAll_quiet; [apply initial_coherent|..].
    + done.
    + simpl. by rewrite He, Hst.
  - apply cleanup_never_times_out.
  - intros trace Hnone. by apply cleanup_fold_waiting.
Qed.
End Monitors.

(** ** Examples of submissions *)

Section SubmissionExamples.
Import Chain Common.

Definition alreadyDelegating : MetaError :=
  {| me_section := "convictionVoting"; me_name := "AlreadyDelegating";
     me_docs := ["The account is already delegating."] |}.

(** A registry that knows one module error. *)
Definition exampleApi : Api := {| findMetaError := λ _, alreadyDelegating |}.

Definition moduleFailure : DispatchError := IsModule {| me_index := 20; me_error := 1 |}.

Definition ready : Notification :=
  {| status := Ready; events := []; dispatchError := None |}.

Definition inBlockFailed : Notification :=
  {| status := InBlock "0xaa"; events := [ExtrinsicFailed moduleFailure];
     dispatchError := Some moduleFailure |}.

Definition inBlockOk : Notification :=
  {| status := InBlock "0xbb";
     events := [OtherEvent "convictionVoting" "Delegated"];
     dispatchError := None |}.

Definition finalizedOk : Notification :=
  {| status := Finalized "0xbb"; events := []; dispatchError := None |}.

(** The extrinsic fails in a first block and, after that block is
    abandoned, is finalized in another one where it succeeds. *)
Definition failedThenFinalized : Trace :=
  [ (1000, SendOk); (2000, Notify ready); (6000, Notify inBlockFailed);
    (12000, Notify inBlockOk); (30000, Notify finalizedOk) ].

(** A submission that is included and finalized within half a minute. *)
Definition finalizedInTime : Trace :=
  [ (1000, SendOk); (2000, Notify ready); (12000, Notify inBlockOk);
    (30000, Notify finalizedOk) ].

(** A submission about which the chain stays silent. *)
Definition silent : Trace := [ (1000, SendOk); (2000, Notify ready) ].

(** The cleanup script reports success for a submission whose in-block
    notification carried [ExtrinsicFailed] and a dispatch error. *)
Lemma cleanup_ignores_in_block_failure :
  status inBlockFailed = InBlock "0xaa"
  ∧ ExtrinsicFailed moduleFailure ∈ events inBlockFailed
  ∧ (6000, Notify inBlockFailed) ∈ failedThenFinalized
  ∧ Cleanup.promise (Cleanup.monitor exampleApi failedThenFinalized) = Fulfilled.
Proof. split_and!; [done|repeat constructor|repeat constructor|done]. Qed.

Lemma dispatch_error_outcome_witness :
  Delegate.promise (Delegate.monitor exampleApi failedThenFinalized)
  = Rejected (DispatchModule alreadyDelegating)
  ∧ Delegate.promise (Delegate.arrive exampleApi Delegate.initial (Notify inBlockOk))
    = Pending
  ∧ Cleanup.promise (Cleanup.monitor exampleApi finalizedInTime) = Fulfilled.
Proof.
  destruct (dispatch_error_outcome exampleApi)
    as (Hdelegate & _ & _ & Hprinted & Hcleanup).
  split_and!.
  - apply (Hdelegate [(1000, SendOk); (2000, Notify ready)] 6000 inBlockFailed
             moduleFailure [(12000, Notify inBlockOk); (30000, Notify finalizedOk)]);
      [reflexivity|reflexivity|reflexivity].
  - apply (Hprinted Delegate.initial inBlockOk "0xbb"); reflexivity.
  - apply (Hcleanup [(1000, SendOk); (2000, Notify ready); (12000, Notify inBlockOk)]
             30000 finalizedOk "0xbb" []); [|reflexivity].
    intros ev Hev. repeat (apply elem_of_cons in Hev as [->|Hev]; [reflexivity|]).
    by apply elem_of_nil in Hev.
Defined.

(** Nothing terminal reaches the cleanup script, and yet its submission is
    not timed out: it is pending for ever. *)
Lemma cleanup_has_no_deadline :
  ¬ (Cleanup.promise (Cleanup.monitor exampleApi silent) = Rejected TxTimeout
     ↔ ∀ ev, ev ∈ silent → ev.1 < Delegate.TIMEOUT_MS → terminal ev.2 = false).
Proof.
  intros [_ Hclaim].
  assert (Hpending : Cleanup.promise (Cleanup.monitor exampleApi silent) = Pending)
    by reflexivity.
  rewrite Hclaim in Hpending; [done|].
  intros ev Hev _. repeat (apply elem_of_cons in Hev as [->|Hev]; [reflexivity|]).
  by apply elem_of_nil in Hev.
Qed.

Lemma deadline_timer_witness :
  Delegate.promise (Delegate.monitor exampleApi silent) = Rejected TxTimeout
  ∧ Delegate.promise (Delegate.monitor exampleApi finalizedInTime) = Fulfilled
  ∧ Delegate.timerArmed (Delegate.deliverAll exampleApi Delegate.initial finalizedInTime)
    = false
  ∧ Cleanup.promise (Cleanup.monitor exampleApi silent) = Pending.
Proof.
  destruct (deadline_timer exampleApi)
    as (_ & _ & Hcancel & Hiff & Hfinal & _ & Hwaits).
  assert (Hsilent : ∀ ev, ev ∈ silent → terminal ev.2 = false ∧ isFinalized ev.2 = false).
  { intros ev Hev. repeat (apply elem_of_cons in Hev as [->|Hev]; [by split|]).
    by apply elem_of_nil in Hev. }
  split_and!.
  - apply Hiff.
    + repeat (constructor; try done).
    + intros ev Hev _. by apply Hsilent.
  - apply (Hfinal [(1000, SendOk); (2000, Notify ready); (12000, Notify inBlockOk)]
             30000 finalizedOk "0xbb" []); [|reflexivity..].
    intros ev Hev. repeat (apply elem_of_cons in Hev as [->|Hev]; [by split|]).
    by apply elem_of_nil in Hev.
  - apply (Hcancel [(1000, SendOk); (2000, Notify ready); (12000, Notify inBlockOk)]
             (30000, Notify finalizedOk)). reflexivity.
  - apply Hwaits. intros ev Hev. by apply Hsilent.
Defined.
End SubmissionExamples.

(* ===================================================================== *)
(** * The static tables of [delegate.js]                                  *)
(* ===================================================================== *)

Section DelegateTables.
Import Common.

(** The enumerated conviction levels: the keys of [CONVICTION_MULTIPLIERS]. *)
Definition convictionLevels : list string :=
  ["None"; "Locked1x"; "Locked2x"; "Locked3x"; "Locked4x"; "Locked5x"; "Locked6x"].

Lemma conviction_level_known c :
  c ∈ convictionLevels →
  getProp Delegate.CONVICTION_MULTIPLIERS c ≠ Undefined.
Proof.
  intros Hc. unfold convictionLevels in Hc.
  repeat (apply elem_of_cons in Hc as [->|Hc]; [done|]).
  by apply elem_of_nil in Hc.
Qed.

Lemma conviction_unknown c :
  c ∉ convictionLevels → c ∉ objectPrototypeNames →
  getProp Delegate.CONVICTION_MULTIPLIERS c = Undefined.
Proof.
  intros Hlevel Hproto. unfold getProp, Delegate.CONVICTION_MULTIPLIERS.
  rewrite (not_elem_of_list_to_map_1 _ c) by exact Hlevel.
  by rewrite bool_decide_eq_false_2.
Qed.

(** Both networks of the table submit four calls per batch and have 12 or
    10 decimals. *)
Lemma delegate_networks name network :
  getProp Delegate.NETWORKS name = Own network →
  Delegate.maxTracksPerBatch network = 4%nat
  ∧ (Delegate.decimals network = 12 ∨ Delegate.decimals network = 10).
Proof.
  unfold getProp. destruct (Delegate.NETWORKS !! name) as [v|] eqn:Hlook.
  - intros [= ->]. apply elem_of_list_to_map_2 in Hlook.
    apply elem_of_cons in Hlook as [[= _ ->]|Hlook]; [split; [done|by left]|].
    apply elem_of_cons in Hlook as [[= _ ->]|Hlook]; [split; [done|by right]|].
    by apply elem_of_nil in Hlook.
  - by case_bool_decide.
Qed.
End DelegateTables.

(* ===================================================================== *)
(** * Failed batches                                                      *)
(* ===================================================================== *)

Section Batches.
Import Chain Common.
Variable api : Api.

(** ** [delegate.js]: the loop goes on after a failure *)

Definition delegateExtrinsic (account : string) (batch : list Delegate.CallItem)
    : Extrinsic :=
  ProxyBatchAll account (map Delegate.call batch).

Definition delegateOutcome (responses : nat → Trace) (j : nat) : Promise :=
  Delegate.promise (Delegate.monitor api (responses j)).

Lemma delegate_submitLoop_spec account responses total batches :
  ∀ i r,
    let r' := Delegate.submitLoop api account responses total i batches r in
    Delegate.submitted r'
    = Delegate.submitted r ++ map (delegateExtrinsic account) batches
    ∧ Delegate.awaited r'
      = Delegate.awaited r ++ map (delegateOutcome responses) (seq i (length batches))
    ∧ (∀ line, line ∈ Delegate.console r → line ∈ Delegate.console r')
    ∧ (∀ j e, (i ≤ j < i + length batches)%nat →
         delegateOutcome responses j = Rejected e →
         ("  Transaction error: " +:+ message e) ∈ Delegate.console r').
Proof.
  induction batches as [|batch rest IH]; intros i r; simpl.
  - rewrite !app_nil_r. split_and!; [done|done|done|]. intros j e Hj. lia.
  - match goal with
    | |- context [Delegate.submitLoop _ _ _ _ (S i) rest ?r1] =>
        destruct (IH (S i) r1) as (Hsub & Haw & Hkeep & Herr); clear IH
    end.
    rewrite Hsub, Haw. simpl. rewrite <- !app_assoc. simpl.
    split_and!; [done|done| |].
    + intros line Hline. apply Hkeep. simpl. apply elem_of_app. by left.
    + intros j e Hj Hrej. destruct (decide (j = i)) as [->|Hne].
      * apply Hkeep. simpl. unfold delegateOutcome in Hrej. rewrite Hrej.
        repeat (rewrite ?elem_of_app, ?elem_of_cons). tauto.
      * apply (Herr j e); [lia|done].
Qed.


(** ** [governance-cleanup.js]: the loop stops at the first failure *)




End Batches.

(** ** A run of the cleanup script whose first batch fails *)

Section FailedBatchExample.
Import Chain Common.

(** The extrinsic is finalized in a block where it failed. *)
Definition finalizedFailed : Trace :=
  [ (1000, SendOk);
    (6000, Notify {| status := InBlock "0xaa";
                     events := [ExtrinsicFailed moduleFailure];
                     dispatchError := Some moduleFailure |});
    (30000, Notify {| status := Finalized "0xaa";
                      events := [ExtrinsicFailed moduleFailure];
                      dispatchError := Some moduleFailure |}) ].

(** Six delegations to undo: two batches. *)
Definition sixDelegations : list (Z * Voting) :=
  map (λ t, (t, Delegating "delegate" "Locked1x" 650000000000000)) [0; 1; 2; 10; 11; 12].

Definition cleanupConfig : Cleanup.Config :=
  {| Cleanup.network := Some "kusama"; Cleanup.account := Some "account";
     Cleanup.keyfile := Some "proxy.txt"; Cleanup.useMnemonic := false;
     Cleanup.dryRun := false; Cleanup.unlockOnly := false |}.

(** The first submission fails; any later one would be finalized in time. *)
Definition firstBatchFails : Cleanup.World :=
  {| Cleanup.keyfileExists := true;
     Cleanup.votingEntries := sixDelegations;
     Cleanup.headBlock := 100;
     Cleanup.classLocks := [];
     Cleanup.answer := "yes";
     Cleanup.responses := λ i, match i with O => finalizedFailed | _ => finalizedInTime end |}.

Definition kusamaCleanup : Cleanup.NetworkConfig :=
  {| Cleanup.name := "Kusama Asset Hub";
     Cleanup.endpoint := "wss://sys.ibp.network:443/asset-hub-kusama";
     Cleanup.ss58Format := 2; Cleanup.maxTracksPerBatch := 4;
     Cleanup.decimals := 12; Cleanup.symbol := "KSM" |}.



(** A run of [delegate.js] on the sixteen tracks whose first batch is
    dropped. *)
Definition delegateArgs : Delegate.Args :=
  {| Delegate.account := "account"; Delegate.keyfile := "proxy.txt";
     Delegate.delegateTo := "delegate"; Delegate.balanceAmount := Float64.ofZ 650;
     Delegate.conviction := "Locked5x"; Delegate.dryRun := false;
     Delegate.networkName := "kusama"; Delegate.trackIndices := [] |}.

Definition dropped : Trace :=
  [ (1000, SendOk);
    (3000, Notify {| status := Dropped; events := []; dispatchError := None |}) ].

Definition firstBatchDropped : Delegate.World :=
  {| Delegate.keyfileExists := true; Delegate.answer := "yes";
     Delegate.responses := λ i, match i with O => dropped | _ => finalizedInTime end |}.

Definition kusamaDelegate : Delegate.NetworkConfig :=
  {| Delegate.name := "Kusama Asset Hub";
     Delegate.endpoint := "wss://sys.ibp.network:443/asset-hub-kusama";
     Delegate.decimals := 12; Delegate.symbol := "KSM"; Delegate.ss58Format := 2;
     Delegate.baseLockDays := 7; Delegate.maxTracksPerBatch := 4 |}.

Definition droppedRun : Delegate.MainRun :=
  Delegate.main exampleApi delegateArgs firstBatchDropped.

End FailedBatchExample.

(* ===================================================================== *)
(** * The balance of a delegation                                         *)
(* ===================================================================== *)

(** ** Doubles that hold integers exactly *)

Section ExactDoubles.
Import Float64.








End ExactDoubles.

(** ** Validation and plan of [delegate.js] *)

Section DelegatePlan.
Import Chain Common.
Variable api : Api.

Definition delegateOp (delegateTo conviction : string) (planck : Z) (t : Z) : Call :=
  Delegate t delegateTo conviction planck.

Lemma buildDelegateCalls_calls tracks delegateTo conviction planck :
  map Delegate.call (Delegate.buildDelegateCalls tracks delegateTo conviction planck)
  = map (delegateOp delegateTo conviction planck) tracks.
Proof. unfold Delegate.buildDelegateCalls. rewrite map_map. done. Qed.

(** Past the two table lookups and the conversion of the amount, [main]
    connects and, the key file being there, builds one call per track. *)
Lemma main_plans a w network planck :
  getProp Delegate.NETWORKS (Delegate.networkName a) = Own network →
  Delegate.conviction a ∈ convictionLevels →
  Delegate.balancePlanck (Delegate.balanceAmount a) network = Some planck →
  Delegate.keyfileExists w = true →
  Delegate.connected (Delegate.main api a w) = true
  ∧ Delegate.calls (Delegate.main api a w)
    = Delegate.buildDelegateCalls (Delegate.tracksOf a) (Delegate.delegateTo a)
        (Delegate.conviction a) planck.
Proof.
  intros Hnet Hconv%conviction_level_known Hplanck Hkey.
  unfold Delegate.main. rewrite Hnet.
  destruct (getProp Delegate.CONVICTION_MULTIPLIERS (Delegate.conviction a));
    [| |done]; rewrite Hplanck, Hkey; simpl;
    (destruct (Delegate.dryRun a); [done|]);
    (destruct (negb _); [done|]);
    by destruct (chunkArray _ _).
Qed.



(** C5, as the script has it.  Before any chain interaction [delegate.js]
    rejects, with exit code 1, a conviction that is not a property of the
    conviction table: the seven enumerated levels are accepted, and a string
    that is neither a level nor a name inherited from [Object.prototype] is
    rejected.  The track list and the amount are not validated: for an
    enumerated level, once the amount has been converted to an integer, the
    script connects and builds one [Delegate] per requested track, in the
    order given and repeated tracks included. *)
Theorem delegate_validation :
  (∀ a w,
     getProp Delegate.CONVICTION_MULTIPLIERS (Delegate.conviction a) = Undefined →
     Delegate.ending (Delegate.main api a w) = ExitCode 1
     ∧ Delegate.connected (Delegate.main api a w) = false
     ∧ Delegate.calls (Delegate.main api a w) = []
     ∧ Delegate.sent (Delegate.main api a w) = [])
  ∧ (∀ c, c ∈ convictionLevels →
          getProp Delegate.CONVICTION_MULTIPLIERS c ≠ Undefined)
  ∧ (∀ c, c ∉ convictionLevels → c ∉ objectPrototypeNames →
          getProp Delegate.CONVICTION_MULTIPLIERS c = Undefined)
  ∧ (∀ a w network planck,
       getProp Delegate.NETWORKS (Delegate.networkName a) = Own network →
       Delegate.conviction a ∈ convictionLevels →
       Delegate.balancePlanck (Delegate.balanceAmount a) network = Some planck →
       Delegate.keyfileExists w = true →
       Delegate.connected (Delegate.main api a w) = true
       ∧ map Delegate.call (Delegate.calls (Delegate.main api a w))
         = map (delegateOp (Delegate.delegateTo a) (Delegate.conviction a) planck)
             (Delegate.tracksOf a)).
Proof.
  split_and!.
  - intros a w Hconv. unfold Delegate.main. rewrite Hconv.
    by destruct (getProp Delegate.NETWORKS (Delegate.networkName a)).
  - apply conviction_level_known.
  - apply conviction_unknown.
  - intros a w network planck Hnet Hconv Hplanck Hkey.
    destruct (main_plans a w network planck Hnet Hconv Hplanck Hkey) as [Hconn ->].
    by rewrite buildDelegateCalls_calls.
Qed.

End DelegatePlan.

(** ** Runs of [delegate.js] *)

Section DelegateExamples.
Import Chain Common.

(** [delegate.js account proxy.txt delegate 0 Locked1x --track 5 --track 5 --dry-run] *)
Definition repeatedTrackArgs : Delegate.Args :=
  {| Delegate.account := "account"; Delegate.keyfile := "proxy.txt";
     Delegate.delegateTo := "delegate"; Delegate.balanceAmount := Float64.ofZ 0;
     Delegate.conviction := "Locked1x"; Delegate.dryRun := true;
     Delegate.networkName := "kusama"; Delegate.trackIndices := [5; 5] |}.

Definition repeatedTrackRun : Delegate.MainRun :=
  Delegate.main exampleApi repeatedTrackArgs firstBatchDropped.

(** A repeated track and a zero amount are not rejected: the script
    connects and plans two delegations of nothing on track 5. *)
Lemma delegate_accepts_repeated_track_and_zero :
  ¬ NoDup (Delegate.trackIndices repeatedTrackArgs)
  ∧ Delegate.connected repeatedTrackRun = true
  ∧ map Delegate.call (Delegate.calls repeatedTrackRun)
    = [ Delegate 5 "delegate" "Locked1x" 0; Delegate 5 "delegate" "Locked1x" 0 ]
  ∧ Delegate.ending repeatedTrackRun = ExitCode 0.
Proof.
  split_and!; [|reflexivity..].
  intros Hnd. apply NoDup_cons in Hnd as [Hnotin _]. apply Hnotin. by left.
Qed.

(** [... delegate 650 Locked7x]: a conviction that does not exist. *)
Definition unknownConvictionArgs : Delegate.Args :=
  {| Delegate.account := "account"; Delegate.keyfile := "proxy.txt";
     Delegate.delegateTo := "delegate"; Delegate.balanceAmount := Float64.ofZ 650;
     Delegate.conviction := "Locked7x"; Delegate.dryRun := false;
     Delegate.networkName := "kusama"; Delegate.trackIndices := [] |}.

Lemma delegate_validation_witness :
  (Delegate.ending (Delegate.main exampleApi unknownConvictionArgs firstBatchDropped)
   = ExitCode 1
   ∧ Delegate.connected (Delegate.main exampleApi unknownConvictionArgs firstBatchDropped)
     = false)
  ∧ getProp Delegate.CONVICTION_MULTIPLIERS "Locked3x" ≠ Undefined
  ∧ map Delegate.call (Delegate.calls repeatedTrackRun)
    = map (delegateOp "delegate" "Locked1x" 0) [5; 5].
Proof.
  destruct (delegate_validation exampleApi) as (Hreject & Hlevel & Hundef & Hplan).
  split; [|split].
  - destruct (Hreject unknownConvictionArgs firstBatchDropped) as (Hend & Hconn & _).
    + apply Hundef; vm_compute; intros Hin;
        apply list_elem_of_In in Hin; simpl in Hin; intuition discriminate.
    + by split.
  - apply Hlevel. repeat constructor.
  - apply (Hplan repeatedTrackArgs firstBatchDropped kusamaDelegate 0);
      [reflexivity|repeat constructor|reflexivity|reflexivity].
Defined.


End DelegateExamples.

(* ===================================================================== *)
(** * The command line of governance-cleanup.js                           *)
(* ===================================================================== *)

Section CleanupCommandLine.
Import Chain Common Cleanup.

(** A command line, option by option: an option that takes a value comes
    with it, [short] tells which of its two spellings is used, and [Word]
    is a word that is no option. *)
Inductive CliOption : Type :=
| OptNetwork (short : bool) (value : string)
| OptAccount (short : bool) (value : string)
| OptKeyfile (short : bool) (value : string)
| OptMnemonic (short : bool)
| OptDryRun (short : bool)
| OptUnlockOnly (short : bool)
| Word (word : string).

Definition optionWords : list string :=
  [ "--network"; "-n"; "--account"; "-a"; "--keyfile"; "-k"; "--mnemonic"; "-m";
    "--dry-run"; "-d"; "--unlock-only"; "-u"; "--help"; "-h" ].

Definition spelled (short : bool) (long abbreviated : string) : string :=
  if short then abbreviated else long.

Definition words (o : CliOption) : list string :=
  match o with
  | OptNetwork short value => [spelled short "--network" "-n"; value]
  | OptAccount short value => [spelled short "--account" "-a"; value]
  | OptKeyfile short value => [spelled short "--keyfile" "-k"; value]
  | OptMnemonic short => [spelled short "--mnemonic" "-m"]
  | OptDryRun short => [spelled short "--dry-run" "-d"]
  | OptUnlockOnly short => [spelled short "--unlock-only" "-u"]
  | Word word => [word]
  end.

(** What one option does to the configuration. *)
Definition applyOption (c : Config) (o : CliOption) : Config :=
  match o with
  | OptNetwork _ value => setNetwork (Some (toLowerCase value)) c
  | OptAccount _ value => setAccount (Some value) c
  | OptKeyfile _ value => setKeyfile (Some value) c
  | OptMnemonic _ => setUseMnemonic c
  | OptDryRun _ => setDryRun c
  | OptUnlockOnly _ => setUnlockOnly c
  | Word _ => c
  end.

Definition plainWord (o : CliOption) : Prop :=
  match o with
  | Word word => word ∉ optionWords
  | _ => True
  end.

Lemma isOption_other arg long short :
  arg ∉ optionWords → long ∈ optionWords → short ∈ optionWords →
  isOption arg long short = false.
Proof.
  intros Harg Hlong Hshort. unfold isOption.
  rewrite !bool_decide_eq_false_2; [done| |]; intros ->; done.
Qed.

Lemma parseLoop_option o rest c :
  plainWord o → parseLoop (words o ++ rest) c = parseLoop rest (applyOption c o).
Proof.
  destruct o as [[]|[]|[]|[]|[]|[]|word]; try (intros _; reflexivity).
  intros Hword. simpl in *.
  assert (Hno : ∀ long short, long ∈ optionWords → short ∈ optionWords →
                 isOption word long short = false)
    by (intros; by apply isOption_other).
  rewrite !Hno; [done|..]; unfold optionWords;
    rewrite !elem_of_cons; repeat first [by left | right].
Qed.

Lemma parseLoop_words (options : list CliOption) (rest : list string) (c : Config) :
  Forall plainWord options →
  parseLoop (flat_map words options ++ rest) c
  = parseLoop rest (fold_left applyOption options c).
Proof.
  intros Hplain. revert c.
  induction Hplain as [|o options Ho _ IH]; intros c; [done|].
  simpl. rewrite <- app_assoc, parseLoop_option by done. apply IH.
Qed.


End CleanupCommandLine.


(* ===================================================================== *)
(** * What the cleanup plan holds                                         *)
(* ===================================================================== *)

Section CleanupPlanContent.
Import Chain Common Cleanup.

(** The plan of a run, as calls, from what the chain answers. *)
Definition cleanupPlan (entries : list (Z * Voting)) (currentBlock : Z)
    (classLocks : list (Z * Z)) (account : string) (unlockOnly : bool) : list Call :=
  let info := getVotingInfo entries currentBlock classLocks in
  planCalls (buildCleanupCalls (delegations info) (votes info) (priorLocks info)
               account unlockOnly).

(** The voting of a track holds a prior lock that has expired. *)
Definition expiredLock (currentBlock : Z) (voting : Voting) : Prop :=
  ∃ castVotes unlockBlock amount rest,
    voting = Casting castVotes (Some (unlockBlock :: amount :: rest))
    ∧ 0 < unlockBlock ≤ currentBlock ∧ amount ≠ 0.

Lemma scanDelegation_track entries t :
  t ∈ map d_trackId (flat_map scanDelegation entries)
  ↔ ∃ target conviction balance, (t, Delegating target conviction balance) ∈ entries.
Proof.
  induction entries as [|[t' voting] entries IH]; simpl.
  - rewrite elem_of_nil. split; [done|]. intros (? & ? & ? & H). by apply elem_of_nil in H.
  - rewrite map_app, elem_of_app, IH. unfold scanDelegation. simpl.
    split.
    + intros [Hin|(a & b & c & Hin)].
      * destruct voting; simpl in Hin.
        -- apply elem_of_cons in Hin as [->|Hin]; [|by apply elem_of_nil in Hin].
           eexists _, _, _. by left.
        -- by apply elem_of_nil in Hin.
      * exists a, b, c. by right.
    + intros (a & b & c & Hin). apply elem_of_cons in Hin as [[= -> <-]|Hin].
      * left. simpl. by left.
      * right. eauto.
Qed.

Lemma scanVotes_pair entries t r :
  (t, r) ∈ map (λ v, (v_trackId v, v_refIndex v)) (flat_map scanVotes entries)
  ↔ ∃ castVotes prior, (t, Casting castVotes prior) ∈ entries ∧ r ∈ castVotes.
Proof.
  induction entries as [|[t' voting] entries IH]; simpl.
  - rewrite elem_of_nil. split; [done|]. intros (? & ? & H & _). by apply elem_of_nil in H.
  - rewrite map_app, elem_of_app, IH. unfold scanVotes. simpl.
    split.
    + intros [Hin|(a & b & Hin & Hr)].
      * destruct voting as [|castVotes prior]; simpl in Hin; [by apply elem_of_nil in Hin|].
        rewrite map_map in Hin. simpl in Hin.
        apply list_elem_of_In, in_map_iff in Hin as (r' & [= -> ->] & Hr).
        exists castVotes, prior. split; [by left|by apply list_elem_of_In].
      * exists a, b. split; [by right|done].
    + intros (a & b & Hin & Hr). apply elem_of_cons in Hin as [[= -> <-]|Hin].
      * left. simpl. rewrite map_map. simpl.
        apply list_elem_of_In, in_map_iff. exists r. split; [done|by apply list_elem_of_In].
      * right. eauto.
Qed.

Lemma scanPrior_expired currentBlock t trackName prior :
  t ∈ map l_trackId (List.filter isExpired (scanPrior currentBlock t trackName prior))
  ↔ ∃ unlockBlock amount rest,
      prior = Some (unlockBlock :: amount :: rest)
      ∧ 0 < unlockBlock ≤ currentBlock ∧ amount ≠ 0.
Proof.
  unfold scanPrior.
  destruct prior as [[|unlockBlock [|amount rest]]|]; simpl;
    try (rewrite elem_of_nil; split; [done|intros (? & ? & ? & [=] & _)]).
  destruct (bool_decide (unlockBlock > 0)) eqn:Hu; simpl;
    [destruct (bool_decide (amount = 0)) eqn:Ha; simpl|].
  - rewrite elem_of_nil. split; [done|].
    intros (? & ? & ? & [= <- <- <-] & _ & Hne).
    apply bool_decide_eq_true in Ha. done.
  - destruct (bool_decide (currentBlock >= unlockBlock)) eqn:Hc; simpl.
    + split; [|intros _; by left]. intros _.
      apply bool_decide_eq_true in Hu, Hc. apply bool_decide_eq_false in Ha.
      exists unlockBlock, amount, rest. split; [done|]. split; [lia|done].
    + rewrite elem_of_nil. split; [done|].
      intros (? & ? & ? & [= <- <- <-] & Hb & _).
      apply bool_decide_eq_false in Hc. lia.
  - rewrite elem_of_nil. split; [done|].
    intros (? & ? & ? & [= <- <- <-] & Hb & _).
    apply bool_decide_eq_false in Hu. lia.
Qed.

Lemma scanPrior_own currentBlock t trackName prior :
  Forall (λ lock, l_trackId lock = t) (scanPrior currentBlock t trackName prior).
Proof.
  unfold scanPrior. destruct prior as [[|unlockBlock [|amount rest]]|]; try constructor.
  destruct (_ && _); repeat constructor.
Qed.

Lemma scanLocks_expired currentBlock entries t :
  t ∈ expiredTracks (flat_map (scanLocks currentBlock) entries)
  ↔ ∃ voting, (t, voting) ∈ entries ∧ expiredLock currentBlock voting.
Proof.
  unfold expiredTracks.
  induction entries as [|[t' voting] entries IH]; simpl.
  - rewrite elem_of_nil. split; [done|]. intros (? & H & _). by apply elem_of_nil in H.
  - rewrite List.filter_app, map_app, elem_of_app, IH. unfold scanLocks. simpl.
    split.
    + intros [Hin|(v & Hin & Hexp)]; [|exists v; split; [by right|done]].
      destruct voting as [|castVotes prior]; simpl in Hin; [by apply elem_of_nil in Hin|].
      assert (t = t') as ->.
      { apply list_elem_of_In, in_map_iff in Hin as (lock & <- & Hlock).
        apply filter_In in Hlock as [Hlock _].
        pose proof (scanPrior_own currentBlock t' (trackNameOr ("Track " +:+ pretty t') t') prior) as Hown.
        rewrite Forall_forall in Hown. apply Hown. by apply list_elem_of_In. }
      apply scanPrior_expired in Hin as (u & a & rest & -> & Hu & Ha).
      exists (Casting castVotes (Some (u :: a :: rest))). split; [by left|].
      by exists castVotes, u, a, rest.
    + intros (v & Hin & Hexp). apply elem_of_cons in Hin as [[= -> <-]|Hin].
      * left. destruct Hexp as (castVotes & u & a & rest & -> & Hu & Ha).
        apply (proj2 (scanPrior_expired currentBlock t'
                        (trackNameOr ("Track " +:+ pretty t') t')
                        (Some (u :: a :: rest)))).
        by exists u, a, rest.
      * right. eauto.
Qed.

(** The operations of a plan built without [unlockOnly], by kind. *)
Lemma plan_content entries currentBlock classLocks account :
  let plan := cleanupPlan entries currentBlock classLocks account false in
  (∀ t, Undelegate t ∈ plan
        ↔ ∃ target conviction balance,
            (t, Delegating target conviction balance) ∈ entries)
  ∧ (∀ t r, RemoveVote t r ∈ plan
            ↔ ∃ castVotes prior, (t, Casting castVotes prior) ∈ entries ∧ r ∈ castVotes)
  ∧ (∀ t who, Unlock t who ∈ plan
              ↔ who = account
                ∧ ∃ voting, (t, voting) ∈ entries ∧ expiredLock currentBlock voting)
  ∧ (∀ t target conviction balance, Delegate t target conviction balance ∉ plan).
Proof.
  pose proof (getVotingInfo_lists entries currentBlock classLocks) as (Hd & Hv & Hl).
  simpl in *. unfold cleanupPlan. rewrite plan_order_spec, Hd, Hv, Hl.
  assert (Hun : ∀ (c : Call) (l : list Z), c ∈ map Undelegate l ↔ ∃ t, c = Undelegate t ∧ t ∈ l).
  { intros c l. rewrite list_elem_of_In, in_map_iff.
    split; intros (t & H1 & H2); exists t; (split; [done|by apply list_elem_of_In]). }
  assert (Hrm : ∀ (c : Call) votes (l : list Z),
            c ∈ flat_map (λ t, map (RemoveVote t) (refsOf t votes)) l
            ↔ ∃ t r, c = RemoveVote t r ∧ t ∈ l ∧ r ∈ refsOf t votes).
  { intros c votes l. rewrite list_elem_of_In, in_flat_map. split.
    - intros (t & Ht & Hin). apply in_map_iff in Hin as (r & <- & Hr).
      exists t, r. split_and!; [done|by apply list_elem_of_In..].
    - intros (t & r & -> & Ht & Hr). exists t. rewrite in_map_iff.
      split; [by apply list_elem_of_In|]. exists r. split; [done|by apply list_elem_of_In]. }
  assert (Hul : ∀ (c : Call) (l : list Z),
            c ∈ map (λ t, Unlock t account) l ↔ ∃ t, c = Unlock t account ∧ t ∈ l).
  { intros c l. rewrite list_elem_of_In, in_map_iff.
    split; intros (t & H1 & H2); exists t; (split; [done|by apply list_elem_of_In]). }
  assert (Hrefs : ∀ t r votes, r ∈ refsOf t votes
            ↔ (t, r) ∈ map (λ v, (v_trackId v, v_refIndex v)) votes).
  { intros t r votes. unfold refsOf. rewrite !list_elem_of_In, !in_map_iff. split.
    - intros (v & <- & Hin). apply filter_In in Hin as [Hin Ht].
      apply bool_decide_eq_true in Ht. exists v. by rewrite Ht.
    - intros (v & [= <- <-] & Hin). exists v. split; [done|].
      apply filter_In. split; [done|]. by apply bool_decide_eq_true. }
  split_and!.
  - intros t. rewrite !elem_of_app, Hun, Hrm, Hul.
    rewrite <- scanDelegation_track, <- (firstOccurrences_elem (map d_trackId _)).
    split; [|intros H; left; by exists t].
    intros [(t' & [= <-] & H)|[(? & ? & [=] & _)|(? & [=] & _)]]. done.
  - intros t r. rewrite !elem_of_app, Hun, Hrm, Hul.
    rewrite <- scanVotes_pair, <- Hrefs. split.
    + intros [(? & [=] & _)|[(t' & r' & [= <- <-] & _ & H)|(? & [=] & _)]]. done.
    + intros H. right. left. exists t, r. split_and!; [done| |done].
      apply firstOccurrences_elem, elem_of_app. right.
      apply Hrefs in H. apply list_elem_of_In, in_map_iff in H as (v & [= <- _] & Hin).
      apply list_elem_of_In, in_map. done.
  - intros t who. rewrite !elem_of_app, Hun, Hrm, Hul.
    rewrite <- scanLocks_expired, <- (firstOccurrences_elem (expiredTracks _)). split.
    + intros [(? & [=] & _)|[(? & ? & [=] & _)|(t' & [= <- <-] & H)]]. done.
    + intros [-> H]. right. right. by exists t.
  - intros t target conviction balance. rewrite !elem_of_app, Hun, Hrm, Hul.
    intros [(? & [=] & _)|[(? & ? & [=] & _)|(? & [=] & _)]].
Qed.

(** A plan is empty when no entry asks for an operation. *)
Lemma plan_empty entries currentBlock classLocks account unlockOnly :
  cleanupPlan entries currentBlock classLocks account unlockOnly = []
  ↔ ∀ t voting, (t, voting) ∈ entries →
      ¬ expiredLock currentBlock voting
      ∧ (unlockOnly = false → ∃ prior, voting = Casting [] prior).
Proof.
  destruct unlockOnly.
  - unfold cleanupPlan. rewrite buildCleanupCalls_groups, tracksToUnlock_spec. simpl.
    pose proof (getVotingInfo_lists entries currentBlock classLocks) as (_ & _ & Hl).
    simpl in Hl. rewrite Hl. split.
    + intros Hnil t voting Hin. split; [|done]. intros Hexp.
      assert (Ht : t ∈ firstOccurrences
                     (expiredTracks (flat_map (scanLocks currentBlock) entries))).
      { apply firstOccurrences_elem, scanLocks_expired. by exists voting. }
      destruct (firstOccurrences _); [by apply elem_of_nil in Ht|done].
    + intros Hnone.
      destruct (firstOccurrences _) as [|t ts] eqn:Hfirst; [done|].
      assert (Ht : t ∈ firstOccurrences
                     (expiredTracks (flat_map (scanLocks currentBlock) entries)))
        by (rewrite Hfirst; by left).
      apply firstOccurrences_elem, scanLocks_expired in Ht as (voting & Hin & Hexp).
      by destruct (Hnone t voting Hin).
  - pose proof (plan_content entries currentBlock classLocks account)
      as (Hun & Hrm & Hul & Hdel).
    cbv zeta in Hun, Hrm, Hul, Hdel. split.
    + intros Hnil t voting Hin. rewrite Hnil in Hun, Hrm, Hul. split.
      * intros Hexp. apply (not_elem_of_nil (Unlock t account)), Hul.
        split; [done|by exists voting].
      * intros _. destruct voting as [target conviction balance|[|r castVotes] prior].
        -- exfalso. apply (not_elem_of_nil (Undelegate t)), Hun. eauto.
        -- by exists prior.
        -- exfalso. apply (not_elem_of_nil (RemoveVote t r)), Hrm.
           eexists _, _. split; [done|by left].
    + intros Hnone.
      destruct (cleanupPlan entries currentBlock classLocks account false)
        as [|c plan] eqn:Hplan; [done|exfalso].
      assert (Hc : c ∈ c :: plan) by by left.
      destruct c as [t a b d|t|t r|t who].
      * by apply Hdel in Hc.
      * apply Hun in Hc as (a & b & d & Hin).
        destruct (Hnone _ _ Hin) as [_ [prior [=]]]; done.
      * apply Hrm in Hc as (castVotes & prior & Hin & Hr).
        destruct (Hnone _ _ Hin) as [_ [prior' Heq]]; [done|].
        injection Heq as -> _. by apply elem_of_nil in Hr.
      * apply Hul in Hc as (_ & voting & Hin & Hexp).
        by destruct (Hnone _ _ Hin).
Qed.

(** X2. The cleanup plan is exactly what the chain state calls for.
    Without [--unlock-only] it undelegates the tracks on which the account
    delegates and no other, and removes the votes the account has cast and
    no other; with [--unlock-only] it does neither.  Either way it unlocks
    for the account the tracks whose prior lock has expired and no other,
    and it never delegates. *)
Theorem cleanup_plan_content entries currentBlock classLocks account unlockOnly :
  let plan := cleanupPlan entries currentBlock classLocks account unlockOnly in
  (∀ t, Undelegate t ∈ plan
        ↔ unlockOnly = false
          ∧ ∃ target conviction balance,
              (t, Delegating target conviction balance) ∈ entries)
  ∧ (∀ t r, RemoveVote t r ∈ plan
            ↔ unlockOnly = false
              ∧ ∃ castVotes prior,
                  (t, Casting castVotes prior) ∈ entries ∧ r ∈ castVotes)
  ∧ (∀ t who, Unlock t who ∈ plan
              ↔ who = account
                ∧ ∃ voting, (t, voting) ∈ entries ∧ expiredLock currentBlock voting)
  ∧ (∀ t target conviction balance, Delegate t target conviction balance ∉ plan).
Proof.
  destruct unlockOnly.
  - assert (Hplan : cleanupPlan entries currentBlock classLocks account true
                    = map (λ t, Unlock t account)
                        (firstOccurrences
                           (expiredTracks (flat_map (scanLocks currentBlock) entries)))).
    { unfold cleanupPlan. rewrite buildCleanupCalls_groups, tracksToUnlock_spec.
      pose proof (getVotingInfo_lists entries currentBlock classLocks) as (_ & _ & Hl).
      simpl in Hl. by rewrite Hl. }
    cbv zeta. rewrite Hplan.
    assert (Hin : ∀ c : Call,
              c ∈ map (λ t, Unlock t account)
                    (firstOccurrences
                       (expiredTracks (flat_map (scanLocks currentBlock) entries)))
              ↔ ∃ t, c = Unlock t account
                     ∧ ∃ voting, (t, voting) ∈ entries ∧ expiredLock currentBlock voting).
    { intros c. rewrite list_elem_of_In, in_map_iff. split.
      - intros (t & <- & Ht). exists t. split; [done|].
        by apply scanLocks_expired, firstOccurrences_elem, list_elem_of_In.
      - intros (t & -> & Ht). exists t. split; [done|].
        by apply list_elem_of_In, firstOccurrences_elem, scanLocks_expired. }
    split_and!.
    + intros t. rewrite Hin. split; [by intros (? & [=] & _)|by intros [[=] _]].
    + intros t r. rewrite Hin. split; [by intros (? & [=] & _)|by intros [[=] _]].
    + intros t who. rewrite Hin. split.
      * by intros (t' & [= <- <-] & Ht).
      * intros [-> Ht]. by exists t.
    + intros t target conviction balance. rewrite Hin. by intros (? & [=] & _).
  - destruct (plan_content entries currentBlock classLocks account)
      as (Hun & Hrm & Hul & Hdel).
    split_and!; [| |done|done].
    + intros t. rewrite Hun. tauto.
    + intros t r. rewrite Hrm. tauto.
Qed.

End CleanupPlanContent.

(* ===================================================================== *)
(** * Runs of governance-cleanup.js                                       *)
(* ===================================================================== *)

Section CleanupRuns.
Import Chain Common.
Variable api : Api.

(** The calls an extrinsic carries. *)
Definition extrinsicCalls (x : Extrinsic) : list Call :=
  match x with ProxyBatchAll _ calls => calls end.

(** Both networks of the table submit four calls per batch. *)
Lemma cleanup_networks name networkConfig :
  getProp Cleanup.NETWORKS name = Own networkConfig →
  Cleanup.maxTracksPerBatch networkConfig = 4%nat.
Proof.
  unfold getProp. destruct (Cleanup.NETWORKS !! name) as [v|] eqn:Hlook.
  - intros [= ->]. apply elem_of_list_to_map_2 in Hlook.
    apply elem_of_cons in Hlook as [[= _ ->]|Hlook]; [done|].
    apply elem_of_cons in Hlook as [[= _ ->]|Hlook]; [done|].
    by apply elem_of_nil in Hlook.
  - by case_bool_decide.
Qed.


(** On a dry run the loop prints every operation of every batch, and
    neither submits nor fails. *)
Lemma cleanup_submitLoop_dry target responses total batches :
  ∀ i r,
    let r' := Cleanup.submitLoop api target true responses total i batches r in
    Cleanup.completion r' = Cleanup.completion r
    ∧ Cleanup.submitted r' = Cleanup.submitted r
    ∧ (∀ line, line ∈ Cleanup.console r → line ∈ Cleanup.console r')
    ∧ (∀ batch item, batch ∈ batches → item ∈ batch →
         ("  • " +:+ Cleanup.description item) ∈ Cleanup.console r').
Proof.
  induction batches as [|batch rest IH]; intros i r; simpl.
  - split_and!; [done|done|done|]. intros batch item Hin. by apply elem_of_nil in Hin.
  - match goal with
    | |- context [Cleanup.submitLoop _ _ _ _ _ (S i) rest ?r1] =>
        destruct (IH (S i) r1) as (Hc & Hs & Hkeep & Hall); clear IH
    end.
    rewrite Hc, Hs. simpl. split_and!; [done|done| |].
    + intros line Hline. apply Hkeep. simpl.
      rewrite !elem_of_app. by left; left.
    + intros b item Hb Hitem. apply elem_of_cons in Hb as [->|Hb]; [|by eapply Hall].
      apply Hkeep. simpl. rewrite !elem_of_app, elem_of_cons. left. right. right.
      apply list_elem_of_In, in_map_iff. exists item.
      split; [done|by apply list_elem_of_In].
Qed.

(** The batches of a non-empty plan, for a positive batch size. *)
Lemma cleanup_batches (calls : list Cleanup.CallItem) (size : nat) :
  (0 < size)%nat →
  ∃ batches,
    chunkArray calls size = Some batches
    ∧ Forall (λ c, (0 < length c ≤ size)%nat) batches
    ∧ concat batches = calls.
Proof.
  intros Hs.
  destruct (chunkLoop_spec calls size Hs (length calls) (length calls) 0%nat [])
    as (batches & Hrun & _ & Hall & Hcat & _); [lia|lia|].
  exists batches. split_and!; [done|done|]. by rewrite Hcat.
Qed.

(** X3. A dry run of the cleanup script on a network of the table, the key
    file being there, ends with exit code 0, sends no extrinsic, and prints
    the description of every operation of the plan; it neither asks for a
    confirmation nor depends on what the chain would answer to a
    submission. *)
Theorem cleanup_dry_run name networkConfig config w :
  getProp Cleanup.NETWORKS name = Own networkConfig →
  Cleanup.dryRun config = true →
  Cleanup.given (Cleanup.keyfile config) = true →
  Cleanup.keyfileExists w = true →
  let r := Cleanup.mainWith api networkConfig config w in
  Cleanup.ending r = ExitCode 0
  ∧ Cleanup.sent r = []
  ∧ (∀ item, item ∈ Cleanup.plan r →
       ("  • " +:+ Cleanup.description item) ∈ Cleanup.output r)
  ∧ (∀ answer responses,
       Cleanup.mainWith api networkConfig config
         {| Cleanup.keyfileExists := Cleanup.keyfileExists w;
            Cleanup.votingEntries := Cleanup.votingEntries w;
            Cleanup.headBlock := Cleanup.headBlock w;
            Cleanup.classLocks := Cleanup.classLocks w;
            Cleanup.answer := answer; Cleanup.responses := responses |} = r).
Proof.
  intros Hnet%cleanup_networks Hdry Hkey Hfile r.
  assert (Hrun : ∀ answer responses,
    Cleanup.mainWith api networkConfig config
      {| Cleanup.keyfileExists := Cleanup.keyfileExists w;
         Cleanup.votingEntries := Cleanup.votingEntries w;
         Cleanup.headBlock := Cleanup.headBlock w;
         Cleanup.classLocks := Cleanup.classLocks w;
         Cleanup.answer := answer; Cleanup.responses := responses |}
    = r ∧ Cleanup.ending r = ExitCode 0 ∧ Cleanup.sent r = []
      ∧ (∀ item, item ∈ Cleanup.plan r →
           ("  • " +:+ Cleanup.description item) ∈ Cleanup.output r)).
  { intros answer responses. unfold r, Cleanup.mainWith. simpl.
    rewrite Hkey, Hfile, Hdry. simpl.
    set (info := Cleanup.getVotingInfo _ _ _).
    set (calls := Cleanup.buildCleanupCalls _ _ _ _ _).
    destruct (bool_decide (length calls = 0%nat)) eqn:Hlen.
    { apply bool_decide_eq_true in Hlen. apply nil_length_inv in Hlen.
      split_and!; [done|done|done|]. simpl. rewrite Hlen.
      intros item Hin. by apply elem_of_nil in Hin. }
    unfold Cleanup.submitBatchViaProxy. rewrite Hnet.
    destruct (cleanup_batches calls 4 ltac:(lia)) as (batches & -> & _ & Hcat).
    match goal with
    | |- context [Cleanup.submitLoop api ?t true responses ?n 0 batches ?r0] =>
        destruct (cleanup_submitLoop_dry t responses n batches 0%nat r0)
          as (Hc1 & Hs1 & _ & _);
        destruct (cleanup_submitLoop_dry t (Cleanup.responses w) n batches 0%nat r0)
          as (Hc2 & Hs2 & _ & Hall)
    end.
    assert (Hsame : ∀ t total bs i r0,
              Cleanup.submitLoop api t true responses total i bs r0
              = Cleanup.submitLoop api t true (Cleanup.responses w) total i bs r0).
    { intros t total bs. induction bs as [|b bs IHb]; intros i r0; simpl; [done|].
      apply IHb. }
    rewrite Hsame, Hc2, Hs2. simpl. split_and!; [done|done|done|].
    intros item Hitem. rewrite <- Hcat in Hitem.
    apply list_elem_of_In, in_concat in Hitem as (batch & Hbatch & Hitem).
    apply elem_of_app. left. apply (Hall batch item); by apply list_elem_of_In. }
  destruct (Hrun (Cleanup.answer w) (Cleanup.responses w)) as (_ & Hend & Hsent & Hlines).
  split_and!; [done|done|done|]. intros answer responses. apply Hrun.
Qed.






(** X7. The key file being there, the plan of a cleanup run is empty
    exactly when the chain shows nothing to undo: no expired prior lock
    and, without [--unlock-only], neither a delegation nor a vote on any
    track.  The script then says so and ends with exit code 0, without
    asking for a confirmation and without sending anything. *)
Theorem cleanup_nothing_to_do networkConfig config w :
  Cleanup.given (Cleanup.keyfile config) = true →
  Cleanup.keyfileExists w = true →
  let r := Cleanup.mainWith api networkConfig config w in
  (Cleanup.plan r = []
   ↔ ∀ t voting, (t, voting) ∈ Cleanup.votingEntries w →
       ¬ expiredLock (Cleanup.headBlock w) voting
       ∧ (Cleanup.unlockOnly config = false → ∃ prior, voting = Casting [] prior))
  ∧ (Cleanup.plan r = [] →
     Cleanup.ending r = ExitCode 0 ∧ Cleanup.sent r = []
     ∧ "  Nothing to do!" ∈ Cleanup.output r).
Proof.
  intros Hkey Hfile r.
  pose proof (plan_empty (Cleanup.votingEntries w) (Cleanup.headBlock w)
                (Cleanup.classLocks w) (default EmptyString (Cleanup.account config))
                (Cleanup.unlockOnly config)) as Hempty.
  unfold cleanupPlan, planCalls in Hempty. cbv zeta in Hempty.
  set (info := Cleanup.getVotingInfo _ _ _) in Hempty.
  set (calls := Cleanup.buildCleanupCalls _ _ _ _ _) in Hempty.
  assert (Hplan : Cleanup.plan r = calls).
  { unfold r, Cleanup.mainWith. rewrite Hkey, Hfile. simpl. fold info. fold calls.
    destruct (bool_decide _); [done|]. destruct (_ && _); [done|].
    by destruct (Cleanup.completion _). }
  split.
  - rewrite Hplan, <- Hempty. split; [by intros ->|].
    by intros ?%map_eq_nil.
  - intros Hnil. rewrite Hplan in Hnil. unfold r, Cleanup.mainWith.
    rewrite Hkey, Hfile. simpl. fold info. fold calls. rewrite Hnil. simpl.
    split_and!; [done|done|by left].
Qed.

(** X8. [--help] or [-h] where an option is expected makes the cleanup
    script print the help and exit with code 0, whatever precedes and
    follows it on the command line: nothing is checked and nothing is
    sent. *)
Theorem cleanup_help (options : list CliOption) (short : bool) (rest : list string) w :
  Forall plainWord options →
  Cleanup.main api (flat_map words options ++ spelled short "--help" "-h" :: rest) w
  = Cleanup.Help.
Proof.
  intros Hplain. unfold Cleanup.main, Cleanup.parseArgs.
  rewrite parseLoop_words by done. by destruct short.
Qed.

(** X9. An option that takes a value and comes last on the command line
    leaves its setting undefined, whatever was given before: a trailing
    [--network] or [-n] makes the cleanup script refuse the command line
    with exit code 1 even after a valid [--network] option. *)
Theorem cleanup_trailing_network (options : list CliOption) (short : bool) w :
  Forall plainWord options →
  Cleanup.main api (flat_map words options ++ [spelled short "--network" "-n"]) w
  = Cleanup.Refused "Error: Must specify --network (polkadot or kusama)".
Proof.
  intros Hplain. unfold Cleanup.main, Cleanup.parseArgs.
  rewrite parseLoop_words by done. by destruct short.
Qed.




End CleanupRuns.

(* ===================================================================== *)
(** * Runs of delegate.js                                                 *)
(* ===================================================================== *)

Section DelegateRuns.
Import Chain Common.
Variable api : Api.

Lemma delegateExtrinsic_calls account (batches : list (list Delegate.CallItem)) :
  concat (map extrinsicCalls (map (delegateExtrinsic account) batches))
  = map Delegate.call (concat batches).
Proof.
  induction batches as [|batch batches IH]; simpl; [done|].
  by rewrite IH, map_app.
Qed.

(** A run of [delegate.js] sends nothing, or has passed every check and
    sends the batches of its plan. *)
Lemma delegate_main_sent a w :
  Delegate.sent (Delegate.main api a w) = [] ∨
  ∃ network planck batches,
    getProp Delegate.NETWORKS (Delegate.networkName a) = Own network
    ∧ getProp Delegate.CONVICTION_MULTIPLIERS (Delegate.conviction a) ≠ Undefined
    ∧ Delegate.balancePlanck (Delegate.balanceAmount a) network = Some planck
    ∧ Delegate.keyfileExists w = true
    ∧ Delegate.dryRun a = false
    ∧ toLowerCase (Delegate.answer w) = "yes"
    ∧ Forall (λ c, (0 < length c ≤ 4)%nat) batches
    ∧ concat batches
      = Delegate.buildDelegateCalls (Delegate.tracksOf a) (Delegate.delegateTo a)
          (Delegate.conviction a) planck
    ∧ Delegate.sent (Delegate.main api a w)
      = map (delegateExtrinsic (Delegate.account a)) batches.
Proof.
  unfold Delegate.main.
  destruct (getProp Delegate.NETWORKS (Delegate.networkName a)) as [network| |] eqn:Hnet;
    [|destruct (getProp Delegate.CONVICTION_MULTIPLIERS _); by left|by left].
  destruct (getProp Delegate.CONVICTION_MULTIPLIERS (Delegate.conviction a)) eqn:Hconv;
    [| |by left];
    (destruct (Delegate.balancePlanck _ _) as [planck|] eqn:Hplanck; [|by left]);
    (destruct (Delegate.keyfileExists w) eqn:Hkey; simpl; [|by left]);
    (destruct (Delegate.dryRun a) eqn:Hdry; [by left|]);
    (destruct (bool_decide (toLowerCase (Delegate.answer w) = "yes")) eqn:Hyes;
       simpl; [|by left]);
    rewrite (proj1 (delegate_networks _ _ Hnet));
    set (calls := Delegate.buildDelegateCalls _ _ _ _);
    (destruct (chunkLoop_spec calls 4 ltac:(lia) (length calls) (length calls) 0%nat [])
       as (batches & Hchunks & _ & Hall & Hcat & _); [lia|lia|]);
    fold (chunkArray calls 4) in Hchunks; simpl in Hchunks, Hcat;
    rewrite Hchunks; simpl;
    (destruct (delegate_submitLoop_spec api (Delegate.account a) (Delegate.responses w)
                 (length batches) batches 0%nat
                 {| Delegate.awaited := []; Delegate.submitted := [];
                    Delegate.console :=
                      ["Submitting " +:+ pretty (length batches) +:+ " batch(es)..."] |})
       as (Hsub & _));
    right; exists network, planck, batches;
    apply bool_decide_eq_true in Hyes;
    (split_and!; [done|done|done|done|done|done|done|by rewrite Hcat|done]).
Qed.

(** X11. Whatever the arguments and whatever the chain answers, an
    extrinsic that [delegate.js] sends was asked for and confirmed: the run
    is no dry run, the answer to the prompt was [yes], and the extrinsic is
    a proxied batch for the account of one to four [Delegate] operations,
    each on a requested track, to the requested delegate, with the
    requested conviction and with the one balance computed from the
    amount. *)
Theorem delegate_sends_only_the_plan a w x :
  x ∈ Delegate.sent (Delegate.main api a w) →
  Delegate.dryRun a = false
  ∧ toLowerCase (Delegate.answer w) = "yes"
  ∧ ∃ network planck calls,
      getProp Delegate.NETWORKS (Delegate.networkName a) = Own network
      ∧ Delegate.balancePlanck (Delegate.balanceAmount a) network = Some planck
      ∧ x = ProxyBatchAll (Delegate.account a) calls
      ∧ (0 < length calls ≤ 4)%nat
      ∧ ∀ c, c ∈ calls →
          ∃ t, t ∈ Delegate.tracksOf a
               ∧ c = Delegate t (Delegate.delegateTo a) (Delegate.conviction a) planck.
Proof.
  intros Hx.
  destruct (delegate_main_sent a w)
    as [Hnil|(network & planck & batches & Hnet & _ & Hplanck & _ & Hdry & Hyes
              & Hall & Hcat & Hsent)].
  { rewrite Hnil in Hx. by apply elem_of_nil in Hx. }
  rewrite Hsent in Hx. apply list_elem_of_In, in_map_iff in Hx as (batch & <- & Hbatch).
  split_and!; [done|done|].
  exists network, planck, (map Delegate.call batch).
  split_and!; [done|done|done| | |].
  - rewrite length_map. rewrite Forall_forall in Hall. by apply Hall, list_elem_of_In.
  - rewrite length_map. rewrite Forall_forall in Hall. by apply Hall, list_elem_of_In.
  - intros c Hc. apply list_elem_of_In, in_map_iff in Hc as (item & <- & Hitem).
    assert (Hin : In item (concat batches)) by (apply in_concat; by exists batch).
    rewrite Hcat in Hin. unfold Delegate.buildDelegateCalls in Hin.
    apply in_map_iff in Hin as (t & <- & Ht).
    exists t. split; [by apply list_elem_of_In|done].
Qed.

(** X12. A run of [delegate.js] that passes the checks and is confirmed
    submits the whole plan whatever becomes of the submissions: one
    [Delegate] per requested track, each once and in the order of the
    tracks, in ceil(N/4) extrinsics (written [(N + 3) / 4]); it ends with
    exit code 0. *)
Theorem delegate_submits_every_track a w network planck :
  getProp Delegate.NETWORKS (Delegate.networkName a) = Own network →
  getProp Delegate.CONVICTION_MULTIPLIERS (Delegate.conviction a) ≠ Undefined →
  Delegate.balancePlanck (Delegate.balanceAmount a) network = Some planck →
  Delegate.keyfileExists w = true →
  Delegate.dryRun a = false →
  toLowerCase (Delegate.answer w) = "yes" →
  let r := Delegate.main api a w in
  concat (map extrinsicCalls (Delegate.sent r))
  = map (delegateOp (Delegate.delegateTo a) (Delegate.conviction a) planck)
      (Delegate.tracksOf a)
  ∧ length (Delegate.sent r) = ((length (Delegate.tracksOf a) + 3) / 4)%nat
  ∧ length (Delegate.outcomes r) = length (Delegate.sent r)
  ∧ Delegate.ending r = ExitCode 0.
Proof.
  intros Hnet Hconv Hplanck Hkey Hdry Hyes r. unfold r, Delegate.main.
  rewrite Hnet.
  set (calls := Delegate.buildDelegateCalls (Delegate.tracksOf a)
                  (Delegate.delegateTo a) (Delegate.conviction a) planck).
  destruct (chunkLoop_spec calls 4 ltac:(lia) (length calls) (length calls) 0%nat [])
    as (batches & Hchunks & Hcount & _ & Hcat & _); [lia|lia|].
  fold (chunkArray calls 4) in Hchunks. simpl in Hchunks.
  rewrite drop_0 in Hcat. rewrite Nat.sub_0_r in Hcount.
  destruct (delegate_submitLoop_spec api (Delegate.account a) (Delegate.responses w)
              (length batches) batches 0%nat
              {| Delegate.awaited := []; Delegate.submitted := [];
                 Delegate.console :=
                   ["Submitting " +:+ pretty (length batches) +:+ " batch(es)..."] |})
    as (Hsub & Haw & _).
  assert (Hlen : length calls = length (Delegate.tracksOf a))
    by (unfold calls, Delegate.buildDelegateCalls; by rewrite length_map).
  destruct (getProp Delegate.CONVICTION_MULTIPLIERS (Delegate.conviction a));
    [| |done]; rewrite Hplanck, Hkey, Hdry, Hyes; simpl;
    rewrite (proj1 (delegate_networks _ _ Hnet)); fold calls; rewrite Hchunks; simpl;
    rewrite Hsub, Haw; simpl;
    rewrite delegateExtrinsic_calls, Hcat, !length_map, length_seq, Hcount, Hlen;
    unfold calls; rewrite buildDelegateCalls_calls;
    (split_and!; [done| |done|done]);
    replace (length (Delegate.tracksOf a) + 4 - 1)%nat
      with (length (Delegate.tracksOf a) + 3)%nat by lia; reflexivity.
Qed.

(** X13. A dry run of [delegate.js] sends nothing and waits for nothing:
    it ends with an exit code, never asks for a confirmation and does not
    depend on what the chain would answer to a submission.  When the
    arguments pass the checks and the key file is there, it ends with exit
    code 0 after building the plan of the real run. *)
Theorem delegate_dry_run a w :
  Delegate.dryRun a = true →
  let r := Delegate.main api a w in
  Delegate.sent r = [] ∧ Delegate.outcomes r = []
  ∧ (∃ code, Delegate.ending r = ExitCode code)
  ∧ (∀ answer responses,
       Delegate.main api a
         {| Delegate.keyfileExists := Delegate.keyfileExists w;
            Delegate.answer := answer; Delegate.responses := responses |} = r)
  ∧ (∀ network planck,
       getProp Delegate.NETWORKS (Delegate.networkName a) = Own network →
       getProp Delegate.CONVICTION_MULTIPLIERS (Delegate.conviction a) ≠ Undefined →
       Delegate.balancePlanck (Delegate.balanceAmount a) network = Some planck →
       Delegate.keyfileExists w = true →
       Delegate.ending r = ExitCode 0
       ∧ map Delegate.call (Delegate.calls r)
         = map (delegateOp (Delegate.delegateTo a) (Delegate.conviction a) planck)
             (Delegate.tracksOf a)).
Proof.
  intros Hdry r. unfold r, Delegate.main. rewrite Hdry.
  destruct (getProp Delegate.NETWORKS (Delegate.networkName a)) as [network| |] eqn:Hnet.
  - destruct (getProp Delegate.CONVICTION_MULTIPLIERS (Delegate.conviction a)) eqn:Hconv;
      [| |split_and!; [done|done|eauto|done|intros; congruence]];
      (destruct (Delegate.balancePlanck _ _) as [planck|] eqn:Hplanck;
         [|split_and!; [done|done|eauto|done|intros; congruence]]);
      (destruct (Delegate.keyfileExists w) eqn:Hkey; simpl;
         [|split_and!; [done|done|eauto|done|intros; congruence]]);
      (split_and!; [done|done|eauto|done|]);
      intros network' planck' [= <-] _ Hp _;
      rewrite Hplanck in Hp; injection Hp as <-;
      by rewrite buildDelegateCalls_calls.
  - destruct (getProp Delegate.CONVICTION_MULTIPLIERS (Delegate.conviction a));
      (split_and!; [done|done|eauto|done|intros; congruence]).
  - split_and!; [done|done|eauto|done|intros; congruence].
Qed.

(** X14. An amount that is no number ([NaN], as [parseFloat] returns for a
    text that does not start with one) or is infinite cannot be converted
    to an integer: for a network and a conviction that pass the checks the
    script stops on the exception before it connects, sends nothing, and
    the process ends with exit code 0. *)
Theorem delegate_amount_not_a_number a w network :
  getProp Delegate.NETWORKS (Delegate.networkName a) = Own network →
  getProp Delegate.CONVICTION_MULTIPLIERS (Delegate.conviction a) ≠ Undefined →
  Delegate.balanceAmount a = S754_nan
  ∨ (∃ s, Delegate.balanceAmount a = S754_infinity s) →
  let r := Delegate.main api a w in
  Delegate.ending r = ExitCode 0 ∧ Delegate.connected r = false
  ∧ Delegate.calls r = [] ∧ Delegate.sent r = [].
Proof.
  intros Hnet Hconv Hamount r.
  assert (Hnone : Delegate.balancePlanck (Delegate.balanceAmount a) network = None).
  { unfold Delegate.balancePlanck.
    destruct (delegate_networks _ _ Hnet) as [_ [-> | ->]];
      destruct Hamount as [-> | [[] ->]]; reflexivity. }
  unfold r, Delegate.main. rewrite Hnet.
  destruct (getProp Delegate.CONVICTION_MULTIPLIERS (Delegate.conviction a));
    [| |done]; by rewrite Hnone.
Qed.

End DelegateRuns.

(* ===================================================================== *)
(** * The command line of delegate.js                                     *)
(* ===================================================================== *)

Section DelegateCommandLine.
Import Chain Common Delegate.
Variable parseFloat : string → spec_float.
Variable parseInt : string → spec_float.





Lemma indexOf_absent (args : list string) (x : string) :
  x ∉ args → indexOf args x = None.
Proof.
  induction args as [|y args IH]; simpl; intros Hnot; [done|].
  rewrite bool_decide_eq_false_2 by (intros ->; apply Hnot; by left).
  rewrite IH by (intros Hin; apply Hnot; by right). done.
Qed.





Lemma indexOf_snoc (args : list string) (word x : string) :
  indexOf (args ++ [word]) x
  = match indexOf args x with
    | Some i => Some i
    | None => if bool_decide (word = x) then Some (length args) else None
    end.
Proof.
  induction args as [|y args IH]; simpl; [by destruct (bool_decide _)|].
  destruct (bool_decide (y = x)); [done|]. rewrite IH.
  destruct (indexOf args x); [done|]. by destruct (bool_decide _).
Qed.

Lemma indexOf_bound (args : list string) (x : string) i :
  indexOf args x = Some i → args !! i = Some x.
Proof.
  revert i. induction args as [|y args IH]; simpl; intros i; [done|].
  case_bool_decide as Hy; [by intros [= <-]; rewrite Hy|].
  destruct (indexOf args x); [|done]. intros [= <-]. by apply IH.
Qed.

Lemma trackOptions_snoc (args : list string) (word : string) :
  last args ≠ Some "--track" →
  trackOptions parseInt (args ++ [word]) = trackOptions parseInt args.
Proof.
  induction args as [|y [|z args] IH]; intros Hlast.
  - simpl. by rewrite andb_false_r.
  - simpl. rewrite !andb_false_r. simpl.
    rewrite (bool_decide_eq_false_2 (y = "--track")) by (simpl in Hlast; congruence).
    done.
  - change (trackOptions parseInt ((y :: z :: args) ++ [word]))
      with ((if bool_decide (y = "--track") && truthy (Some z)
             then [parseInt z] else [])
            ++ trackOptions parseInt ((z :: args) ++ [word])).
    by rewrite IH.
Qed.

(** X16. A word added at the end of the command line of [delegate.js]
    changes nothing, unless it is [--help], [-h] or [--dry-run] or comes
    right after a [--network] or [--track] that was the last word: a
    trailing [--network] or [--track] without a value is ignored without
    a message, and so is [--all-tracks]. *)
Theorem delegate_trailing_word (args : list string) (word : string) :
  (5 ≤ length args)%nat →
  last args ≠ Some "--network" → last args ≠ Some "--track" →
  word ∉ ["--help"; "-h"; "--dry-run"] →
  parseArgs parseFloat parseInt (args ++ [word]) = parseArgs parseFloat parseInt args.
Proof.
  intros Hlen Hnet Htrack Hword. rewrite !elem_of_cons, elem_of_nil in Hword.
  assert (Hinc : ∀ x : string, word ≠ x → includes (args ++ [word]) x = includes args x).
  { intros x Hx. unfold includes. apply bool_decide_ext.
    rewrite elem_of_app, elem_of_cons, elem_of_nil. logic. }
  assert (Hnetwork : networkOption (args ++ [word]) = networkOption args).
  { unfold networkOption. rewrite indexOf_snoc.
    destruct (indexOf args "--network") as [i|] eqn:Hidx.
    - assert (Hi : (S i < length args)%nat).
      { pose proof (indexOf_bound _ _ _ Hidx) as Hi.
        pose proof (lookup_lt_Some _ _ _ Hi) as Hlt.
        destruct (decide (S i = length args)) as [Heq|]; [|lia].
        exfalso. apply Hnet. rewrite last_lookup, <- Heq. done. }
      by rewrite lookup_app_l.
    - case_bool_decide; [|done]. rewrite lookup_ge_None_2; [done|].
      rewrite length_app. simpl. lia. }
  unfold parseArgs.
  rewrite !Hinc, Hnetwork, trackOptions_snoc by tauto.
  rewrite length_app. simpl (length [word]).
  rewrite (bool_decide_eq_false_2 (length args + 1 < 5)%nat) by lia.
  rewrite (bool_decide_eq_false_2 (length args < 5)%nat) by lia.
  destruct args as [|a1 [|a2 [|a3 [|a4 [|a5 rest]]]]]; simpl in Hlen; try lia.
  done.
Qed.


End DelegateCommandLine.

(* ===================================================================== *)
(** * The report of check-delegation.js                                   *)
(* ===================================================================== *)

Section StatusDisplay.
Import Chain Common Check.

(** [check-delegation.js], entry by entry. *)
Definition delegationOf (entry : Z * Voting) : list DelegationInfo :=
  match entry.2 with
  | Delegating target conviction balance =>
      [ {| trackId := entry.1;
           trackName := trackNameOr ("Track " +:+ pretty entry.1) entry.1;
           target := target; balance := balance; conviction := conviction |} ]
  | Casting _ _ => []
  end.

Definition votesOf (entry : Z * Voting) : list VoteInfo :=
  match entry.2 with
  | Delegating _ _ _ => []
  | Casting castVotes _ =>
      map (λ refIndex,
             {| v_trackId := entry.1;
                v_trackName := trackNameOr ("Track " +:+ pretty entry.1) entry.1;
                v_refIndex := refIndex |}) castVotes
  end.

(** The loop invariant of the tally: the two arrays grow entry by entry
    and each counter is the length of its array. *)
Lemma tally_from (entries : list (Z * Voting)) (t : Tally) :
  let t' := fold_left tallyEntry entries t in
  delegations t' = delegations t ++ flat_map delegationOf entries
  ∧ votes t' = votes t ++ flat_map votesOf entries
  ∧ delegationCount t' = delegationCount t
                         + Z.of_nat (length (flat_map delegationOf entries))
  ∧ voteCount t' = voteCount t + Z.of_nat (length (flat_map votesOf entries)).
Proof.
  revert t. induction entries as [|[track voting] entries IH]; intros t; simpl.
  - rewrite !app_nil_r. split_and!; [done|done|lia|lia].
  - destruct (IH (tallyEntry t (track, voting))) as (Hd & Hv & Hdc & Hvc).
    rewrite Hd, Hv, Hdc, Hvc. unfold delegationOf, votesOf.
    destruct voting as [target conviction balance|castVotes prior]; simpl;
      rewrite <- ?app_assoc, ?app_nil_r, ?length_app, ?length_map; simpl;
      (split_and!; [done|done|lia|lia]).
Qed.

Lemma insertByTrack_perm d sorted : Permutation (insertByTrack d sorted) (d :: sorted).
Proof.
  induction sorted as [|e sorted IH]; simpl; [done|].
  case_bool_decide; [done|]. rewrite IH. apply perm_swap.
Qed.

Lemma sortByTrack_perm delegations : Permutation (sortByTrack delegations) delegations.
Proof.
  induction delegations as [|d delegations IH]; simpl; [done|].
  rewrite insertByTrack_perm. by constructor.
Qed.

Lemma insertByTrack_sorted d sorted :
  StronglySorted (λ a b, trackId a ≤ trackId b) sorted →
  StronglySorted (λ a b, trackId a ≤ trackId b) (insertByTrack d sorted).
Proof.
  induction 1 as [|e sorted Hsorted IH Hle]; simpl.
  - repeat constructor.
  - case_bool_decide as Hd.
    + constructor; [by constructor|]. constructor; [done|].
      eapply Forall_impl; [exact Hle|]. simpl. intros; lia.
    + constructor; [done|].
      rewrite (Forall_forall _ (insertByTrack d sorted)). intros x Hx.
      apply (elem_of_Permutation_proper _ _ _ (insertByTrack_perm d sorted)) in Hx.
      apply elem_of_cons in Hx as [->|Hx]; [lia|].
      rewrite Forall_forall in Hle. by apply Hle.
Qed.

Lemma sortByTrack_sorted delegations :
  StronglySorted (λ a b, trackId a ≤ trackId b) (sortByTrack delegations).
Proof.
  induction delegations as [|d delegations IH]; simpl; [constructor|].
  by apply insertByTrack_sorted.
Qed.

(** The sort keeps the delegations of one track in the order they had. *)
Lemma insertByTrack_filter t d sorted :
  StronglySorted (λ a b, trackId a ≤ trackId b) sorted →
  List.filter (λ e, bool_decide (trackId e = t)) (insertByTrack d sorted)
  = List.filter (λ e, bool_decide (trackId e = t)) (d :: sorted).
Proof.
  induction 1 as [|e sorted Hsorted IH Hle]; [done|].
  simpl. case_bool_decide as Hd; [done|].
  simpl. rewrite IH. simpl.
  destruct (bool_decide (trackId d = t)) eqn:Hdt; [|done].
  destruct (bool_decide (trackId e = t)) eqn:Het; [|done].
  apply bool_decide_eq_true in Hdt, Het. lia.
Qed.

Lemma sortByTrack_stable t delegations :
  List.filter (λ e, bool_decide (trackId e = t)) (sortByTrack delegations)
  = List.filter (λ e, bool_decide (trackId e = t)) delegations.
Proof.
  induction delegations as [|d delegations IH]; [done|].
  simpl sortByTrack. rewrite insertByTrack_filter by apply sortByTrack_sorted.
  simpl. by rewrite IH.
Qed.

(** X17. The counters of the report are the sizes of what it displays:
    the number in the header of the delegations and in the summary is the
    number of blocks displayed, which is the number of delegating tracks,
    and the number of direct votes is the number of votes cast on all
    tracks. *)
Theorem report_counters (entries : list (Z * Voting)) :
  let shown := report entries in
  delegationsHeader shown = Z.of_nat (length (delegationBlocks shown))
  ∧ tracksDelegated shown = Z.of_nat (length (flat_map delegationOf entries))
  ∧ votesHeader shown = Z.of_nat (length (flat_map votesOf entries))
  ∧ directVotes shown = Z.of_nat (length (flat_map votesOf entries)).
Proof.
  destruct (tally_from entries start) as (Hd & Hv & Hdc & Hvc).
  unfold report. simpl. fold (tally entries) in Hd, Hv, Hdc, Hvc.
  rewrite Hdc, Hvc, Hd. simpl.
  rewrite (Permutation_length (sortByTrack_perm _)).
  split_and!; done.
Qed.

(** X18. Whatever the order in which the chain returns the entries, the
    report displays the delegations by ascending track id, each delegating
    entry in one block, and entries of one track in the order they were
    returned. *)
Theorem report_delegations_sorted (entries : list (Z * Voting)) :
  let shown := report entries in
  Sorted Z.le (map trackId (delegationBlocks shown))
  ∧ delegationBlocks shown ≡ₚ flat_map delegationOf entries
  ∧ ∀ t, List.filter (λ d, bool_decide (trackId d = t)) (delegationBlocks shown)
         = List.filter (λ d, bool_decide (trackId d = t)) (flat_map delegationOf entries).
Proof.
  destruct (tally_from entries start) as (Hd & _).
  unfold report. simpl. fold (tally entries) in Hd. rewrite Hd. simpl.
  split_and!.
  - apply StronglySorted_Sorted.
    generalize (sortByTrack_sorted (flat_map delegationOf entries)).
    induction 1 as [|d l Hl IH Hle]; simpl; constructor; [done|].
    by apply Forall_fmap.
  - apply sortByTrack_perm.
  - intros t. apply sortByTrack_stable.
Qed.

(** The referendum indices voted on track [t], in the order of [votes]. *)
Definition votedOn (t : Z) (votes : list VoteInfo) : list Z :=
  map v_refIndex (List.filter (λ v, bool_decide (v_trackId v = t)) votes).

Lemma votedOn_snoc t votes vote :
  votedOn t (votes ++ [vote])
  = votedOn t votes ++ (if bool_decide (v_trackId vote = t) then [v_refIndex vote] else []).
Proof.
  unfold votedOn. rewrite List.filter_app, map_app. simpl.
  by destruct (bool_decide _).
Qed.

Lemma votedOn_absent t votes : t ∉ map v_trackId votes → votedOn t votes = [].
Proof.
  unfold votedOn. induction votes as [|v votes IH]; simpl; intros Hnot; [done|].
  rewrite bool_decide_eq_false_2 by (intros Heq; apply Hnot; rewrite Heq; by left).
  apply IH. intros Hin. apply Hnot. by right.
Qed.

(** The [Map] of the display, as a table over the tracks voted on. *)
Lemma groupVotes_spec votes :
  groupVotes votes
  = tabulate (λ t, votedOn t votes) (firstOccurrences (map v_trackId votes)).
Proof.
  unfold groupVotes. induction votes as [|vote votes IH] using rev_ind; [done|].
  rewrite fold_left_app. simpl. rewrite IH. unfold addRef.
  rewrite map_app. change (map v_trackId [vote]) with [v_trackId vote].
  rewrite firstOccurrences_snoc. set (t := v_trackId vote).
  rewrite Map_has_tabulate.
  rewrite (bool_decide_ext (t ∈ firstOccurrences (map v_trackId votes))
             (t ∈ map v_trackId votes)) by apply firstOccurrences_elem.
  case_bool_decide as Ht.
  - rewrite Map_alter_tabulate, app_nil_r. apply tabulate_ext.
    intros k Hk. rewrite votedOn_snoc. fold t.
    rewrite (bool_decide_ext (t = k) (k = t)) by done.
    destruct (bool_decide (k = t)); [done|by rewrite app_nil_r].
  - unfold Map_set. rewrite Map_has_tabulate.
    rewrite (bool_decide_ext (t ∈ firstOccurrences (map v_trackId votes))
               (t ∈ map v_trackId votes)) by apply firstOccurrences_elem.
    rewrite bool_decide_eq_false_2 by done.
    unfold Map_alter, tabulate. rewrite !map_app, map_map. simpl.
    rewrite bool_decide_eq_true_2 by done. simpl. f_equal.
    + apply map_ext_in. intros k Hk. simpl.
      rewrite bool_decide_eq_false_2.
      * rewrite votedOn_snoc. fold t. rewrite bool_decide_eq_false_2; [|intros <-].
        -- by rewrite app_nil_r.
        -- apply Ht. apply firstOccurrences_elem. by apply list_elem_of_In.
      * intros ->. apply Ht. apply firstOccurrences_elem. by apply list_elem_of_In.
    + rewrite votedOn_snoc. fold t. rewrite bool_decide_eq_true_2 by done.
      by rewrite votedOn_absent.
Qed.

(** X19. The report groups the direct votes by track: one line per track
    voted on, in the order in which the tracks first come up, holding the
    referendum indices voted on that track in the order the chain returned
    them; no track has two lines and no vote is left out. *)
Theorem report_votes_by_track (entries : list (Z * Voting)) :
  let shown := report entries in
  let votes := flat_map votesOf entries in
  voteLines shown
  = map (λ t, (t, votedOn t votes)) (firstOccurrences (map v_trackId votes))
  ∧ NoDup (map fst (voteLines shown))
  ∧ (∀ t r, (∃ refs, (t, refs) ∈ voteLines shown ∧ r ∈ refs)
            ↔ ∃ castVotes prior, (t, Casting castVotes prior) ∈ entries ∧ r ∈ castVotes).
Proof.
  destruct (tally_from entries start) as (_ & Hv & _).
  unfold report. simpl. fold (tally entries) in Hv. rewrite Hv. simpl.
  rewrite groupVotes_spec. fold (tabulate (λ t, votedOn t (flat_map votesOf entries))
                                   (firstOccurrences (map v_trackId (flat_map votesOf entries)))).
  split_and!; [done| |].
  - rewrite tabulate_keys. apply firstOccurrencesFrom_NoDup.
  - intros t r.
    assert (Hvotes : r ∈ votedOn t (flat_map votesOf entries)
                     ↔ ∃ castVotes prior,
                         (t, Casting castVotes prior) ∈ entries ∧ r ∈ castVotes).
    { clear. unfold votedOn. induction entries as [|[t' voting] entries IH]; simpl.
      - rewrite elem_of_nil. split; [done|]. intros (? & ? & H & _).
        by apply elem_of_nil in H.
      - rewrite List.filter_app, map_app, elem_of_app, IH. unfold votesOf at 1. simpl.
        split.
        + intros [Hin|(c & p & Hin & Hr)]; [|exists c, p; split; [by right|done]].
          destruct voting as [|castVotes prior]; simpl in Hin;
            [by apply elem_of_nil in Hin|].
          apply list_elem_of_In, in_map_iff in Hin as (v & <- & Hv').
          apply filter_In in Hv' as [Hv' Ht]. apply bool_decide_eq_true in Ht.
          apply in_map_iff in Hv' as (r' & <- & Hr'). simpl in *. subst t'.
          exists castVotes, prior. split; [by left|by apply list_elem_of_In].
        + intros (c & p & Hin & Hr). apply elem_of_cons in Hin as [[= <- <-]|Hin].
          * left. simpl. apply list_elem_of_In, in_map_iff.
            exists {| v_trackId := t;
                      v_trackName := trackNameOr ("Track " +:+ pretty t) t;
                      v_refIndex := r |}.
            split; [done|]. apply filter_In. split.
            -- apply in_map_iff. exists r. split; [done|by apply list_elem_of_In].
            -- by apply bool_decide_eq_true.
          * right. eauto. }
    rewrite <- Hvotes. split.
    + intros (refs & Hin & Hr). unfold tabulate in Hin.
      apply list_elem_of_In, in_map_iff in Hin as (t' & [= -> <-] & _). done.
    + intros Hr. exists (votedOn t (flat_map votesOf entries)). split; [|done].
      unfold tabulate. apply list_elem_of_In, in_map_iff. exists t. split; [done|].
      apply list_elem_of_In, firstOccurrences_elem.
      unfold votedOn in Hr. apply list_elem_of_In, in_map_iff in Hr as (v & _ & Hv').
      apply filter_In in Hv' as [Hv' Ht]. apply bool_decide_eq_true in Ht. subst t.
      apply list_elem_of_In, in_map. done.
Qed.

(** Both network names of the table are plain words. *)
Lemma check_networks name config :
  NETWORKS !! name = Some config →
  name ≠ EmptyString ∧ startsWith name "--" = false.
Proof.
  intros Hlook. apply elem_of_list_to_map_2 in Hlook.
  apply elem_of_cons in Hlook as [[= -> _]|Hlook]; [done|].
  apply elem_of_cons in Hlook as [[= -> _]|Hlook]; [done|].
  by apply elem_of_nil in Hlook.
Qed.

(** X20. The account of [check-delegation.js] is the first word that does
    not start with [--], the value of an option included: when
    [--network] and its value come before the account on the command
    line, the script queries the chain for the network name taken as the
    account, whatever follows, and reports on it if the chain answers. *)
Theorem check_network_before_account (pre rest : list string) (name : string)
    (config : NetworkConfig) (votingFor : string → option (list (Z * Voting))) :
  Forall (λ word, startsWith word "--" = true ∧ startsWith word "--network" = false) pre →
  NETWORKS !! name = Some config →
  main (pre ++ "--network" :: name :: rest) votingFor
  = match votingFor name with
    | Some entries => Reported config name (report entries)
    | None => QueryThrows config name
    end.
Proof.
  intros Hpre Hlook. destruct (check_networks _ _ Hlook) as [Hne Hplain].
  assert (Haccount : accountArg (pre ++ "--network" :: name :: rest) = Some name).
  { unfold accountArg.
    induction Hpre as [|word pre [Hword _] _ IH]; cbn [app List.find].
    - by rewrite Hplain.
    - by rewrite Hword. }
  assert (Hfound : networkArg (pre ++ "--network" :: name :: rest) = Some "--network").
  { clear Haccount. unfold networkArg.
    induction Hpre as [|word pre [_ Hword] _ IH]; cbn [app List.find]; [done|].
    by rewrite Hword. }
  assert (Hindex : indexOf (pre ++ "--network" :: name :: rest) "--network"
                   = Some (length pre)).
  { clear Haccount Hfound.
    induction Hpre as [|word pre [_ Hword] _ IH]; cbn [app indexOf length]; [done|].
    rewrite bool_decide_eq_false_2 by (by intros ->). by rewrite IH. }
  unfold main, networkOf. rewrite Haccount, Hfound, Hindex. simpl.
  rewrite bool_decide_eq_false_2 by done. simpl.
  rewrite (lookup_app_r _ _ (S _)) by lia.
  replace (S (length pre) - length pre)%nat with 1%nat by lia. simpl.
  unfold getProp. by rewrite Hlook.
Qed.

(** X21. A word that starts with [--network] and comes last on the
    command line of [check-delegation.js] has no value after it, also when
    it is written [--network=polkadot]: the network is then undefined and
    the script stops on [Unknown network] with exit code 1. *)
Theorem check_trailing_network (pre : list string) (suffix account : string)
    (votingFor : string → option (list (Z * Voting))) :
  accountArg pre = Some account → account ≠ EmptyString →
  Forall (λ word, startsWith word "--network" = false) pre →
  main (pre ++ ["--network" +:+ suffix]) votingFor = UnknownNetwork None.
Proof.
  intros Haccount Hne Hpre.
  assert (Hlast : startsWith ("--network" +:+ suffix) "--network" = true).
  { unfold startsWith. simpl. by destruct suffix. }
  assert (Hacc : accountArg (pre ++ ["--network" +:+ suffix]) = Some account).
  { revert Haccount. unfold accountArg. clear.
    induction pre as [|word pre IH]; cbn [app List.find]; [done|].
    destruct (negb (startsWith word "--")); [done|]. apply IH. }
  assert (Hfound : networkArg (pre ++ ["--network" +:+ suffix])
                   = Some ("--network" +:+ suffix)).
  { unfold networkArg. clear Haccount Hacc.
    induction Hpre as [|word pre Hword _ IH]; cbn [app List.find].
    - by rewrite Hlast.
    - by rewrite Hword. }
  assert (Hindex : indexOf (pre ++ ["--network" +:+ suffix]) ("--network" +:+ suffix)
                   = Some (length pre)).
  { clear Haccount Hacc Hfound.
    induction Hpre as [|word pre Hword _ IH]; cbn [app indexOf length].
    - by rewrite bool_decide_eq_true_2.
    - rewrite bool_decide_eq_false_2 by (intros ->; congruence). by rewrite IH. }
  unfold main, networkOf. rewrite Hacc, Hfound, Hindex. simpl.
  rewrite bool_decide_eq_false_2 by done. simpl.
  rewrite lookup_ge_None_2; [done|]. rewrite length_app. simpl. lia.
Qed.

End StatusDisplay.

(* ===================================================================== *)
(** * The proxy mnemonic and the display of durations                     *)
(* ===================================================================== *)

Section Mnemonic.
Import Chain Common Cleanup.

Lemma trimStart_spaces (spaces s : list N) :
  Forall (λ u, isWhiteSpace u = true) spaces → trimStart (spaces ++ s) = trimStart s.
Proof. induction 1 as [|u spaces Hu _ IH]; simpl; [done|]. by rewrite Hu. Qed.

Lemma trimStart_clean (s : list N) :
  (∀ u, head s = Some u → isWhiteSpace u = false) → trimStart s = s.
Proof. destruct s as [|u s]; simpl; [done|]. intros Hu. by rewrite (Hu u). Qed.

Lemma trimEnd_spaces (s spaces : list N) :
  Forall (λ u, isWhiteSpace u = true) spaces → trimEnd (s ++ spaces) = trimEnd s.
Proof.
  intros Hspaces. unfold trimEnd. rewrite rev_app_distr, trimStart_spaces; [done|].
  apply Forall_forall. intros u Hu. rewrite Forall_forall in Hspaces.
  apply Hspaces. by apply list_elem_of_In, in_rev, list_elem_of_In.
Qed.

Lemma head_rev (s : list N) : head (rev s) = last s.
Proof.
  induction s as [|u s _] using rev_ind; [done|].
  by rewrite rev_unit, last_snoc.
Qed.

Lemma trimEnd_clean (s : list N) :
  (∀ u, last s = Some u → isWhiteSpace u = false) → trimEnd s = s.
Proof.
  intros Hlast. unfold trimEnd. rewrite trimStart_clean; [apply rev_involutive|].
  intros u Hu. apply Hlast. by rewrite <- head_rev.
Qed.

(** Text that neither starts nor ends with white space. *)
Definition trimmed (s : list N) : Prop :=
  (∀ u, head s = Some u → isWhiteSpace u = false)
  ∧ (∀ u, last s = Some u → isWhiteSpace u = false).

Lemma trim_padded (lead s trail : list N) :
  Forall (λ u, isWhiteSpace u = true) lead →
  Forall (λ u, isWhiteSpace u = true) trail →
  trimmed s → trim (lead ++ s ++ trail) = s.
Proof.
  intros Hlead Htrail [Hhead Hlast]. unfold trim. rewrite trimStart_spaces by done.
  destruct s as [|u s].
  - simpl. rewrite <- (app_nil_r trail), trimStart_spaces by done. done.
  - rewrite trimStart_clean by (simpl; intros ? [= <-]; by apply Hhead).
    rewrite trimEnd_spaces by done. by apply trimEnd_clean.
Qed.

Lemma firstLine_line (line rest : list N) :
  10%N ∉ line → firstLine (line ++ 10%N :: rest) = line ∧ firstLine line = line.
Proof.
  induction line as [|u line IH]; simpl; intros Hnot; [done|].
  rewrite bool_decide_eq_false_2 by (intros ->; apply Hnot; by left).
  destruct IH as [-> ->]; [|done]. intros Hin. apply Hnot. by right.
Qed.

(** X22. With a key file, the mnemonic is the first line of the file,
    trimmed: white space around it on that line (a carriage return before
    the line feed, a byte order mark at the head of the file) is dropped,
    the lines after the first are not read, and [--mnemonic] asks
    nothing. *)
Theorem keyfile_mnemonic (config : Config) (lead words trail ending : list N)
    (typed : list (list N)) :
  given (keyfile config) = true →
  Forall (λ u, isWhiteSpace u = true ∧ u ≠ 10%N) lead →
  Forall (λ u, isWhiteSpace u = true ∧ u ≠ 10%N) trail →
  trimmed words → 10%N ∉ words →
  ending = [] ∨ (∃ rest, ending = 10%N :: rest) →
  getMnemonic config (Some (lead ++ words ++ trail ++ ending)) typed = Got words.
Proof.
  intros Hkey Hlead Htrail Hwords Hline Hending. unfold getMnemonic. rewrite Hkey.
  assert (Hnot : 10%N ∉ lead ++ words ++ trail).
  { rewrite !elem_of_app. rewrite Forall_forall in Hlead, Htrail.
    intros [Hin|[Hin|Hin]]; [by destruct (Hlead _ Hin)|done|by destruct (Htrail _ Hin)]. }
  assert (Hfirst : firstLine (lead ++ words ++ trail ++ ending) = lead ++ words ++ trail).
  { destruct Hending as [->|[rest ->]].
    - rewrite app_nil_r. by apply (firstLine_line _ []).
    - rewrite !app_assoc. rewrite <- !app_assoc.
      replace (lead ++ words ++ trail ++ 10%N :: rest)
        with ((lead ++ words ++ trail) ++ 10%N :: rest) by (by rewrite <- !app_assoc).
      by apply firstLine_line. }
  rewrite Hfirst, trim_padded; [done| | |done].
  - eapply Forall_impl; [exact Hlead|]. by intros u [? _].
  - eapply Forall_impl; [exact Htrail|]. by intros u [? _].
Qed.

(** The chunks [onData] acts upon instead of appending them. *)
Definition controlKey (char : list N) : Prop :=
  char = [10%N] ∨ char = [13%N] ∨ char = [3%N] ∨ char = [127%N].

Lemma onData_append mnemonic char :
  ¬ controlKey char → onData (Reading mnemonic) char = Reading (mnemonic ++ char).
Proof.
  intros Hkey. unfold controlKey in Hkey. simpl.
  rewrite !bool_decide_eq_false_2 by tauto. done.
Qed.

(** X23. At the prompt, what is typed or pasted before Enter (a line feed
    or a carriage return alone in its chunk) is put together chunk by
    chunk, a chunk of several characters being taken whole, line feeds
    included; Enter gives the trimmed text as mnemonic, and what arrives
    after Enter is not read. *)
Theorem prompt_typed (chunks : list (list N)) (enter : list N) (later : list (list N)) :
  Forall (λ chunk, ¬ controlKey chunk) chunks →
  enter = [10%N] ∨ enter = [13%N] →
  promptMnemonic (chunks ++ enter :: later) = Resolved (trim (concat chunks)).
Proof.
  intros Hchunks Henter. unfold promptMnemonic. rewrite fold_left_app.
  assert (Hread : ∀ mnemonic,
            fold_left onData chunks (Reading mnemonic)
            = Reading (mnemonic ++ concat chunks)).
  { induction Hchunks as [|chunk chunks Hchunk _ IH]; intros mnemonic; cbn [fold_left concat].
    - by rewrite app_nil_r.
    - rewrite onData_append by done. rewrite IH, <- app_assoc. done. }
  rewrite Hread. cbn [fold_left app].
  assert (Hdone : onData (Reading (concat chunks)) enter = Resolved (trim (concat chunks)))
    by (destruct Henter as [-> | ->]; done).
  rewrite Hdone. clear. induction later as [|chunk later IH]; simpl; done.
Qed.

(** X24. At the prompt, a backspace alone in its chunk cancels the key
    typed just before it: the sequence of chunks gives what it would give
    without the two. *)
Theorem prompt_backspace (pre post : list (list N)) (key : N) :
  ¬ controlKey [key] →
  promptMnemonic (pre ++ [key] :: [127%N] :: post) = promptMnemonic (pre ++ post).
Proof.
  intros Hkey. unfold promptMnemonic. rewrite !fold_left_app. cbn [fold_left].
  f_equal. destruct (fold_left onData pre (Reading [])) as [mnemonic| |]; [|done..].
  rewrite onData_append by done. simpl.
  rewrite length_app. simpl. replace (length mnemonic + 1 - 1)%nat
    with (length mnemonic) by lia.
  by rewrite take_app_length.
Qed.

End Mnemonic.

Section Durations.
Import Cleanup.

(** X25. [formatBlocks] shows a number of blocks as a duration at 6 seconds
    a block, that is 10 blocks a minute, 600 an hour and 14400 a day: days
    and hours from one day on, hours alone from one hour on, minutes
    below; the duration shown never exceeds the real one, and falls short
    of it by less than an hour, or by less than a minute below one hour. *)
Theorem formatBlocks_shown (blocks : Z) :
  0 ≤ blocks →
  let d := blocks `div` 14400 in
  let h := (blocks `mod` 14400) `div` 600 in
  let m := blocks `div` 10 in
  formatBlocks blocks
  = (if bool_decide (14400 ≤ blocks) then
       "~" +:+ pretty d +:+ "d " +:+ pretty h +:+ "h"
     else if bool_decide (600 ≤ blocks) then "~" +:+ pretty h +:+ "h"
     else "~" +:+ pretty m +:+ "m")
  ∧ 0 ≤ h < 24
  ∧ d * 14400 + h * 600 ≤ blocks < d * 14400 + (h + 1) * 600
  ∧ m * 10 ≤ blocks < (m + 1) * 10.
Proof.
  intros Hpos d h m. unfold formatBlocks.
  assert (Hd : (blocks * 6) `div` 86400 = d).
  { unfold d. replace 86400 with (14400 * 6) by lia.
    rewrite Z.div_mul_cancel_r by lia. done. }
  assert (Hrem : (blocks * 6) `rem` 86400 = (blocks `mod` 14400) * 6).
  { rewrite Z.rem_mod_nonneg by lia. replace 86400 with (14400 * 6) by lia.
    rewrite Z.mul_mod_distr_r by lia. done. }
  assert (Hh : ((blocks * 6) `rem` 86400) `div` 3600 = h).
  { rewrite Hrem. unfold h. replace 3600 with (600 * 6) by lia.
    rewrite Z.div_mul_cancel_r by lia. done. }
  assert (Hm : (blocks * 6) `div` 60 = m).
  { unfold m. replace 60 with (10 * 6) by lia.
    rewrite Z.div_mul_cancel_r by lia. done. }
  rewrite Hd, Hh, Hm.
  pose proof (Z.div_mod blocks 14400 ltac:(lia)) as Hdm.
  pose proof (Z.mod_pos_bound blocks 14400 ltac:(lia)) as Hmb.
  pose proof (Z.div_mod (blocks `mod` 14400) 600 ltac:(lia)) as Hhm.
  pose proof (Z.mod_pos_bound (blocks `mod` 14400) 600 ltac:(lia)) as Hhb.
  pose proof (Z.div_mod blocks 10 ltac:(lia)) as Hmm.
  pose proof (Z.mod_pos_bound blocks 10 ltac:(lia)) as Hmmb.
  fold d in Hdm. fold h in Hhm. fold m in Hmm.
  assert (Hd0 : 0 ≤ d) by (apply Z.div_pos; lia).
  assert (Hh0 : 0 ≤ h) by (apply Z.div_pos; lia).
  split_and!; try lia.
  destruct (decide (14400 ≤ blocks)) as [Hday|Hday].
  - rewrite (bool_decide_eq_true_2 (14400 ≤ blocks)) by done.
    rewrite bool_decide_eq_true_2; [done|]. nia.
  - rewrite (bool_decide_eq_false_2 (14400 ≤ blocks)) by done.
    assert (d = 0) as Hdz by nia.
    rewrite (bool_decide_eq_false_2 (d > 0)) by lia.
    destruct (decide (600 ≤ blocks)) as [Hhour|Hhour].
    + rewrite (bool_decide_eq_true_2 (600 ≤ blocks)) by done.
      rewrite bool_decide_eq_true_2; [done|]. nia.
    + rewrite (bool_decide_eq_false_2 (600 ≤ blocks)) by done.
      rewrite bool_decide_eq_false_2; [done|]. nia.
Qed.

End Durations.

(* ===================================================================== *)
(** * The subscription of a submission of delegate.js                     *)
(* ===================================================================== *)

Section Subscription.
Import Chain Common.
Variable api : Api.

(** A monitor whose timer has fired after the unsubscribe function was
    stored: the promise is settled and the callback is no longer called. *)
Definition detached (m : Delegate.Mon) : Prop :=
  Delegate.timerArmed m = false ∧ Delegate.unsub m = true
  ∧ Delegate.subscribed m = false ∧ Delegate.promise m ≠ Pending.

Lemma arrive_detached m inc : detached m → Delegate.arrive api m inc = m.
Proof.
  intros (Htimer & Hunsub & Hsub & Hp).
  destruct m as [p timer u sub lg]. simpl in *. subst.
  destruct inc as [n| |msg]; simpl; [done|done|].
  unfold Delegate.settle, Delegate.clearTimeout. simpl. by rewrite reject_idem.
Qed.

Lemma deliver_detached m ev : detached m → Delegate.deliver api m ev = m.
Proof.
  intros Hm. unfold Delegate.deliver, Delegate.tick.
  rewrite (proj1 Hm). simpl. by apply arrive_detached.
Qed.

Lemma deliverAll_detached m trace : detached m → Delegate.deliverAll api m trace = m.
Proof.
  intros Hm. induction trace as [|ev trace IH]; [done|].
  unfold Delegate.deliverAll in *. simpl. by rewrite deliver_detached.
Qed.

Lemma onTimeout_detached m :
  Delegate.unsub m = true → detached (Delegate.onTimeout m).
Proof.
  intros Hunsub. unfold detached, Delegate.onTimeout. simpl. rewrite Hunsub.
  split_and!; [done|done|done|apply reject_settled].
Qed.

(** Once stored, the unsubscribe function stays. *)
Lemma deliver_unsub m ev :
  Delegate.unsub m = true ∨ ev.2 = SendOk → Delegate.unsub (Delegate.deliver api m ev) = true.
Proof.
  intros Hor. unfold Delegate.deliver.
  assert (Htick : Delegate.unsub (Delegate.tick m ev.1) = Delegate.unsub m).
  { unfold Delegate.tick. by destruct (_ && _). }
  destruct ev.2 as [n| |msg] eqn:Hinc; simpl.
  - destruct Hor as [Hu|?]; [|done]. rewrite <- Htick in Hu.
    destruct (Delegate.subscribed _); [|done].
    unfold Delegate.onStatus. destruct (dispatchError n); [done|].
    by destruct (status n).
  - done.
  - destruct Hor as [Hu|?]; [|done]. by rewrite Htick.
Qed.

Lemma deliverAll_unsub trace m :
  Delegate.unsub m = true ∨ (∃ t, (t, SendOk) ∈ trace) →
  Delegate.unsub (Delegate.deliverAll api m trace) = true.
Proof.
  revert m. induction trace as [|ev trace IH]; intros m Hor.
  - destruct Hor as [Hu|[t Hin]]; [done|by apply elem_of_nil in Hin].
  - unfold Delegate.deliverAll in *. simpl. apply IH.
    destruct Hor as [Hu|[t Hin]].
    + left. apply deliver_unsub. by left.
    + apply elem_of_cons in Hin as [<-|Hin]; [|right; by exists t].
      left. apply deliver_unsub. by right.
Qed.

(** X26. When the unsubscribe function of a submission of [delegate.js]
    has been received and nothing terminal arrives before the deadline,
    the timer rejects the submission and cancels the subscription:
    whatever arrives from the deadline on, a [Finalized] notification
    included, changes neither the outcome nor what is printed. *)
Theorem delegate_unsubscribes_at_deadline (pre post : Trace) (sent : Z) :
  (∀ ev, ev ∈ pre → ev.1 < Delegate.TIMEOUT_MS ∧ terminal ev.2 = false) →
  (sent, SendOk) ∈ pre →
  (∀ ev, head post = Some ev → Delegate.TIMEOUT_MS ≤ ev.1) →
  Delegate.monitor api (pre ++ post) = Delegate.monitor api pre
  ∧ Delegate.promise (Delegate.monitor api pre) = Rejected TxTimeout
  ∧ Delegate.subscribed (Delegate.monitor api pre) = false.
Proof.
  intros Hquiet Hsent Hlate. unfold Delegate.monitor. rewrite deliverAll_app.
  set (m := Delegate.deliverAll api Delegate.initial pre).
  assert (Hm : coherent m) by apply deliverAll_coherent, initial_coherent.
  assert (Hp : Delegate.promise m = Pending)
    by (apply deliverAll_quiet; [apply initial_coherent|done|done]).
  assert (Htimer : Delegate.timerArmed m = true) by (by apply Hm).
  assert (Hunsub : Delegate.unsub m = true)
    by (apply deliverAll_unsub; right; by exists sent).
  pose proof (onTimeout_detached m Hunsub) as Hdet.
  assert (Hexp : Delegate.expire m = Delegate.onTimeout m)
    by (unfold Delegate.expire; by rewrite Htimer).
  rewrite Hexp. split_and!.
  - destruct post as [|ev post]; [done|].
    change (Delegate.deliverAll api m (ev :: post))
      with (Delegate.deliverAll api (Delegate.deliver api m ev) post).
    assert (Hfirst : Delegate.deliver api m ev = Delegate.onTimeout m).
    { unfold Delegate.deliver, Delegate.tick. rewrite Htimer.
      rewrite bool_decide_eq_true_2 by (by apply Hlate). simpl.
      by apply arrive_detached. }
    rewrite Hfirst, deliverAll_detached by done.
    unfold Delegate.expire. by rewrite (proj1 Hdet).
  - unfold Delegate.onTimeout. simpl. by rewrite Hp.
  - unfold Delegate.onTimeout. simpl. by rewrite Hunsub.
Qed.

End Subscription.

(* ===================================================================== *)
(** * The runs and command lines above, on examples                       *)
(* ===================================================================== *)

Section CleanupRunExamples.
Import Chain Common.

(** Every submission is finalized in time. *)
Definition allFinalized : Cleanup.World :=
  {| Cleanup.keyfileExists := true;
     Cleanup.votingEntries := sixDelegations;
     Cleanup.headBlock := 100;
     Cleanup.classLocks := [];
     Cleanup.answer := "Y";
     Cleanup.responses := λ _, finalizedInTime |}.

Definition dryConfig : Cleanup.Config :=
  {| Cleanup.network := Some "kusama"; Cleanup.account := Some "account";
     Cleanup.keyfile := Some "proxy.txt"; Cleanup.useMnemonic := false;
     Cleanup.dryRun := true; Cleanup.unlockOnly := false |}.

Lemma cleanup_dry_run_witness :
  Cleanup.ending (Cleanup.mainWith exampleApi kusamaCleanup dryConfig firstBatchFails)
  = ExitCode 0
  ∧ Cleanup.sent (Cleanup.mainWith exampleApi kusamaCleanup dryConfig firstBatchFails) = []
  ∧ "  • Undelegate from track 12 (Fellowship Admin)"
      ∈ Cleanup.output (Cleanup.mainWith exampleApi kusamaCleanup dryConfig firstBatchFails).
Proof.
  destruct (cleanup_dry_run exampleApi "kusama" kusamaCleanup dryConfig firstBatchFails)
    as (Hend & Hsent & Hlines & _); [reflexivity..|].
  split_and!; [exact Hend|exact Hsent|].
  apply (Hlines (Cleanup.undelegateItem 12)). vm_compute.
  repeat first [apply list_elem_of_here | apply list_elem_of_further].
Defined.






(** An account whose only trace on the chain is a prior lock that expires
    at block 500. *)
Definition lockedUntil500 : Cleanup.World :=
  {| Cleanup.keyfileExists := true;
     Cleanup.votingEntries := [ (0, Casting [] (Some [500; 10])) ];
     Cleanup.headBlock := 100;
     Cleanup.classLocks := [ (0, 10) ];
     Cleanup.answer := "no";
     Cleanup.responses := λ _, silent |}.

Lemma cleanup_nothing_to_do_witness :
  Cleanup.plan (Cleanup.mainWith exampleApi kusamaCleanup cleanupConfig lockedUntil500) = []
  ∧ Cleanup.ending (Cleanup.mainWith exampleApi kusamaCleanup cleanupConfig lockedUntil500)
    = ExitCode 0
  ∧ Cleanup.sent (Cleanup.mainWith exampleApi kusamaCleanup cleanupConfig lockedUntil500)
    = [].
Proof.
  destruct (cleanup_nothing_to_do exampleApi kusamaCleanup cleanupConfig lockedUntil500)
    as (Hiff & Hthen); [reflexivity|reflexivity|].
  assert (Hnil : Cleanup.plan (Cleanup.mainWith exampleApi kusamaCleanup cleanupConfig
                                 lockedUntil500) = []).
  { apply Hiff. intros t voting Hin. simpl in Hin.
    apply elem_of_cons in Hin as [[= -> ->]|Hin]; [|by apply elem_of_nil in Hin].
    split.
    - intros (castVotes & unlockBlock & amount & rest & Heq & Hu & _).
      injection Heq as _ <- _ _. simpl in Hu. lia.
    - intros _. by eexists. }
  destruct (Hthen Hnil) as (Hend & Hsent & _). done.
Defined.

Lemma cleanup_help_witness :
  Cleanup.main exampleApi [ "-n"; "kusama"; "stray"; "-h"; "--account" ] allFinalized
  = Cleanup.Help.
Proof.
  apply (cleanup_help exampleApi [OptNetwork true "kusama"; Word "stray"] true
           ["--account"] allFinalized).
  repeat constructor. intros Hin. apply list_elem_of_In in Hin. simpl in Hin.
  intuition discriminate.
Defined.

Lemma cleanup_trailing_network_witness :
  Cleanup.main exampleApi
    [ "--network"; "kusama"; "-a"; "account"; "-k"; "proxy.txt"; "--network" ]
    allFinalized
  = Cleanup.Refused "Error: Must specify --network (polkadot or kusama)".
Proof.
  apply (cleanup_trailing_network exampleApi
           [OptNetwork false "kusama"; OptAccount true "account";
            OptKeyfile true "proxy.txt"] false allFinalized).
  repeat constructor.
Defined.


End CleanupRunExamples.

(** ** [delegate.js] *)

Section DelegateRunExamples.
Import Chain Common.

Lemma delegate_sends_only_the_plan_witness :
  Delegate.dryRun delegateArgs = false
  ∧ toLowerCase (Delegate.answer firstBatchDropped) = "yes"
  ∧ ∃ network planck calls,
      getProp Delegate.NETWORKS (Delegate.networkName delegateArgs) = Own network
      ∧ Delegate.balancePlanck (Delegate.balanceAmount delegateArgs) network = Some planck
      ∧ ProxyBatchAll "account"
          (map (λ t, Delegate t "delegate" "Locked5x" 650000000000000) [31; 32; 33; 34])
        = ProxyBatchAll (Delegate.account delegateArgs) calls
      ∧ (0 < length calls ≤ 4)%nat
      ∧ ∀ c, c ∈ calls →
          ∃ t, t ∈ Delegate.tracksOf delegateArgs
               ∧ c = Delegate t (Delegate.delegateTo delegateArgs)
                       (Delegate.conviction delegateArgs) planck.
Proof.
  apply (delegate_sends_only_the_plan exampleApi delegateArgs firstBatchDropped).
  vm_compute. repeat first [apply list_elem_of_here | apply list_elem_of_further].
Defined.

Lemma delegate_submits_every_track_witness :
  concat (map extrinsicCalls (Delegate.sent droppedRun))
  = map (λ t, Delegate t "delegate" "Locked5x" 650000000000000) Delegate.ALL_TRACKS
  ∧ length (Delegate.sent droppedRun) = 4%nat
  ∧ Delegate.ending droppedRun = ExitCode 0.
Proof.
  destruct (delegate_submits_every_track exampleApi delegateArgs firstBatchDropped
              kusamaDelegate 650000000000000)
    as (Hcalls & Hlen & _ & Hend);
    [reflexivity|discriminate|reflexivity|reflexivity|reflexivity|reflexivity|].
  unfold droppedRun. split_and!; [rewrite Hcalls; reflexivity|rewrite Hlen; reflexivity|
                                  exact Hend].
Defined.

Definition dryDelegateArgs : Delegate.Args :=
  {| Delegate.account := "account"; Delegate.keyfile := "proxy.txt";
     Delegate.delegateTo := "delegate"; Delegate.balanceAmount := Float64.ofZ 650;
     Delegate.conviction := "Locked5x"; Delegate.dryRun := true;
     Delegate.networkName := "kusama"; Delegate.trackIndices := [0; 33] |}.

Lemma delegate_dry_run_witness :
  Delegate.sent (Delegate.main exampleApi dryDelegateArgs firstBatchDropped) = []
  ∧ Delegate.ending (Delegate.main exampleApi dryDelegateArgs firstBatchDropped)
    = ExitCode 0
  ∧ map Delegate.call
      (Delegate.calls (Delegate.main exampleApi dryDelegateArgs firstBatchDropped))
    = [ Delegate 0 "delegate" "Locked5x" 650000000000000;
        Delegate 33 "delegate" "Locked5x" 650000000000000 ].
Proof.
  destruct (delegate_dry_run exampleApi dryDelegateArgs firstBatchDropped eq_refl)
    as (Hsent & _ & _ & _ & Hplan).
  destruct (Hplan kusamaDelegate 650000000000000) as (Hend & Hcalls);
    [reflexivity|discriminate|reflexivity|reflexivity|].
  split_and!; [exact Hsent|exact Hend|rewrite Hcalls; reflexivity].
Defined.

(** The amount on the command line was no number. *)
Definition noAmountArgs : Delegate.Args :=
  {| Delegate.account := "account"; Delegate.keyfile := "proxy.txt";
     Delegate.delegateTo := "delegate"; Delegate.balanceAmount := S754_nan;
     Delegate.conviction := "Locked5x"; Delegate.dryRun := false;
     Delegate.networkName := "polkadot"; Delegate.trackIndices := [] |}.

Lemma delegate_amount_not_a_number_witness :
  Delegate.ending (Delegate.main exampleApi noAmountArgs firstBatchDropped) = ExitCode 0
  ∧ Delegate.connected (Delegate.main exampleApi noAmountArgs firstBatchDropped) = false
  ∧ Delegate.sent (Delegate.main exampleApi noAmountArgs firstBatchDropped) = [].
Proof.
  destruct (delegate_amount_not_a_number exampleApi noAmountArgs firstBatchDropped
              {| Delegate.name := "Polkadot Asset Hub";
                 Delegate.endpoint := "wss://sys.ibp.network:443/asset-hub-polkadot";
                 Delegate.decimals := 10; Delegate.symbol := "DOT";
                 Delegate.ss58Format := 0; Delegate.baseLockDays := 28;
                 Delegate.maxTracksPerBatch := 4 |})
    as (Hend & Hconn & _ & Hsent); [reflexivity|discriminate|by left|].
  done.
Defined.

(** A [parseFloat] and a [parseInt] that know the numerals of the
    example. *)
Definition exampleParseFloat (s : string) : spec_float :=
  if bool_decide (s = "650") then Float64.ofZ 650 else S754_nan.

Definition exampleParseInt (s : string) : spec_float :=
  if bool_decide (s = "0") then Float64.ofZ 0
  else if bool_decide (s = "33") then Float64.ofZ 33
  else S754_nan.


Lemma delegate_trailing_word_witness :
  Delegate.parseArgs exampleParseFloat exampleParseInt
    [ "account"; "proxy.txt"; "delegate"; "650"; "Locked5x"; "--dry-run";
      "--track"; "0"; "--track"; "33"; "--network" ]
  = Delegate.Parsed dryDelegateArgs.
Proof.
  transitivity (Delegate.parseArgs exampleParseFloat exampleParseInt
                  [ "account"; "proxy.txt"; "delegate"; "650"; "Locked5x"; "--dry-run";
                    "--track"; "0"; "--track"; "33" ]); [|reflexivity].
  apply (delegate_trailing_word exampleParseFloat exampleParseInt
           [ "account"; "proxy.txt"; "delegate"; "650"; "Locked5x"; "--dry-run";
             "--track"; "0"; "--track"; "33" ] "--network");
    [simpl; lia|discriminate|discriminate|].
  intros Hin. apply list_elem_of_In in Hin. simpl in Hin. intuition discriminate.
Defined.


End DelegateRunExamples.

(** ** [check-delegation.js] *)

Section StatusExamples.
Import Chain Common.

(** A chain that knows the account [15D2J] and refuses any other text. *)
Definition knownAccount (account : string) : option (list (Z * Voting)) :=
  if bool_decide (account = "15D2J") then Some twoDelegations else None.

Lemma check_network_before_account_witness :
  Check.main [ "--network"; "polkadot"; "15D2J" ] knownAccount
  = Check.QueryThrows
      {| Check.name := "Polkadot Asset Hub";
         Check.endpoint := "wss://sys.ibp.network:443/asset-hub-polkadot";
         Check.decimals := 10; Check.symbol := "DOT" |}
      "polkadot".
Proof.
  apply (check_network_before_account [] ["15D2J"] "polkadot" _ knownAccount);
    [constructor|reflexivity].
Defined.

Lemma check_trailing_network_witness :
  Check.main [ "15D2J"; "--network=polkadot" ] knownAccount
  = Check.UnknownNetwork None.
Proof.
  apply (check_trailing_network ["15D2J"] "=polkadot" "15D2J" knownAccount);
    [reflexivity|discriminate|repeat constructor].
Defined.

End StatusExamples.

(** ** The mnemonic and the durations *)

Section MnemonicExamples.
Import Common.

(** The code units of [ab cd]. *)
Definition abcd : list N := [97; 98; 32; 99; 100]%N.

Lemma keyfile_mnemonic_witness :
  Cleanup.getMnemonic cleanupConfig
    (Some ([65279%N] ++ abcd ++ [32; 13]%N ++ [10; 120; 121; 10]%N)) [[122%N]]
  = Cleanup.Got abcd.
Proof.
  apply (keyfile_mnemonic cleanupConfig [65279%N] abcd [32; 13]%N [10; 120; 121; 10]%N
           [[122%N]]);
    [reflexivity|repeat constructor; discriminate|repeat constructor; discriminate
    | | |right; by eexists].
  - split; intros u [= <-]; reflexivity.
  - intros Hin. apply list_elem_of_In in Hin. simpl in Hin. intuition discriminate.
Defined.

Lemma prompt_typed_witness :
  Cleanup.promptMnemonic [ [32%N]; [97; 10; 98; 10]%N; [13%N]; [99%N] ]
  = Cleanup.Resolved [97; 10; 98]%N.
Proof.
  apply (prompt_typed [ [32%N]; [97; 10; 98; 10]%N ] [13%N] [[99%N]]); [|by right].
  repeat constructor; intros [H|[H|[H|H]]]; discriminate.
Defined.

Lemma prompt_backspace_witness :
  Cleanup.promptMnemonic [ [97%N]; [120%N]; [127%N]; [98%N]; [10%N] ]
  = Cleanup.promptMnemonic [ [97%N]; [98%N]; [10%N] ].
Proof.
  apply (prompt_backspace [[97%N]] [[98%N]; [10%N]] 120%N).
  intros [H|[H|[H|H]]]; discriminate.
Defined.

Lemma formatBlocks_shown_witness :
  Cleanup.formatBlocks 15000 = "~1d 1h"
  ∧ Cleanup.formatBlocks 599 = "~59m".
Proof.
  destruct (formatBlocks_shown 15000 ltac:(lia)) as (H1 & _).
  destruct (formatBlocks_shown 599 ltac:(lia)) as (H2 & _).
  split; [rewrite H1|rewrite H2]; reflexivity.
Defined.

End MnemonicExamples.

(** ** A submission that times out *)

Section SubscriptionExamples.
Import Chain Common.

Lemma delegate_unsubscribes_at_deadline_witness :
  Delegate.monitor exampleApi (silent ++ [(130000, Notify finalizedOk)])
  = Delegate.monitor exampleApi silent
  ∧ Delegate.promise (Delegate.monitor exampleApi silent) = Rejected TxTimeout.
Proof.
  destruct (delegate_unsubscribes_at_deadline exampleApi silent
              [(130000, Notify finalizedOk)] 1000) as (Hsame & Hout & _).
  - intros ev Hev.
    repeat (apply elem_of_cons in Hev as [->|Hev]; [by split|]).
    by apply elem_of_nil in Hev.
  - by left.
  - intros ev [= <-]. by vm_compute.
  - by split.
Defined.

End SubscriptionExamples.
